(** * cedict: a shallow embedding of the CC-CEDICT dictionary engine

    The development follows [cedict.go]: Go strings are byte sequences,
    code points ([rune]) are decoded from them with the UTF-8 rules of
    the Go runtime, slices that go out of range panic, and fallible
    functions return an error value. *)

From Stdlib Require Import ZArith Ascii String List Lia Bool Permutation Sorted.
From stdpp Require Import base tactics option list gmap strings.
Import ListNotations.

(** ** Bytes, strings and code points *)

Abbreviation byte := ascii.
Abbreviation gostring := (list ascii).
Abbreviation rune := Z.

Definition b2z (b : byte) : Z := Z.of_N (N_of_ascii b).
Definition z2b (z : Z) : byte := ascii_of_N (Z.to_N z).

(** A Go string literal: the UTF-8 bytes of the source text. *)
Definition str (s : string) : gostring := list_ascii_of_string s.

Definition RuneError : rune := 0xFFFD%Z.
Definition RuneSelf : Z := 0x80%Z.

Module utf8.
Local Open Scope Z_scope.

(** The classification of a leading byte ([first] and [acceptRanges] of
    unicode/utf8): the length of the sequence it starts and the range
    the second byte must lie in. *)
Inductive lead := LAscii | LInvalid | LSeq (size : nat) (lo hi : Z).

Definition first (b : Z) : lead :=
  if b <? 0x80 then LAscii
  else if b <? 0xC2 then LInvalid
  else if b <? 0xE0 then LSeq 2 0x80 0xBF
  else if b =? 0xE0 then LSeq 3 0xA0 0xBF
  else if b =? 0xED then LSeq 3 0x80 0x9F
  else if b <? 0xF0 then LSeq 3 0x80 0xBF
  else if b =? 0xF0 then LSeq 4 0x90 0xBF
  else if b <? 0xF4 then LSeq 4 0x80 0xBF
  else if b =? 0xF4 then LSeq 4 0x80 0x8F
  else LInvalid.

Definition within (lo hi b : Z) : bool := (lo <=? b) && (b <=? hi).
Definition cont (b : Z) : bool := within 0x80 0xBF b.

(** [decode s] cuts [s] into code points as [for _, r := range s] and
    [[]rune(s)] do, keeping with each code point the bytes it was read
    from.  A byte that starts no valid sequence yields [RuneError] and
    is consumed alone. *)
Fixpoint decode (s : gostring) : list (rune * gostring) :=
  match s with
  | [] => []
  | b0 :: t1 =>
    let bad := (RuneError, [b0]) :: decode t1 in
    match first (b2z b0) with
    | LAscii => (b2z b0, [b0]) :: decode t1
    | LInvalid => bad
    | LSeq size lo hi =>
      match t1 with
      | [] => bad
      | b1 :: t2 =>
        if negb (within lo hi (b2z b1)) then bad
        else match size with
        | 2%nat => ((b2z b0 mod 32) * 64 + b2z b1 mod 64, [b0; b1]) :: decode t2
        | _ =>
          match t2 with
          | [] => bad
          | b2 :: t3 =>
            if negb (cont (b2z b2)) then bad
            else match size with
            | 3%nat => ((b2z b0 mod 16) * 4096 + (b2z b1 mod 64) * 64
                        + b2z b2 mod 64, [b0; b1; b2]) :: decode t3
            | _ =>
              match t3 with
              | [] => bad
              | b3 :: t4 =>
                if negb (cont (b2z b3)) then bad
                else ((b2z b0 mod 8) * 262144 + (b2z b1 mod 64) * 4096
                      + (b2z b2 mod 64) * 64 + b2z b3 mod 64,
                      [b0; b1; b2; b3]) :: decode t4
              end
            end
          end
        end
      end
    end
  end.

(** [utf8.EncodeRune]: surrogates and values out of range are written as
    [RuneError]. *)
Definition ValidRune (r : rune) : bool :=
  ((0 <=? r) && (r <? 0xD800)) || ((0xDFFF <? r) && (r <=? 0x10FFFF)).

Definition EncodeRune (r : rune) : gostring :=
  if (0 <=? r) && (r <? 0x80) then [z2b r]
  else if (0 <=? r) && (r <? 0x800) then [z2b (0xC0 + r / 64); z2b (0x80 + r mod 64)]
  else if negb (ValidRune r) then [z2b 0xEF; z2b 0xBF; z2b 0xBD]
  else if r <? 0x10000 then
    [z2b (0xE0 + r / 4096); z2b (0x80 + (r / 64) mod 64); z2b (0x80 + r mod 64)]
  else
    [z2b (0xF0 + r / 262144); z2b (0x80 + (r / 4096) mod 64);
     z2b (0x80 + (r / 64) mod 64); z2b (0x80 + r mod 64)].

End utf8.

(** [[]rune(s)] *)
Definition runes (s : gostring) : list rune := map fst (utf8.decode s).

(** [string(rs)] for a rune slice, and [string(r)] for one rune. *)
Definition string_of_runes (rs : list rune) : gostring :=
  concat (map utf8.EncodeRune rs).

Definition len (s : gostring) : Z := Z.of_nat (length s).

(** ** Results of fallible code

    A Go function may return normally, return a non-nil [error], or
    abort with a run-time panic (a slice or index out of range). *)

(** Why [fmt.Sscanf] gave up. *)
Inductive scan_failure :=
| input_exhausted          (* the input ended before an operand: an EOF error *)
| unexpected_newline       (* "unexpected newline" *)
| expected_space           (* "expected space in input to match format" *)
| newline_in_input.        (* "newline in input does not match format" *)

Inductive error :=
| errors_New (msg : string)
| errors_Wrap (cause : error) (msg : string) (detail : gostring)
| errors_WithStack (cause : error)
| fmt_Errorf_entries (loaded declared : Z)
    (* "loaded entries (%d) != header entries (%d)" *)
| fmt_Errorf_status (status : gostring)          (* "bad status: %s" *)
| strconv_ErrSyntax (input : gostring)
| strconv_ErrRange (input : gostring)
| time_ParseError (value : gostring)
| fmt_scan_error (why : scan_failure)
| transport_error (msg : gostring).               (* net/http, gzip *)

Global Instance scan_failure_eq_dec : EqDecision scan_failure.
Proof. solve_decision. Defined.

Global Instance error_eq_dec : EqDecision error.
Proof. solve_decision. Defined.

Inductive outcome (A : Type) :=
| Ok (a : A)
| Err (e : error)
| Panic.
Arguments Ok {A} a.
Arguments Err {A} e.
Arguments Panic {A}.

Global Instance outcome_eq_dec `{EqDecision A} : EqDecision (outcome A).
Proof. solve_decision. Defined.

Global Instance result_ret : MRet outcome := fun A a => Ok a.
Global Instance result_bind : MBind outcome := fun A B k m =>
  match m with
  | Ok a => k a
  | Err e => Err e
  | Panic => Panic
  end.

(** ** The [strings] package, on bytes *)

Fixpoint drop_while {A} (f : A -> bool) (l : list A) : list A :=
  match l with
  | [] => []
  | x :: t => if f x then drop_while f t else l
  end.

Fixpoint take_while {A} (f : A -> bool) (l : list A) : list A :=
  match l with
  | [] => []
  | x :: t => if f x then x :: take_while f t else []
  end.

Definition byte_eqb (a b : byte) : bool := Ascii.eqb a b.
Definition string_eqb (a b : gostring) : bool := bool_decide (a = b).

(** [s[lo:hi]]: panics unless [0 <= lo <= hi <= len(s)]. *)
Definition slice {A} (s : list A) (lo hi : Z) : outcome (list A) :=
  if ((0 <=? lo) && (lo <=? hi) && (hi <=? Z.of_nat (length s)))%Z
  then Ok (take (Z.to_nat hi - Z.to_nat lo) (drop (Z.to_nat lo) s))
  else Panic.

(** [s[lo:]] *)
Definition slice_from {A} (s : list A) (lo : Z) : outcome (list A) :=
  slice s lo (Z.of_nat (length s)).

Fixpoint HasPrefix (s prefix : gostring) : bool :=
  match prefix, s with
  | [], _ => true
  | p :: ps, c :: cs => byte_eqb c p && HasPrefix cs ps
  | _ :: _, [] => false
  end.

(** [strings.Index]: the byte offset of the first occurrence, or -1. *)
Fixpoint Index (s substr : gostring) : Z :=
  if HasPrefix s substr then 0%Z
  else match s with
       | [] => (-1)%Z
       | _ :: t => let i := Index t substr in
                   if (i <? 0)%Z then (-1)%Z else (i + 1)%Z
       end.

Definition Contains (s substr : gostring) : bool := (0 <=? Index s substr)%Z.

(** [strings.IndexAny] for a set of ASCII bytes, the only use in the
    source ([toneNums]). *)
Fixpoint IndexAny (s chars : gostring) : Z :=
  match s with
  | [] => (-1)%Z
  | c :: t => if existsb (byte_eqb c) chars then 0%Z
              else let i := IndexAny t chars in
                   if (i <? 0)%Z then (-1)%Z else (i + 1)%Z
  end.

(** [strings.IndexRune] for a valid code point other than [RuneError]. *)
Definition IndexRune (s : gostring) (r : rune) : Z :=
  Index s (utf8.EncodeRune r).

(** [strings.Split] on a one-byte separator. *)
Fixpoint Split (s : gostring) (sep : byte) : list gostring :=
  match s with
  | [] => [[]]
  | c :: t =>
    if byte_eqb c sep then [] :: Split t sep
    else match Split t sep with
         | f :: fs => (c :: f) :: fs
         | [] => [[c]]
         end
  end.

Fixpoint Join (a : list gostring) (sep : gostring) : gostring :=
  match a with
  | [] => []
  | [x] => x
  | x :: rest => x ++ sep ++ Join rest sep
  end.

(** [strings.ReplaceAll] for a non-empty [old]: occurrences are replaced
    from the left and do not overlap.  [skip] counts the bytes of a
    match still to be passed over. *)
Fixpoint ReplaceAll_from (skip : nat) (s old new : gostring) : gostring :=
  match s with
  | [] => []
  | c :: t =>
    match skip with
    | S k => ReplaceAll_from k t old new
    | O => if HasPrefix s old then new ++ ReplaceAll_from (length old - 1) t old new
           else c :: ReplaceAll_from 0 t old new
    end
  end.

Definition ReplaceAll (s old new : gostring) : gostring :=
  ReplaceAll_from 0 s old new.

(** Go's [<] on strings: lexicographic on bytes. *)
Fixpoint string_ltb (a b : gostring) : bool :=
  match a, b with
  | _, [] => false
  | [], _ :: _ => true
  | x :: a', y :: b' =>
    if (b2z x <? b2z y)%Z then true
    else if (b2z y <? b2z x)%Z then false
    else string_ltb a' b'
  end.

(** ** [unicode.IsSpace]; [fmt]'s own [isSpace] table lists the same
    code points. *)
Definition IsSpace (r : rune) : bool :=
  (utf8.within 0x09 0x0D r || (r =? 0x20) || (r =? 0x85) || (r =? 0xA0)
   || (r =? 0x1680) || utf8.within 0x2000 0x200A r || utf8.within 0x2028 0x2029 r
   || (r =? 0x202F) || (r =? 0x205F) || (r =? 0x3000))%Z.

(** [strings.TrimSpace]: leading and trailing white-space code points
    are cut off; the bytes in between are returned as they are. *)
Definition TrimSpace (s : gostring) : gostring :=
  let sp := fun c : rune * gostring => IsSpace (fst c) in
  let cs := drop_while sp (utf8.decode s) in
  concat (map snd (rev (drop_while sp (rev cs)))).

(** ** [strconv.Atoi] (64-bit [int]) *)
Definition is_digit (b : byte) : bool := utf8.within 48 57 (b2z b).

Fixpoint digits_value (acc : Z) (s : gostring) : option Z :=
  match s with
  | [] => Some acc
  | c :: t => if is_digit c then digits_value (acc * 10 + (b2z c - 48))%Z t else None
  end.

Definition Atoi (s : gostring) : outcome Z :=
  let '(neg, body) :=
    match s with
    | c :: t => if byte_eqb c "-"%char then (true, t)
                else if byte_eqb c "+"%char then (false, t)
                else (false, s)
    | [] => (false, [])
    end in
  match body with
  | [] => Err (strconv_ErrSyntax s)
  | _ => match digits_value 0 body with
         | None => Err (strconv_ErrSyntax s)
         | Some n =>
           let v := if neg : bool then (- n)%Z else n in
           if ((- 2 ^ 63 <=? v) && (v <? 2 ^ 63))%Z then Ok v
           else Err (strconv_ErrRange s)
         end
  end.

(** ** [fmt.Sscanf(chars, "%s %s ", &trad, &sim)]

    The scanner reads code points.  A verb skips leading space and
    takes the run of non-space code points that follows; a space in the
    format matches a run of spaces or the end of the input.  A newline
    is never skipped. *)
Module fmt.
Local Open Scope Z_scope.

Fixpoint SkipSpace (input : list rune) : outcome (list rune) :=
  match input with
  | [] => Ok []
  | r :: t =>
    if (r =? 13) && match t with n :: _ => n =? 10 | [] => false end then SkipSpace t
    else if r =? 10 then Err (fmt_scan_error unexpected_newline)
    else if IsSpace r then SkipSpace t
    else Ok input
  end.

(** The verb [%s]: returns the word and the rest of the input. *)
Definition scan_string (input : list rune) : outcome (gostring * list rune) :=
  input ← SkipSpace input;
  match input with
  | [] => Err (fmt_scan_error input_exhausted)
  | _ => Ok (string_of_runes (take_while (fun r => negb (IsSpace r)) input),
             drop_while (fun r => negb (IsSpace r)) input)
  end.

(** A space in the format that follows no newline. *)
Definition format_space (input : list rune) : outcome (list rune) :=
  match input with
  | [] => Ok []
  | r :: _ =>
    if negb (IsSpace r) then Err (fmt_scan_error expected_space)
    else if r =? 10 then Err (fmt_scan_error newline_in_input)
    else Ok (drop_while (fun c => IsSpace c && negb (c =? 10)) input)
  end.

(** The operands filled so far, their count [n], and [err]. *)
Definition Sscanf_s_s (chars : gostring)
  : (Z * option error) * (gostring * gostring) :=
  match scan_string (runes chars) with
  | Ok (trad, rest) =>
    match (rest ← format_space rest; scan_string rest) with
    | Ok (sim, rest) =>
      match format_space rest with
      | Ok _ => ((2, None), (trad, sim))
      | Err e => ((2, Some e), (trad, sim))
      | Panic => ((2, None), (trad, sim))
      end
    | Err e => ((1, Some e), (trad, []))
    | Panic => ((1, None), (trad, []))
    end
  | Err e => ((0, Some e), ([], []))
  | Panic => ((0, None), ([], []))
  end.

End fmt.

(** ** [bufio.Scanner] with the default line splitter

    Lines end at a newline; one carriage return before it is dropped; a
    last line without newline is returned unless it is empty.  A line
    that does not fit the scanner's buffer ends the scan: [Scan] returns
    false, and [Parse] does not look at [scanner.Err()]. *)
Module bufio.

Definition MaxScanTokenSize : Z := 64 * 1024.

Definition raw_lines (text : gostring) : list gostring :=
  let parts := Split text "010"%char in
  match last parts with
  | Some [] => removelast parts
  | _ => parts
  end.

Definition dropCR (data : gostring) : gostring :=
  match last data with
  | Some c => if byte_eqb c "013"%char then removelast data else data
  | None => data
  end.

Definition ScanLines (text : gostring) : list gostring :=
  map dropCR
    (take_while (fun l => (len l <? MaxScanTokenSize)%Z) (raw_lines text)).

End bufio.


(** ** [time.Time]: the fields of an instant, as RFC 3339 writes it *)
Record Time := {
  year : Z; month : Z; day : Z;
  hour : Z; minute : Z; second : Z;
  fraction : gostring;
  offset_minutes : Z;
}.

(** The zero [time.Time]. *)
Definition time_zero : Time :=
  {| year := 1; month := 1; day := 1; hour := 0; minute := 0; second := 0;
     fraction := []; offset_minutes := 0 |}.

Global Instance Time_eq_dec : EqDecision Time.
Proof. solve_decision. Defined.

(** ** Library tables the program consults

    The case mappings, the script and category tables of [unicode], the
    normal forms of [golang.org/x/text/unicode/norm] and [time.Parse]
    are inputs of the model. *)
Class Lib := {
  time_Parse_RFC3339 : gostring -> option Time;
  unicode_ToLower : rune -> rune;
  unicode_ToUpper : rune -> rune;
  unicode_Han : rune -> bool;                      (* unicode.In(r, unicode.Han) *)
  unicode_IsDigit : rune -> bool;
  norm_NFD : list rune -> list rune;
  norm_NFC : list rune -> list rune;
}.

(** ** Constants *)
Definition LineEnding : gostring := ["013"%char; "010"%char].
Definition MaxResults : nat := 50.
Definition MaxLD : Z := 10.

(** ** Data model *)
Record Entry := {
  Traditional : gostring;
  Simplified : gostring;
  Pinyin : gostring;
  Meanings : list gostring;
}.

Global Instance Entry_eq_dec : EqDecision Entry.
Proof. solve_decision. Defined.

Record Metadata := {
  Version : Z;
  Subversion : Z;
  Format : gostring;
  Charset : gostring;
  Entries : Z;
  Publisher : gostring;
  License : gostring;
  Timestamp : Time;
}.

(** [ready] is true once the [ready] channel is closed.  A [*Entry] of
    [e] is its position in the list: [Parse] allocates every entry
    afresh, so the pointers of a dictionary are pairwise distinct. *)
Record Dict := {
  d_e : list Entry;
  d_md : Metadata;
  d_ready : bool;
  d_header : list gostring;
  d_err : option error;
}.

Definition md_zero : Metadata :=
  {| Version := 0; Subversion := 0; Format := []; Charset := []; Entries := 0;
     Publisher := []; License := []; Timestamp := time_zero |}.

Definition newDict : Dict :=
  {| d_e := []; d_md := md_zero; d_ready := false; d_header := []; d_err := None |}.

Definition isReady (d : Dict) : bool := d_ready d.

Definition setReady (d : Dict) : Dict :=
  if negb (isReady d)
  then {| d_e := d_e d; d_md := d_md d; d_ready := true;
          d_header := d_header d; d_err := d_err d |}
  else d.

Global Instance Metadata_eq_dec : EqDecision Metadata.
Proof. solve_decision. Defined.

Global Instance Dict_eq_dec : EqDecision Dict.
Proof. solve_decision. Defined.

Section Model.
Context `{L : Lib}.

(** ** [strings.ToLower], [strings.ToUpper]: a byte that is not valid
    UTF-8 comes out as U+FFFD. *)
Definition ToLower (s : gostring) : gostring :=
  string_of_runes (map unicode_ToLower (runes s)).

Definition ToUpper (s : gostring) : gostring :=
  string_of_runes (map unicode_ToUpper (runes s)).

(** ** Format codec *)

Definition Marshal (e : Entry) : gostring :=
  Traditional e ++ str " " ++ Simplified e ++ str " [" ++ Pinyin e ++ str "] "
  ++ (str "/" ++ Join (Meanings e) (str "/") ++ str "/").

Definition Unmarshal (s : gostring) : outcome Entry :=
  let fields := Split s "/"%char in
  let fields0 := hd [] fields in
  let off := Index fields0 (str "[") in
  let end_ := Index fields0 (str "]") in
  if ((off <? 0) || (end_ <? 0))%Z
  then Err (errors_New "expected '[pinyin]' format")
  else
    chars ← slice fields0 0 off;
    pinyin ← slice fields0 (off + 1) end_;
    let '((n, err), (trad, sim)) := fmt.Sscanf_s_s chars in
    match err with
    | Some err => Err (errors_WithStack err)
    | None =>
      if negb (n =? 2)%Z
      then Err (errors_New "expected two hanzi fields i.e. '龍豆 龙豆 '")
      else
        meanings ← slice fields 1 (Z.of_nat (length fields) - 1);
        Ok {| Traditional := trad; Simplified := sim;
              Pinyin := pinyin; Meanings := meanings |}
    end.

(** The state of the scanning loop of [Parse]. *)
Record parsing := {
  p_header : list gostring;
  p_md : Metadata;
  p_e : list Entry;
}.

Definition p_init : parsing := {| p_header := []; p_md := md_zero; p_e := [] |}.

Definition set_md (st : parsing) (md : Metadata) : parsing :=
  {| p_header := p_header st; p_md := md; p_e := p_e st |}.

(** The [switch k] of [Parse]. *)
Definition parse_metadata (k v : gostring) (md : Metadata) : outcome Metadata :=
  if string_eqb k (str "version") then
    match Atoi v with
    | Ok n => Ok {| Version := n; Subversion := Subversion md; Format := Format md;
                    Charset := Charset md; Entries := Entries md;
                    Publisher := Publisher md; License := License md;
                    Timestamp := Timestamp md |}
    | Err err => Err (errors_Wrap err "version: expected number" [])
    | Panic => Panic
    end
  else if string_eqb k (str "subversion") then
    match Atoi v with
    | Ok n => Ok {| Version := Version md; Subversion := n; Format := Format md;
                    Charset := Charset md; Entries := Entries md;
                    Publisher := Publisher md; License := License md;
                    Timestamp := Timestamp md |}
    | Err err => Err (errors_Wrap err "subversion: expected number" [])
    | Panic => Panic
    end
  else if string_eqb k (str "format") then
    Ok {| Version := Version md; Subversion := Subversion md; Format := v;
          Charset := Charset md; Entries := Entries md;
          Publisher := Publisher md; License := License md;
          Timestamp := Timestamp md |}
  else if string_eqb k (str "charset") then
    Ok {| Version := Version md; Subversion := Subversion md; Format := Format md;
          Charset := v; Entries := Entries md;
          Publisher := Publisher md; License := License md;
          Timestamp := Timestamp md |}
  else if string_eqb k (str "entries") then
    match Atoi v with
    | Ok n => Ok {| Version := Version md; Subversion := Subversion md;
                    Format := Format md; Charset := Charset md; Entries := n;
                    Publisher := Publisher md; License := License md;
                    Timestamp := Timestamp md |}
    | Err err => Err (errors_Wrap err "entries: expected number" [])
    | Panic => Panic
    end
  else if string_eqb k (str "publisher") then
    Ok {| Version := Version md; Subversion := Subversion md; Format := Format md;
          Charset := Charset md; Entries := Entries md;
          Publisher := v; License := License md;
          Timestamp := Timestamp md |}
  else if string_eqb k (str "license") then
    Ok {| Version := Version md; Subversion := Subversion md; Format := Format md;
          Charset := Charset md; Entries := Entries md;
          Publisher := Publisher md; License := v;
          Timestamp := Timestamp md |}
  else if string_eqb k (str "date") then
    match time_Parse_RFC3339 v with
    | Some t => Ok {| Version := Version md; Subversion := Subversion md;
                      Format := Format md; Charset := Charset md;
                      Entries := Entries md; Publisher := Publisher md;
                      License := License md; Timestamp := t |}
    | None => Err (errors_Wrap (time_ParseError v) "date: expected RFC3339 format" [])
    end
  else Ok md.

(** One turn of the scanning loop. *)
Definition parse_line (st : parsing) (line : gostring) : outcome parsing :=
  if HasPrefix line (str "#") then
    let st := {| p_header := p_header st ++ [line]; p_md := p_md st; p_e := p_e st |} in
    if HasPrefix line (str "#!") then
      let i := Index line (str "=") in
      v ← slice_from line (i + 1);
      k ← slice line 3 i;
      md ← parse_metadata k v (p_md st);
      Ok (set_md st md)
    else Ok st
  else
    match Unmarshal line with
    | Ok e => Ok {| p_header := p_header st; p_md := p_md st; p_e := p_e st ++ [e] |}
    | Err err => Err (errors_Wrap err "unmarshal: " line)
    | Panic => Panic
    end.

Fixpoint parse_lines (st : parsing) (lines : list gostring) : outcome parsing :=
  match lines with
  | [] => Ok st
  | line :: rest => st ← parse_line st line; parse_lines st rest
  end.

(** [Parse], on the whole text the reader delivers. *)
Definition Parse (text : gostring) : outcome Dict :=
  st ← parse_lines p_init (bufio.ScanLines text);
  if negb (Z.of_nat (length (p_e st)) =? Entries (p_md st))%Z
  then Err (fmt_Errorf_entries (Z.of_nat (length (p_e st))) (Entries (p_md st)))
  else Ok (setReady {| d_e := p_e st; d_md := p_md st; d_ready := false;
                       d_header := p_header st; d_err := None |}).

(** What [Save] writes, on a populated dictionary and a file that takes
    every write. *)
Definition Save (d : Dict) : gostring :=
  let n := length (d_header d) in
  concat (imap (fun i line => if negb (i =? n - 1) then line ++ LineEnding else line)
               (d_header d))
  ++ concat (map (fun e => LineEnding ++ Marshal e) (d_e d)).

(** ** Lazy population

    The network is an input: [net w k] is what the [k]-th call of
    [Download] meets, and [fetched w] counts the calls made. *)
Inductive response :=
| resp_error (e : error)
| resp_body (text : gostring).

Record World := {
  net : nat -> response;
  fetched : nat;
}.

Definition Download (w : World) : outcome gostring * World :=
  (match net w (fetched w) with
   | resp_error e => Err e
   | resp_body text => Ok text
   end,
   {| net := net w; fetched := S (fetched w) |}).

Definition set_err (d : Dict) (err : error) : Dict :=
  {| d_e := d_e d; d_md := d_md d; d_ready := d_ready d;
     d_header := d_header d; d_err := Some err |}.

(** [lazyLoad] runs under the mutex of [d], so calls do not interleave. *)
Definition lazyLoad (d : Dict) (w : World) : outcome (Dict * World) :=
  if negb (isReady d) then
    let '(r, w) := Download w in
    match r with
    | Err err => Ok (set_err d (errors_WithStack err), w)
    | Panic => Panic
    | Ok r =>
      match Parse r with
      | Err err => Ok (set_err d (errors_WithStack err), w)
      | Panic => Panic
      | Ok dict =>
        Ok (setReady {| d_e := d_e dict; d_md := d_md dict; d_ready := d_ready d;
                        d_header := d_header dict; d_err := d_err d |}, w)
      end
    end
  else Ok (d, w).

(** [Err] and [Metadata]: the value returned, with the dictionary and
    world after the call. *)
Definition Dict_Err (d : Dict) (w : World) : outcome (option error * (Dict * World)) :=
  dw ← lazyLoad d w; Ok (d_err (fst dw), dw).

Definition Dict_Metadata (d : Dict) (w : World) : outcome (Metadata * (Dict * World)) :=
  dw ← lazyLoad d w; Ok (d_md (fst dw), dw).

End Model.


(** ** Tables of the tone codec and of the transliteration *)

(** A rune literal ['x']. *)
Definition rune_of (s : string) : rune := hd RuneError (runes (str s)).

Definition vowels : gostring := str "AaEeiOouür".

Definition toneNums : gostring := str "12345".

Definition mapNumToTone : gmap rune (list rune) :=
  list_to_map [
    (rune_of "A", runes (str "ĀÁǍÀA"));
    (rune_of "a", runes (str "āáǎàa"));
    (rune_of "E", runes (str "ĒÉĚÈE"));
    (rune_of "e", runes (str "ēéěèe"));
    (rune_of "i", runes (str "īíǐìi"));
    (rune_of "O", runes (str "ŌÓǑÒO"));
    (rune_of "o", runes (str "ōóǒòo"));
    (rune_of "u", runes (str "ūúǔùu"));
    (rune_of "ü", runes (str "ǖǘǚǜü"));
    (rune_of "r", runes (str "rrrrr"))
  ].

Definition mapToneToNum : gmap rune gostring :=
  list_to_map [
    (rune_of "Ā", str "A1");
    (rune_of "Á", str "A2");
    (rune_of "Ǎ", str "A3");
    (rune_of "À", str "A4");
    (rune_of "ā", str "a1");
    (rune_of "á", str "a2");
    (rune_of "ǎ", str "a3");
    (rune_of "à", str "a4");
    (rune_of "Ē", str "E1");
    (rune_of "É", str "E2");
    (rune_of "Ě", str "E3");
    (rune_of "È", str "E4");
    (rune_of "ē", str "e1");
    (rune_of "é", str "e2");
    (rune_of "ě", str "e3");
    (rune_of "è", str "e4");
    (rune_of "ī", str "i1");
    (rune_of "í", str "i2");
    (rune_of "ǐ", str "i3");
    (rune_of "ì", str "i4");
    (rune_of "Ō", str "O1");
    (rune_of "Ó", str "O2");
    (rune_of "Ǒ", str "O3");
    (rune_of "Ò", str "O4");
    (rune_of "ō", str "o1");
    (rune_of "ó", str "o2");
    (rune_of "ǒ", str "o3");
    (rune_of "ò", str "o4");
    (rune_of "ū", str "u1");
    (rune_of "ú", str "u2");
    (rune_of "ǔ", str "u3");
    (rune_of "ù", str "u4");
    (rune_of "ü", str "u: ");
    (rune_of "ǖ", str "u:1");
    (rune_of "ǘ", str "u:2");
    (rune_of "ǚ", str "u:3");
    (rune_of "ǜ", str "u:4")
  ].

Definition symbols : gmap rune gostring :=
  list_to_map [
    (rune_of "？", str "?");
    (rune_of "！", str "!");
    (rune_of "：", str ":");
    (rune_of "。", str ".");
    (rune_of "・", str ".");
    (rune_of "，", str ",");
    (rune_of "；", str ";");
    (rune_of "（", str "(");
    (rune_of "）", str ")");
    (rune_of "【", str "[");
    (rune_of "】", str "]")
  ].


(** ** [sort.SliceStable]: equal elements keep their order.  The model
    is a stable insertion sort; every stable sort gives this list. *)
Fixpoint insert_stable {A} (less : A -> A -> bool) (x : A) (l : list A) : list A :=
  match l with
  | [] => [x]
  | y :: t => if less y x then y :: insert_stable less x t else x :: l
  end.

Definition SliceStable {A} (l : list A) (less : A -> A -> bool) : list A :=
  foldr (insert_stable less) [] l.

(** ** Levenshtein distance *)

(** [min] of the source, branch by branch. *)
Definition min3 (x y z : Z) : Z :=
  if (x <? y)%Z then (if (x <? z)%Z then x else z)
  else if (y <? z)%Z then y
  else z.

(** The body of the loop over [j]: the state is [ld], [prev], [curr]. *)
Definition lev_inner (s1 : list rune) (c : rune) (st : list Z * Z * Z) (j : nat)
  : list Z * Z * Z :=
  let '(ld, prev, curr) := st in
  let curr :=
    if (c =? s1 !!! (j - 1)%nat)%Z then ld !!! (j - 1)%nat
    else min3 (ld !!! (j - 1)%nat + 1) (prev + 1) (ld !!! j + 1) in
  (<[(j - 1)%nat := prev]> ld, curr, curr).

(** The body of the loop over [i]. *)
Definition lev_outer (s1 s2 : list rune) (ld : list Z) (i : nat) : list Z :=
  let '(ld, prev, _) :=
    fold_left (lev_inner s1 (s2 !!! (i - 1)%nat)) (seq 1 (length s1))
              (ld, Z.of_nat i, 0%Z) in
  <[length s1 := prev]> ld.

Definition levenshtein (src dst : gostring) : Z :=
  if string_eqb src dst then 0%Z
  else
    let s1 := runes src in
    let s2 := runes dst in
    let '(s1, s2) := if (len dst <? len src)%Z then (s2, s1) else (s1, s2) in
    let l1 := length s1 in
    let l2 := length s2 in
    let ld := map Z.of_nat (seq 0 (l1 + 1)) in
    let ld := fold_left (lev_outer s1 s2) (seq 1 l2) ld in
    ld !!! l1.

(** ** Tone codec *)

(** The loop over the code points of one word in [PinyinToneNums]. *)
Definition toneNums_rune (st : gostring * gostring) (r : rune) : gostring * gostring :=
  let '(result, tone) := st in
  let m := default [] (mapToneToNum !! r) in
  match m with
  | [] => (result ++ string_of_runes [r], tone)
  | _ => (result ++ take (length m - 1) m, TrimSpace (drop (length m - 1) m))
  end.

Definition toneNums_word (result w : gostring) : gostring :=
  let '(result, tone) := fold_left toneNums_rune (runes w) (result, []) in
  result ++ tone ++ str " ".

Definition PinyinToneNums (s : gostring) : gostring :=
  TrimSpace (fold_left toneNums_word (Split s " "%char) []).

Fixpoint guessToneIndex_in (vs : list rune) (s : gostring) : Z :=
  match vs with
  | [] => (-1)%Z
  | r :: vs =>
    let byteIndex := IndexRune s r in
    if (0 <=? byteIndex)%Z
    then Z.of_nat (length (runes (take (Z.to_nat byteIndex) s)))
    else guessToneIndex_in vs s
  end.

Definition guessToneIndex (s : gostring) : Z := guessToneIndex_in (runes vowels) s.

(** [a[i]]: panics when out of range. *)
Definition index {A} (a : list A) (i : Z) : outcome A :=
  if (0 <=? i)%Z then
    match a !! Z.to_nat i with
    | Some x => Ok x
    | None => Panic
    end
  else Panic.

(** One turn of the loop of [PinyinTones]: what is appended to [result]. *)
Definition tones_word (w : gostring) : outcome gostring :=
  let i := guessToneIndex w in
  if (i <? 0)%Z then Ok (w ++ str " ")
  else
    let numIndex := IndexAny w toneNums in
    if (numIndex <? 0)%Z then Ok (w ++ str " ")
    else
      b ← index w numIndex;
      let tone := match Atoi (string_of_runes [b2z b]) with
                  | Ok n => n
                  | _ => 0%Z
                  end in
      let tone := (tone - 1)%Z in
      if ((tone <? 0) || (Z.of_nat (size mapNumToTone) <=? tone))%Z
      then Ok (w ++ str " ")
      else
        w1 ← slice w 0 numIndex;
        w2 ← slice_from w (numIndex + 1);
        let w := w1 ++ w2 in
        let rs := runes w in
        k ← index rs i;
        pre ← slice rs 0 i;
        t ← index (default [] (mapNumToTone !! k)) tone;
        post ← slice_from rs (i + 1);
        Ok (string_of_runes pre ++ string_of_runes [t]
            ++ string_of_runes post ++ str " ").

Fixpoint tones_words (result : gostring) (ws : list gostring) : outcome gostring :=
  match ws with
  | [] => Ok result
  | w :: ws => piece ← tones_word w; tones_words (result ++ piece) ws
  end.

Definition PinyinTones (s : gostring) : outcome gostring :=
  let s := ReplaceAll s (str "u:") (str "ü") in
  result ← tones_words [] (Split s " "%char);
  Ok (TrimSpace result).

Definition FixSymbolSpaces (s : gostring) : gostring :=
  let s := ReplaceAll s (str " ?") (str "?") in
  let s := ReplaceAll s (str " .") (str ".") in
  let s := ReplaceAll s (str " !") (str "!") in
  let s := ReplaceAll s (str " :") (str ":") in
  let s := ReplaceAll s (str " ;") (str ";") in
  let s := ReplaceAll s (str " ,") (str ",") in
  let s := ReplaceAll s (str "[ ") (str "[") in
  let s := ReplaceAll s (str " ]") (str "]") in
  let s := ReplaceAll s (str "( ") (str "(") in
  let s := ReplaceAll s (str " )") (str ")") in
  s.

Definition ConvertSymbols (s : gostring) : gostring :=
  fold_left (fun result r =>
               match symbols !! r with
               | Some sym => result ++ sym
               | None => result ++ string_of_runes [r]
               end) (runes s) [].

Section Lookup.
Context `{L : Lib}.

Definition IsHanzi (s : gostring) : bool :=
  forallb (fun r => unicode_Han r || bool_decide (is_Some (symbols !! r))) (runes s).

Definition StripDigits (s : gostring) : gostring :=
  string_of_runes
    (norm_NFC (filter (fun r => unicode_IsDigit r = false) (norm_NFD (runes s)))).

(** The lookups below are the bodies of the [Dict] methods after
    [lazyLoad] has returned, on the populated dictionary. *)

(** A [*Entry] of the dictionary: its position, with the entry it points to. *)
Definition pointers (d : Dict) : list (nat * Entry) := imap (fun i e => (i, e)) (d_e d).

Definition GetByHanzi (d : Dict) (s : gostring) : option Entry :=
  let s := TrimSpace s in
  find (fun e => string_eqb (Traditional e) s || string_eqb (Simplified e) s) (d_e d).

Definition GetAllByHanzi (d : Dict) (s : gostring) : list Entry :=
  let s := TrimSpace s in
  List.filter (fun e => string_eqb (Traditional e) s || string_eqb (Simplified e) s)
              (d_e d).

Definition pinyin_matches (isPlaintext : bool) (s : gostring) (e : Entry) : bool :=
  let p := ToLower (Pinyin e) in
  let p := ReplaceAll p (str " ") [] in
  let p := if isPlaintext then StripDigits p else p in
  string_eqb p s.

Definition GetByPinyin (d : Dict) (s : gostring) : list (nat * Entry) :=
  let s := PinyinToneNums s in
  let isPlaintext := (IndexAny s toneNums <? 0)%Z in
  let s := ToLower s in
  let s := ReplaceAll s (str " ") [] in
  let results := List.filter (fun pe => pinyin_matches isPlaintext s (snd pe))
                             (pointers d) in
  SliceStable results (fun a b => string_ltb (Pinyin (snd a)) (Pinyin (snd b))).

(** The loop over the meanings of one entry: the distance recorded for
    the entry, if the loop reaches [continue nextEntry]. *)
Fixpoint meaning_distance (s : gostring) (ms : list gostring) : option Z :=
  match ms with
  | [] => None
  | m :: ms =>
    let m := ToLower m in
    if Contains s m then
      let ld := levenshtein s m in
      if (ld <=? MaxLD)%Z then Some ld else meaning_distance s ms
    else meaning_distance s ms
  end.

(** The loop over the entries: [results] and the map [lev]. *)
Definition meaning_scan (s : gostring) (st : list (nat * Entry) * gmap nat Z)
  (pe : nat * Entry) : list (nat * Entry) * gmap nat Z :=
  let '(results, lev) := st in
  match meaning_distance s (Meanings (snd pe)) with
  | Some ld => (results ++ [pe], <[fst pe := ld]> lev)
  | None => (results, lev)
  end.

Definition GetByMeaning (d : Dict) (s : gostring) : list (nat * Entry) :=
  let s := ToLower s in
  let '(results, lev) := fold_left (meaning_scan s) (pointers d) ([], ∅) in
  let results :=
    SliceStable results
      (fun a b => (default 0 (lev !! fst a) <? default 0 (lev !! fst b))%Z) in
  if MaxResults <? length results then take MaxResults results else results.

(** ** Transliteration *)

(** The loop over [j]: the longest [runes[i:j]] the dictionary knows,
    [k] being [j - i]. *)
Fixpoint longest_match (lookup : gostring -> option Entry) (rest : list rune) (k : nat)
  : option (Entry * nat) :=
  match k with
  | O => None
  | S k' =>
    match lookup (string_of_runes (take k rest)) with
    | Some e => Some (e, k)
    | None => longest_match lookup rest k'
    end
  end.

(** The loop over [i], on the code points from [i] on.  Every turn
    passes over at least one code point; [fuel] bounds the turns. *)
Fixpoint segment (lookup : gostring -> option Entry) (fuel : nat)
  (rest : list rune) (p : gostring) : option gostring :=
  match rest with
  | [] => Some p
  | r :: _ =>
    match fuel with
    | O => None
    | S fuel =>
      if negb (unicode_Han r) then
        let other := fun r => negb (unicode_Han r) in
        segment lookup fuel (drop_while other rest)
                (p ++ string_of_runes (take_while other rest) ++ str " ")
      else
        match longest_match lookup rest (length rest) with
        | Some (e, k) => segment lookup fuel (drop k rest) (p ++ Pinyin e ++ str " ")
        | None => segment lookup fuel (drop 1 rest) (p ++ string_of_runes [r])
        end
    end
  end.

Definition HanziToPinyin_with (lookup : gostring -> option Entry) (s : gostring)
  : outcome gostring :=
  let s := TrimSpace s in
  if (len s =? 0)%Z then Ok []
  else
    let s := ConvertSymbols s in
    let rs := runes s in
    match segment lookup (length rs) rs [] with
    | None => Panic
    | Some p =>
      p0 ← slice p 0 1;
      p1 ← slice_from p 1;
      Ok (ToUpper p0 ++ ToLower (TrimSpace p1))
    end.

Definition HanziToPinyin (d : Dict) (s : gostring) : outcome gostring :=
  HanziToPinyin_with (GetByHanzi d) s.

End Lookup.


(** ** A concrete library, for running the model

    The tables of [unicode] are cut down to the blocks a pinyin or
    CC-CEDICT text uses: the case ranges of U+0000–U+017F and
    U+01CD–U+01DC, the Han script ranges, the decimal digits of a few
    scripts, and the canonical (de)composition of the pinyin vowels.
    Code points outside these tables are caseless, not Han, no digit
    and their own normal form.  [time.Parse] accepts the RFC 3339
    grammar with range checks on every field. *)
Module golib.
Local Open Scope Z_scope.

(** [unicode.CaseRanges]: [(lo, hi, upper delta, lower delta)]; [None]
    stands for [UpperLower], an alternating run that starts with an
    upper-case letter. *)
Definition CaseRanges : list (Z * Z * option (Z * Z)) := [
  (0x0041, 0x005A, Some (0, 32));
  (0x0061, 0x007A, Some (-32, 0));
  (0x00B5, 0x00B5, Some (743, 0));
  (0x00C0, 0x00D6, Some (0, 32));
  (0x00D8, 0x00DE, Some (0, 32));
  (0x00E0, 0x00F6, Some (-32, 0));
  (0x00F8, 0x00FE, Some (-32, 0));
  (0x00FF, 0x00FF, Some (121, 0));
  (0x0100, 0x012F, None);
  (0x0130, 0x0130, Some (0, -199));
  (0x0131, 0x0131, Some (-232, 0));
  (0x0132, 0x0137, None);
  (0x0139, 0x0148, None);
  (0x014A, 0x0177, None);
  (0x0178, 0x0178, Some (0, -121));
  (0x0179, 0x017E, None);
  (0x017F, 0x017F, Some (-300, 0));
  (0x01CD, 0x01DC, None)
].

(** [unicode.To]: [lower] selects the lower-case mapping. *)
Fixpoint to (lower : bool) (r : rune) (ranges : list (Z * Z * option (Z * Z))) : rune :=
  match ranges with
  | [] => r
  | (lo, hi, delta) :: rest =>
    if (lo <=? r) && (r <=? hi) then
      match delta with
      | Some (up, low) => r + (if lower then low else up)
      | None => lo + ((r - lo) / 2 * 2 + (if lower then 1 else 0))
      end
    else to lower r rest
  end.

Definition ToLower (r : rune) : rune := to true r CaseRanges.
Definition ToUpper (r : rune) : rune := to false r CaseRanges.

Definition in_ranges (ranges : list (Z * Z)) (r : rune) : bool :=
  existsb (fun '(lo, hi) => (lo <=? r) && (r <=? hi)) ranges.

Definition Han : list (Z * Z) := [
  (0x2E80, 0x2E99); (0x2E9B, 0x2EF3); (0x2F00, 0x2FD5); (0x3005, 0x3005);
  (0x3007, 0x3007); (0x3021, 0x3029); (0x3038, 0x303B); (0x3400, 0x4DBF);
  (0x4E00, 0x9FFC); (0xF900, 0xFA6D); (0xFA70, 0xFAD9); (0x16FF0, 0x16FF1);
  (0x20000, 0x2A6DD); (0x2A700, 0x2B734); (0x2B740, 0x2B81D);
  (0x2B820, 0x2CEA1); (0x2CEB0, 0x2EBE0); (0x2F800, 0x2FA1D);
  (0x30000, 0x3134A)
].

Definition Digit : list (Z * Z) := [
  (0x0030, 0x0039); (0x0660, 0x0669); (0x06F0, 0x06F9); (0x0966, 0x096F);
  (0xFF10, 0xFF19)
].

(** Canonical decompositions: a base letter and its forms under the
    macron, acute, caron and grave accents; [ü] is [u] with a diaeresis. *)
Definition marks : list rune := [0x0304; 0x0301; 0x030C; 0x0300].
Definition diaeresis : rune := 0x0308.

Definition accented : list (rune * list rune) := [
  (rune_of "A", runes (str "ĀÁǍÀ")); (rune_of "a", runes (str "āáǎà"));
  (rune_of "E", runes (str "ĒÉĚÈ")); (rune_of "e", runes (str "ēéěè"));
  (rune_of "I", runes (str "ĪÍǏÌ")); (rune_of "i", runes (str "īíǐì"));
  (rune_of "O", runes (str "ŌÓǑÒ")); (rune_of "o", runes (str "ōóǒò"));
  (rune_of "U", runes (str "ŪÚǓÙ")); (rune_of "u", runes (str "ūúǔù"));
  (rune_of "Ü", runes (str "ǕǗǙǛ")); (rune_of "ü", runes (str "ǖǘǚǜ"))
].

(** The pairs [(composite, (first, second))]. *)
Definition decompositions : list (rune * (rune * rune)) :=
  [(rune_of "Ü", (rune_of "U", diaeresis)); (rune_of "ü", (rune_of "u", diaeresis))]
  ++ concat (map (fun '(base, forms) =>
                    map (fun '(form, mark) => (form, (base, mark))) (zip forms marks))
                 accented).

Definition decompose1 (r : rune) : option (rune * rune) :=
  snd <$> find (fun p => fst p =? r) decompositions.

Definition compose1 (a b : rune) : option rune :=
  fst <$> find (fun p => (fst (snd p) =? a) && (snd (snd p) =? b)) decompositions.

Definition NFD_rune (r : rune) : list rune :=
  match decompose1 r with
  | None => [r]
  | Some (a, m) =>
    match decompose1 a with
    | None => [a; m]
    | Some (a', m') => [a'; m'; m]
    end
  end.

Definition NFD (rs : list rune) : list rune := concat (map NFD_rune rs).

Definition is_mark (r : rune) : bool :=
  (r =? diaeresis) || existsb (Z.eqb r) marks.

(** Composition: [cur] is the last starter, as composed so far,
    [pending] the marks after it that did not compose; a mark behind a
    pending mark is blocked. *)
Fixpoint compose (cur : option rune) (pending : list rune) (rs : list rune)
  : list rune :=
  let flush := match cur with Some c => c :: pending | None => pending end in
  match rs with
  | [] => flush
  | r :: rest =>
    if is_mark r then
      match cur, pending with
      | Some c, [] =>
        match compose1 c r with
        | Some c' => compose (Some c') [] rest
        | None => compose cur [r] rest
        end
      | _, _ => compose cur (pending ++ [r]) rest
      end
    else flush ++ compose (Some r) [] rest
  end.

Definition NFC (rs : list rune) : list rune := compose None [] (NFD rs).

(** [time.Parse(time.RFC3339, v)] *)

Definition digits (n : nat) (s : gostring) : option (Z * gostring) :=
  if (n <=? length s)%nat then
    match digits_value 0 (take n s) with
    | Some v => Some (v, drop n s)
    | None => None
    end
  else None.

Definition expect (c : byte) (s : gostring) : option gostring :=
  match s with
  | x :: t => if byte_eqb x c then Some t else None
  | [] => None
  end.

Definition leap (y : Z) : bool :=
  (y mod 4 =? 0) && (negb (y mod 100 =? 0) || (y mod 400 =? 0)).

Definition daysIn (m y : Z) : Z :=
  if m =? 2 then (if leap y then 29 else 28)
  else if (m =? 4) || (m =? 6) || (m =? 9) || (m =? 11) then 30
  else 31.

Definition zone (s : gostring) : option Z :=
  match s with
  | c :: t =>
    if byte_eqb c "Z"%char then (match t with [] => Some 0 | _ => None end)
    else if byte_eqb c "+"%char || byte_eqb c "-"%char then
      '(hh, t) ← digits 2 t;
      t ← expect ":"%char t;
      '(mm, t) ← digits 2 t;
      match t with
      | [] => if (hh <=? 23) && (mm <=? 59)
              then Some ((if byte_eqb c "-"%char then -1 else 1) * (hh * 60 + mm))
              else None
      | _ => None
      end
    else None
  | [] => None
  end.

Definition Parse_RFC3339 (v : gostring) : option Time :=
  '(y, s) ← digits 4 v;
  s ← expect "-"%char s;
  '(mo, s) ← digits 2 s;
  s ← expect "-"%char s;
  '(d, s) ← digits 2 s;
  s ← expect "T"%char s;
  '(h, s) ← digits 2 s;
  s ← expect ":"%char s;
  '(mi, s) ← digits 2 s;
  s ← expect ":"%char s;
  '(sec, s) ← digits 2 s;
  let '(frac, s) :=
    match s with
    | c :: t => if byte_eqb c "."%char && negb (bool_decide (take_while is_digit t = []))
                then (take_while is_digit t, drop_while is_digit t)
                else ([], s)
    | [] => ([], s)
    end in
  off ← zone s;
  if (1 <=? mo) && (mo <=? 12) && (1 <=? d) && (d <=? daysIn mo y)
     && (h <=? 23) && (mi <=? 59) && (sec <=? 59)
  then Some {| year := y; month := mo; day := d; hour := h; minute := mi;
               second := sec; fraction := frac; offset_minutes := off |}
  else None.

End golib.

Global Instance golib_Lib : Lib := {|
  time_Parse_RFC3339 := golib.Parse_RFC3339;
  unicode_ToLower := golib.ToLower;
  unicode_ToUpper := golib.ToUpper;
  unicode_Han := golib.in_ranges golib.Han;
  unicode_IsDigit := golib.in_ranges golib.Digit;
  norm_NFD := golib.NFD;
  norm_NFC := golib.NFC;
|}.


(** ** Vocabulary of the statements *)

(** The world after one more download. *)
Definition next (w : World) : World := {| net := net w; fetched := S (fetched w) |}.

(** A network whose first answer is an error and whose later answers
    are an empty dictionary text. *)
Definition flaky : World :=
  {| net := fun k => match k with
                     | O => resp_error (fmt_Errorf_status (str "503 Service Unavailable"))
                     | S _ => resp_body []
                     end;
     fetched := 0 |}.

Definition is_comment (line : gostring) : bool := HasPrefix line (str "#").

(** The text of [TestMetadata], without its date line. *)
Definition metadata_text : gostring :=
  Join [str "# CC-CEDICT"; str "#! version=123"; str "#! entries=4";
        str "% % [pa1] /percent (Tw)/";
        str "21三體綜合症 21三体综合症 [er4 shi2 yi1 san1 ti3 zong1 he2 zheng4] /trisomy/Down's syndrome/";
        str "3C 3C [san1 C] /abbr. for computers, communications, and consumer electronics/China Compulsory Certificate (CCC)/";
        str "3P 3P [san1 P] /(slang) threesome/"] ["010"%char].

Definition metadata_state : parsing :=
  match parse_lines p_init (bufio.ScanLines metadata_text) with
  | Ok st => st
  | _ => p_init
  end.

(** Comparison through a key, and the order a sort by it leaves. *)
Definition less_by {A K} (key : A -> K) (ltb : K -> K -> bool) (a b : A) : bool :=
  ltb (key a) (key b).

Definition le_by {A K} (key : A -> K) (ltb : K -> K -> bool) (a b : A) : Prop :=
  ltb (key b) (key a) = false.

(** ** Edit scripts

    [edit s t n]: [t] is obtained from [s] by a script of [n] single
    deletions, insertions and substitutions.  The distance of [s] and
    [t] is the cost of a cheapest script. *)
Inductive edit {A : Type} : list A -> list A -> nat -> Prop :=
| edit_nil : edit [] [] 0
| edit_keep a s t n : edit s t n -> edit (a :: s) (a :: t) n
| edit_subst a b s t n : edit s t n -> edit (a :: s) (b :: t) (S n)
| edit_delete a s t n : edit s t n -> edit (a :: s) t (S n)
| edit_insert b s t n : edit s t n -> edit s (b :: t) (S n).

Definition distance {A : Type} (s t : list A) (d : nat) : Prop :=
  edit s t d /\ forall n, edit s t n -> (d <= n)%nat.

(** The recurrence of the dynamic programme, on lists. *)
Fixpoint lev_spec (s t : list rune) : nat :=
  match s with
  | [] => length t
  | a :: s' =>
    (fix inner (t : list rune) : nat :=
       match t with
       | [] => length s
       | b :: t' =>
         if (a =? b)%Z then lev_spec s' t'
         else S (Nat.min (lev_spec s' t') (Nat.min (inner t') (lev_spec s' t)))
       end) t
  end.

(** [lev_cell s1 s2 i j]: the distance of the first [i] code points of
    [s2] and the first [j] of [s1], the cell of the full table that the
    single row of the source holds at some time. *)
Definition lev_cell (s1 s2 : list rune) (i j : nat) : nat :=
  lev_spec (rev (take i s2)) (rev (take j s1)).

(** The invariant of the loop over [j], in row [i]: the cells before
    [j - 1] hold the new row, the others still the old one, and [prev]
    is the new cell [j - 1]. *)
Definition inner_inv (s1 s2 : list rune) (i j : nat) (st : list Z * Z * Z) : Prop :=
  let '(ld, prev, _) := st in
  length ld = S (length s1)
  /\ prev = Z.of_nat (lev_cell s1 s2 i (j - 1))
  /\ forall k, (k <= length s1)%nat ->
       ld !!! k = Z.of_nat (if (k <? j - 1)%nat then lev_cell s1 s2 i k
                            else lev_cell s1 s2 (i - 1) k).

(** The invariant of the loop over [i]: [ld] is row [i]. *)
Definition row (s1 s2 : list rune) (i : nat) (ld : list Z) : Prop :=
  length ld = S (length s1)
  /\ forall k, (k <= length s1)%nat -> ld !!! k = Z.of_nat (lev_cell s1 s2 i k).

Section Vocabulary.
Context `{L : Lib}.

(** A meaning [m] can stand for its entry under the lowercased query
    [s]: it is a substring of [s] within the distance bound. *)
Definition qualifies (s m : gostring) : Prop :=
  Contains s (ToLower m) = true /\ (levenshtein s (ToLower m) <= MaxLD)%Z.

(** The distance [GetByMeaning] records for an entry, if any. *)
Definition entry_distance (s : gostring) (pe : nat * Entry) : option Z :=
  meaning_distance s (Meanings (snd pe)).

End Vocabulary.

(** An entry whose first meaning is a substring of the query but too
    far from it, and whose second meaning is the query itself. *)
Definition letter_then_phrase : Dict :=
  {| d_e := [{| Traditional := str "中文"; Simplified := str "中文";
                Pinyin := str "Zhong1 wen2";
                Meanings := [str "e"; str "Chinese language"] |}];
     d_md := md_zero; d_ready := true; d_header := []; d_err := None |}.


(** A code point with the bytes it was decoded from: the code point is
    a Unicode scalar value; an ASCII code point is its own byte, and the
    bytes of any other are all above the ASCII range. *)
Definition chunk (r : rune) (bs : gostring) : Prop :=
  utf8.ValidRune r = true
  /\ bs <> []
  /\ ((r < 0x80)%Z -> exists b, bs = [b] /\ r = b2z b)
  /\ ((0x80 <= r)%Z -> Forall (fun b => (0x80 <= b2z b)%Z) bs).

(** What [[]rune(string(r))] gives back. *)
Definition scalar (r : rune) : rune := if utf8.ValidRune r then r else RuneError.

(** ** Words

    The pieces of a text between separators, and its words: the
    non-empty pieces between white space. *)
Fixpoint split_runs (sep : rune -> bool) (rs : list rune) : list (list rune) :=
  match rs with
  | [] => [[]]
  | r :: t =>
    if sep r then [] :: split_runs sep t
    else match split_runs sep t with
         | f :: fs => (r :: f) :: fs
         | [] => [[r]]
         end
  end.

Definition whitespace_tokens (rs : list rune) : list (list rune) :=
  List.filter (fun w => negb (bool_decide (w = []))) (split_runs IsSpace rs).

Definition LF : byte := "010"%char.
Definition CR : byte := "013"%char.

(** ** Well-formed dictionary text

    The wire format: a hanzi field is a non-empty run of valid UTF-8
    without white space, bracket or slash; the pinyin has no closing
    bracket and no slash; there is at least one meaning, and a meaning
    has no slash.  An entry line is what [Marshal] prints for such an
    entry. *)
Definition word (w : gostring) : Prop :=
  w <> [] /\ string_of_runes (runes w) = w
  /\ Forall (fun r => IsSpace r = false) (runes w)
  /\ ~ In "["%char w /\ ~ In "]"%char w /\ ~ In "/"%char w.

Definition wf_entry (e : Entry) : Prop :=
  word (Traditional e) /\ word (Simplified e)
  /\ ~ In "]"%char (Pinyin e) /\ ~ In "/"%char (Pinyin e)
  /\ Meanings e <> [] /\ Forall (fun m => ~ In "/"%char m) (Meanings e).

(** A line of a well-formed text carries no stray carriage return,
    fits the scanner's buffer together with its line terminator, and is
    a comment or an entry line. *)
Definition wf_line (l : gostring) : Prop :=
  ~ In CR l /\ (len l + 1 < bufio.MaxScanTokenSize)%Z
  /\ (is_comment l = true \/ exists e, wf_entry e /\ l = Marshal e).

Definition WellFormed (text : gostring) : Prop :=
  Forall wf_line (bufio.ScanLines text).

(** A dictionary whose only entry carries the tone digit 6. *)
Definition tone6_dict : Dict :=
  {| d_e := [{| Traditional := str "中"; Simplified := str "中";
                Pinyin := str "zhong6"; Meanings := [str "middle"] |}];
     d_md := md_zero; d_ready := true; d_header := []; d_err := None |}.

(** The words of the sentence 我的大王！, with a longer and a later
    entry that the greedy match must leave aside. *)
Definition wang_dict : Dict :=
  {| d_e := [{| Traditional := str "我"; Simplified := str "我";
                Pinyin := str "wo3"; Meanings := [str "I"; str "me"; str "my"] |};
             {| Traditional := str "的"; Simplified := str "的";
                Pinyin := str "de5"; Meanings := [str "of"] |};
             {| Traditional := str "大"; Simplified := str "大";
                Pinyin := str "da4"; Meanings := [str "big"] |};
             {| Traditional := str "大王"; Simplified := str "大王";
                Pinyin := str "da4 wang2"; Meanings := [str "king"] |};
             {| Traditional := str "大王"; Simplified := str "大王";
                Pinyin := str "dai4 wang5"; Meanings := [str "robber baron"] |}];
     d_md := md_zero; d_ready := true; d_header := []; d_err := None |}.

(** The keys longer than the word found, at each position the greedy
    match of [HanziToPinyin] probes in 我的大王!. *)
Definition longer_keys : list gostring :=
  [str "我的大王!"; str "我的大王"; str "我的大"; str "我的";
   str "的大王!"; str "的大王"; str "的大"; str "大王!"].

(** ** Numbered pinyin syllables

    The letters that take a tone mark of their own, and the bytes a
    syllable is written with before its tone digit: ASCII, no white
    space, none of the tone digits, and no colon (which after [u]
    would spell [ü]). *)
Definition tone_vowel (b : byte) : bool := existsb (byte_eqb b) (str "AaEeiOou").

Definition body_byte (b : byte) : bool :=
  (b2z b <? RuneSelf)%Z && negb (IsSpace (b2z b))
  && negb (existsb (byte_eqb b) toneNums) && negb (byte_eqb b ":"%char).

(** ** The methods of [Dict], with the barrier in front

    Every method first calls [lazyLoad] and then reads the dictionary
    that call has left; the value is returned with the dictionary and
    the world after the call. *)
Section Methods.
Context `{L : Lib}.

Definition Dict_GetByHanzi (d : Dict) (w : World) (s : gostring)
  : outcome (option Entry * (Dict * World)) :=
  dw ← lazyLoad d w; Ok (GetByHanzi (fst dw) s, dw).

Definition Dict_GetAllByHanzi (d : Dict) (w : World) (s : gostring)
  : outcome (list Entry * (Dict * World)) :=
  dw ← lazyLoad d w; Ok (GetAllByHanzi (fst dw) s, dw).

Definition Dict_GetByPinyin (d : Dict) (w : World) (s : gostring)
  : outcome (list (nat * Entry) * (Dict * World)) :=
  dw ← lazyLoad d w; Ok (GetByPinyin (fst dw) s, dw).

Definition Dict_GetByMeaning (d : Dict) (w : World) (s : gostring)
  : outcome (list (nat * Entry) * (Dict * World)) :=
  dw ← lazyLoad d w; Ok (GetByMeaning (fst dw) s, dw).

End Methods.

(** A numbered syllable: a body with a vowel, and one tone digit 1 to 4
    at its end. *)
Definition syllable (w : gostring) : Prop :=
  exists body d,
    w = body ++ [d]
    /\ Forall (fun b => body_byte b = true) body
    /\ Exists (fun b => tone_vowel b = true) body
    /\ In d (str "1234").

(** * Properties *)

(** ** The model runs the repository's own test vectors *)

Example runes_zhongwen :
  runes (str "中文") = [0x4E2D; 0x6587]%Z.
Proof. reflexivity. Qed.

Example string_of_runes_zhongwen :
  string_of_runes [0x4E2D; 0x6587]%Z = str "中文".
Proof. reflexivity. Qed.

(** [TestEntry] *)
Example Unmarshal_zhong :
  Unmarshal (str "中 中 [Zhong1] /China/Chinese/surname Zhong/")
  = Ok {| Traditional := str "中"; Simplified := str "中"; Pinyin := str "Zhong1";
          Meanings := [str "China"; str "Chinese"; str "surname Zhong"] |}.
Proof. vm_compute. reflexivity. Qed.

(** [TestLoadInvalid] *)
Example Parse_bad_version :
  Parse (str "#! version=" ++ ["010"%char])
  = Err (errors_Wrap (strconv_ErrSyntax []) "version: expected number" []).
Proof. vm_compute. reflexivity. Qed.

Example Parse_no_closing_bracket :
  exists err, Parse (str "% % [pa1 /percent (Tw)/" ++ ["010"%char])
              = Err (errors_Wrap err "unmarshal: " (str "% % [pa1 /percent (Tw)/")).
Proof. eexists. vm_compute. reflexivity. Qed.

(** [TestPinyin] *)
Example PinyinTones_inline :
  PinyinTones (str "Zho1ng we2n") = Ok (str "Zhōng wén").
Proof. vm_compute. reflexivity. Qed.

Example PinyinToneNums_umlaut :
  PinyinToneNums (str "üz zǖz zü") = str "u:z zu:z1 zu:".
Proof. vm_compute. reflexivity. Qed.

(** ** Lazy population *)

Section Lazy.
Context `{L : Lib}.

Lemma lazyLoad_ready d w : isReady d = true -> lazyLoad d w = Ok (d, w).
Proof. unfold lazyLoad. intros ->. reflexivity. Qed.

Lemma lazyLoad_download_fails d w err :
  isReady d = false -> net w (fetched w) = resp_error err ->
  lazyLoad d w = Ok (set_err d (errors_WithStack err), next w).
Proof. unfold lazyLoad, Download. intros -> ->. reflexivity. Qed.


Lemma lazyLoad_populates d w text dict :
  isReady d = false -> net w (fetched w) = resp_body text -> Parse text = Ok dict ->
  lazyLoad d w
  = Ok ({| d_e := d_e dict; d_md := d_md dict; d_ready := true;
           d_header := d_header dict; d_err := d_err d |}, next w).
Proof.
  unfold lazyLoad, Download. intros Hd -> ->. rewrite Hd. cbn.
  unfold setReady, isReady in *. cbn. rewrite Hd. reflexivity.
Qed.


End Lazy.


(** ** Parse: the entry count, and the lines the code slices blindly *)

Section ParseFacts.
Context `{L : Lib}.

Lemma parse_line_entries st line st' :
  parse_line st line = Ok st' ->
  length (p_e st') = (length (p_e st) + if is_comment line then 0 else 1)%nat.
Proof.
  unfold parse_line, is_comment. destruct (HasPrefix line (str "#")).
  - destruct (HasPrefix line (str "#!")).
    + destruct (slice_from _ _); cbn; try done.
      destruct (slice _ _ _); cbn; try done.
      destruct (parse_metadata _ _ _); cbn; try done.
      intros [= <-]. cbn. lia.
    + intros [= <-]. cbn. lia.
  - destruct (Unmarshal line); try done. intros [= <-]. cbn.
    rewrite length_app. reflexivity.
Qed.

Lemma parse_lines_entries lines : forall st st',
  parse_lines st lines = Ok st' ->
  length (p_e st')
  = (length (p_e st) + length (List.filter (fun l => negb (is_comment l)) lines))%nat.
Proof.
  induction lines as [|line lines IH]; intros st st'; cbn.
  - intros [= <-]. lia.
  - destruct (parse_line st line) as [st1| |] eqn:H1; cbn; try done.
    intros H2. apply IH in H2. apply parse_line_entries in H1.
    destruct (is_comment line); cbn; cbn in H2; lia.
Qed.

(** C7: when no line fails, [Parse] returns a dictionary exactly when
    the number of entry lines equals the declared [entries] value, and
    the error of a mismatch carries both numbers; the entries of the
    dictionary are as many as the entry lines of the text. *)
Theorem Parse_checks_entry_count (text : gostring) (st : parsing) :
  parse_lines p_init (bufio.ScanLines text) = Ok st ->
  let loaded := length (List.filter (fun l => negb (is_comment l)) (bufio.ScanLines text)) in
  length (p_e st) = loaded
  /\ ((exists d, Parse text = Ok d) <-> Z.of_nat loaded = Entries (p_md st))
  /\ (Z.of_nat loaded = Entries (p_md st) ->
      Parse text = Ok {| d_e := p_e st; d_md := p_md st; d_ready := true;
                         d_header := p_header st; d_err := None |})
  /\ (Z.of_nat loaded <> Entries (p_md st) ->
      Parse text = Err (fmt_Errorf_entries (Z.of_nat loaded) (Entries (p_md st)))).
Proof.
  intros Hst loaded.
  assert (Hlen : length (p_e st) = loaded).
  { apply parse_lines_entries in Hst. cbn in Hst. exact Hst. }
  unfold Parse. rewrite Hst. cbn. rewrite Hlen.
  destruct (Z.eqb_spec (Z.of_nat loaded) (Entries (p_md st))) as [Heq|Hne]; cbn.
  - repeat split; try done. by eexists.
  - repeat split; try done. by intros [d Hd].
Qed.

(** C10, first input: a [#!] line without [=] makes the key slice
    [line[3:-1]] and the call of [Parse] panic. *)
Lemma Parse_panics_without_equals : Parse (str "#! version") = Panic.
Proof. reflexivity. Qed.

(** An entry line without [/] has one field, and [fields[1:0]] panics. *)
Lemma Unmarshal_panics_without_slash : Unmarshal (str "A B [p]") = Panic.
Proof. vm_compute. reflexivity. Qed.

(** C10: [Parse] is not total; on each of the two inputs the claim
    names it panics instead of returning an error. *)
Theorem Parse_panics :
  Parse (str "#! version") = Panic /\ Parse (str "中 中 [Zhong1]") = Panic.
Proof. split; vm_compute; reflexivity. Qed.

End ParseFacts.

Lemma Parse_checks_entry_count_witness :
  parse_lines p_init (bufio.ScanLines metadata_text) = Ok metadata_state
  /\ length (p_e metadata_state) = 4%nat
  /\ Version (p_md metadata_state) = 123%Z
  /\ exists d, Parse metadata_text = Ok d.
Proof.
  assert (H : parse_lines p_init (bufio.ScanLines metadata_text) = Ok metadata_state)
    by (vm_compute; reflexivity).
  split; [exact H|].
  destruct (Parse_checks_entry_count metadata_text metadata_state H) as (H1 & H2 & H3 & H4).
  split; [vm_compute; reflexivity|].
  split; [vm_compute; reflexivity|].
  apply H2. vm_compute. reflexivity.
Defined.

(** ** The stable sort *)

Section StableSort.
Context {A K : Type} `{EqDecision K}.
Variable key : A -> K.
Variable ltb : K -> K -> bool.
Hypothesis ltb_irrefl : forall a, ltb a a = false.
Hypothesis ltb_trans : forall a b c, ltb a b = true -> ltb b c = true -> ltb a c = true.
Hypothesis ltb_total : forall a b, ltb a b = false -> ltb b a = false -> a = b.

Local Abbreviation less := (less_by key ltb).
Local Abbreviation le := (le_by key ltb).

Lemma ltb_asym a b : ltb a b = true -> ltb b a = false.
Proof using ltb_irrefl ltb_trans.
  intros H. destruct (ltb b a) eqn:E; [|done].
  by rewrite <- (ltb_irrefl a), (ltb_trans _ _ _ H E).
Qed.

Lemma le_trans a b c : le a b -> le b c -> le a c.
Proof using ltb_irrefl ltb_trans ltb_total.
  unfold le_by. intros Hab Hbc. destruct (ltb (key c) (key a)) eqn:E; [|done].
  destruct (ltb (key a) (key b)) eqn:E1.
  - by rewrite (ltb_trans _ _ _ E E1) in Hbc.
  - rewrite <- (ltb_total _ _ E1 Hab) in Hbc. congruence.
Qed.

Lemma insert_stable_perm x l : Permutation (insert_stable less x l) (x :: l).
Proof.
  induction l as [|y t IH]; cbn; [done|].
  destruct (less y x); [|done].
  rewrite IH. apply perm_swap.
Qed.

Lemma SliceStable_perm l : Permutation (SliceStable l less) l.
Proof.
  induction l as [|x t IH]; cbn; [done|].
  rewrite insert_stable_perm. by constructor.
Qed.

Lemma insert_stable_sorted x l :
  StronglySorted le l -> StronglySorted le (insert_stable less x l).
Proof using ltb_irrefl ltb_trans ltb_total.
  induction 1 as [|y t Hs IH Hy]; cbn.
  - repeat constructor.
  - destruct (less y x) eqn:E.
    + constructor; [done|].
      rewrite insert_stable_perm. constructor; [|done].
      unfold le_by. by apply ltb_asym.
    + constructor; [by constructor|].
      constructor; [exact E|].
      eapply Forall_impl; [exact Hy|]. intros z Hz. by eapply le_trans.
Qed.

Lemma SliceStable_sorted l : StronglySorted le (SliceStable l less).
Proof using ltb_irrefl ltb_trans ltb_total.
  induction l; cbn; [constructor | by apply insert_stable_sorted].
Qed.

Lemma insert_stable_filter k x l :
  List.filter (fun a => bool_decide (key a = k)) (insert_stable less x l)
  = List.filter (fun a => bool_decide (key a = k)) (x :: l).
Proof using ltb_irrefl.
  induction l as [|y t IH]; [done|].
  cbn [insert_stable]. destruct (less y x) eqn:E; [|done].
  cbn [List.filter]. rewrite IH. cbn [List.filter].
  repeat case_bool_decide; try done.
  unfold less_by in E. assert (key y = key x) as Hyx by congruence.
  rewrite Hyx, ltb_irrefl in E. done.
Qed.

Lemma SliceStable_stable k l :
  List.filter (fun a => bool_decide (key a = k)) (SliceStable l less)
  = List.filter (fun a => bool_decide (key a = k)) l.
Proof using ltb_irrefl.
  induction l as [|x t IH]; [done|].
  cbn [SliceStable foldr]. rewrite insert_stable_filter.
  cbn [List.filter]. fold (SliceStable t less). by rewrite IH.
Qed.

End StableSort.

Lemma insert_stable_ext_in {A} (f g : A -> A -> bool) (x : A) (l : list A) :
  (forall y, In y l -> f y x = g y x) ->
  insert_stable f x l = insert_stable g x l.
Proof.
  induction l as [|y t IH]; intros H; [done|]. cbn.
  rewrite (H y) by (by left). destruct (g y x); [|done].
  f_equal. apply IH. intros z Hz. apply H. by right.
Qed.

Lemma SliceStable_ext_in {A} (f g : A -> A -> bool) (l : list A) :
  (forall x y, In x l -> In y l -> f x y = g x y) ->
  SliceStable l f = SliceStable l g.
Proof.
  induction l as [|x t IH]; intros H; [done|]. cbn.
  fold (SliceStable t f) (SliceStable t g).
  rewrite IH by (intros; apply H; by right).
  apply insert_stable_ext_in. intros y Hy. apply H; [right|by left].
  eapply Permutation_in; [|exact Hy]. apply SliceStable_perm.
Qed.

Lemma StronglySorted_impl_in {A} (R R' : A -> A -> Prop) (l : list A) :
  (forall a b, In a l -> In b l -> R a b -> R' a b) ->
  StronglySorted R l -> StronglySorted R' l.
Proof.
  intros H Hs. induction Hs as [|a l Hs IH Ha]; constructor.
  - apply IH. intros x y Hx Hy. apply H; by apply in_cons.
  - rewrite List.Forall_forall in Ha |- *. intros b Hb.
    apply H; [apply in_eq | by apply in_cons | by apply Ha].
Qed.

(** ** Bytewise order on strings *)

Lemma b2z_inj a b : b2z a = b2z b -> a = b.
Proof.
  unfold b2z. intros H. apply N2Z.inj in H.
  rewrite <- (ascii_N_embedding a), <- (ascii_N_embedding b). by rewrite H.
Qed.

Lemma string_ltb_irrefl a : string_ltb a a = false.
Proof. induction a as [|x a IH]; [done|]. cbn. by rewrite Z.ltb_irrefl. Qed.

Lemma string_ltb_trans a : forall b c,
  string_ltb a b = true -> string_ltb b c = true -> string_ltb a c = true.
Proof.
  induction a as [|x a IH]; intros [|y b] [|z c]; cbn; try done.
  destruct (Z.ltb_spec (b2z x) (b2z y)), (Z.ltb_spec (b2z y) (b2z z)),
    (Z.ltb_spec (b2z x) (b2z z)); try done; try lia;
  destruct (Z.ltb_spec (b2z y) (b2z x)), (Z.ltb_spec (b2z z) (b2z y)),
    (Z.ltb_spec (b2z z) (b2z x)); try done; try lia.
  apply IH.
Qed.

Lemma string_ltb_total a : forall b,
  string_ltb a b = false -> string_ltb b a = false -> a = b.
Proof.
  induction a as [|x a IH]; intros [|y b]; cbn; try done.
  destruct (Z.ltb_spec (b2z x) (b2z y)), (Z.ltb_spec (b2z y) (b2z x));
    try done; try lia.
  intros H1 H2. f_equal; [apply b2z_inj; lia | by apply IH].
Qed.

(** ** Levenshtein distance *)

Section Edit.
Context {A : Type}.
Implicit Types s t u : list A.

Local Hint Constructors edit : core.

Lemma edit_refl s : edit s s 0.
Proof. induction s; auto. Qed.

Lemma edit_sym s t n : edit s t n -> edit t s n.
Proof. induction 1; auto. Qed.

Lemma edit_from_nil t : edit [] t (length t).
Proof. induction t; cbn; auto. Qed.

Lemma edit_to_nil s : edit s [] (length s).
Proof. induction s; cbn; auto. Qed.

Lemma edit_length s t n :
  edit s t n -> (length t <= length s + n /\ length s <= length t + n)%nat.
Proof. induction 1; cbn; lia. Qed.

Lemma edit_zero s t : edit s t 0 -> s = t.
Proof.
  intros H. remember 0%nat as n eqn:Hn.
  induction H; try done. f_equal. auto.
Qed.

Lemma edit_app s t n s' t' n' :
  edit s t n -> edit s' t' n' -> edit (s ++ s') (t ++ t') (n + n').
Proof. induction 1; cbn; auto. Qed.

Lemma edit_rev s t n : edit s t n -> edit (rev s) (rev t) n.
Proof.
  induction 1 as [|a s t n _ IH|a b s t n _ IH|a s t n _ IH|b s t n _ IH]; cbn.
  - constructor.
  - replace n with (n + 0)%nat by lia. apply edit_app; auto.
  - replace (S n) with (n + 1)%nat by lia. apply edit_app; auto.
  - replace (S n) with (n + 1)%nat by lia.
    rewrite <- (app_nil_r (rev t)). apply edit_app; auto.
  - replace (S n) with (n + 1)%nat by lia.
    rewrite <- (app_nil_r (rev s)). apply edit_app; auto.
Qed.

(** Scripts compose, at no more than the sum of their costs. *)
Lemma edit_trans s t n :
  edit s t n -> forall u m, edit t u m -> exists k, (k <= n + m)%nat /\ edit s u k.
Proof.
  induction 1 as [|a s t n _ IH|a b s t n _ IH|a s t n _ IH|b s t n _ IH].
  - intros u m H. exists m. split; [lia | done].
  - intros u m H. remember (a :: t) as t0 eqn:Ht.
    induction H as [|a' t' u m H _|a' b' t' u m H _|a' t' u m H _|b' t' u m H IHH];
      try done.
    + injection Ht as -> ->. destruct (IH _ _ H) as (k & ? & ?).
      exists k. split; [lia | auto].
    + injection Ht as -> ->. destruct (IH _ _ H) as (k & ? & ?).
      exists (S k). split; [lia | auto].
    + injection Ht as -> ->. destruct (IH _ _ H) as (k & ? & ?).
      exists (S k). split; [lia | auto].
    + destruct (IHH Ht) as (k & ? & ?). exists (S k). split; [lia | auto].
  - intros u m H. remember (b :: t) as t0 eqn:Ht.
    induction H as [|a' t' u m H _|a' b' t' u m H _|a' t' u m H _|b' t' u m H IHH];
      try done.
    + injection Ht as -> ->. destruct (IH _ _ H) as (k & ? & ?).
      exists (S k). split; [lia | auto].
    + injection Ht as -> ->. destruct (IH _ _ H) as (k & ? & ?).
      exists (S k). split; [lia | auto].
    + injection Ht as -> ->. destruct (IH _ _ H) as (k & ? & ?).
      exists (S k). split; [lia | auto].
    + destruct (IHH Ht) as (k & ? & ?). exists (S k). split; [lia | auto].
  - intros u m H. destruct (IH _ _ H) as (k & ? & ?).
    exists (S k). split; [lia | auto].
  - intros u m H. remember (b :: t) as t0 eqn:Ht.
    induction H as [|a' t' u m H _|a' b' t' u m H _|a' t' u m H _|b' t' u m H IHH];
      try done.
    + injection Ht as -> ->. destruct (IH _ _ H) as (k & ? & ?).
      exists (S k). split; [lia | auto].
    + injection Ht as -> ->. destruct (IH _ _ H) as (k & ? & ?).
      exists (S k). split; [lia | auto].
    + injection Ht as -> ->. destruct (IH _ _ H) as (k & ? & ?).
      exists k. split; [lia | auto].
    + destruct (IHH Ht) as (k & ? & ?). exists (S k). split; [lia | auto].
Qed.

Lemma distance_unique s t d d' : distance s t d -> distance s t d' -> d = d'.
Proof.
  intros [H1 H2] [H1' H2']. apply H2 in H1'. apply H2' in H1. lia.
Qed.

Lemma distance_sym s t d : distance s t d -> distance t s d.
Proof.
  intros [H1 H2]. split; [by apply edit_sym|].
  intros n Hn. apply H2. by apply edit_sym.
Qed.

Lemma distance_rev s t d : distance s t d -> distance (rev s) (rev t) d.
Proof.
  intros [H1 H2]. split; [by apply edit_rev|].
  intros n Hn. apply H2. apply edit_rev in Hn. by rewrite !rev_involutive in Hn.
Qed.

Lemma distance_refl s : distance s s 0.
Proof. split; [apply edit_refl | lia]. Qed.

Lemma distance_zero s t : distance s t 0 -> s = t.
Proof. intros [H _]. by apply edit_zero. Qed.

Lemma distance_triangle s t u d1 d2 d3 :
  distance s t d1 -> distance t u d2 -> distance s u d3 -> (d3 <= d1 + d2)%nat.
Proof.
  intros [H1 _] [H2 _] [_ H3].
  destruct (edit_trans _ _ _ H1 _ _ H2) as (k & Hk & He).
  apply H3 in He. lia.
Qed.

Lemma distance_from_nil t : distance [] t (length t).
Proof.
  split; [apply edit_from_nil|]. intros n H. apply edit_length in H. cbn in H. lia.
Qed.

Lemma distance_to_nil s : distance s [] (length s).
Proof.
  split; [apply edit_to_nil|]. intros n H. apply edit_length in H. cbn in H. lia.
Qed.

Lemma distance_cons_eq a s t d : distance s t d -> distance (a :: s) (a :: t) d.
Proof.
  intros [H1 H2]. split; [auto|].
  intros n H. inversion H; subst.
  - auto.
  - etrans; [by apply H2|lia].
  - match goal with H' : edit s (a :: t) _ |- _ =>
      destruct (edit_trans _ _ _ H' t 1%nat) as (k & ? & Hk);
        [apply edit_delete, edit_refl|]
    end.
    apply H2 in Hk. lia.
  - match goal with H' : edit (a :: s) t _ |- _ =>
      destruct (edit_trans s (a :: s) 1%nat (edit_insert _ _ _ _ (edit_refl s)) _ _ H')
        as (k & ? & Hk)
    end.
    apply H2 in Hk. lia.
Qed.

Lemma distance_cons_ne a b s t d1 d2 d3 :
  a <> b -> distance s t d1 -> distance (a :: s) t d2 -> distance s (b :: t) d3 ->
  distance (a :: s) (b :: t) (S (Nat.min d1 (Nat.min d2 d3))).
Proof.
  intros Hab [H1 M1] [H2 M2] [H3 M3]. split.
  - destruct (Nat.min_spec d1 (Nat.min d2 d3)) as [[_ ->]|[_ ->]]; [auto|].
    destruct (Nat.min_spec d2 d3) as [[_ ->]|[_ ->]]; auto.
  - intros n H. inversion H; subst; try done.
    + match goal with H' : edit s t _ |- _ => apply M1 in H' end. lia.
    + match goal with H' : edit s (b :: t) _ |- _ => apply M3 in H' end. lia.
    + match goal with H' : edit (a :: s) t _ |- _ => apply M2 in H' end. lia.
Qed.

End Edit.

Lemma lev_spec_nil_r s : lev_spec s [] = length s.
Proof. by destruct s. Qed.

Lemma lev_spec_cons a b s t :
  lev_spec (a :: s) (b :: t)
  = if (a =? b)%Z then lev_spec s t
    else S (Nat.min (lev_spec s t) (Nat.min (lev_spec (a :: s) t) (lev_spec s (b :: t)))).
Proof. reflexivity. Qed.

(** The recurrence computes the distance. *)
Lemma lev_spec_distance s : forall t, distance s t (lev_spec s t).
Proof.
  induction s as [|a s IHs]; intros t.
  - apply distance_from_nil.
  - induction t as [|b t IHt].
    + apply (distance_to_nil (a :: s)).
    + rewrite lev_spec_cons. destruct (Z.eqb_spec a b) as [->|Hab].
      * by apply distance_cons_eq.
      * by apply distance_cons_ne.
Qed.

Lemma min3_spec (x y z : nat) :
  min3 (Z.of_nat x + 1) (Z.of_nat y + 1) (Z.of_nat z + 1)
  = Z.of_nat (S (Nat.min x (Nat.min y z))).
Proof.
  unfold min3.
  destruct (Z.ltb_spec (Z.of_nat x + 1) (Z.of_nat y + 1)),
    (Z.ltb_spec (Z.of_nat x + 1) (Z.of_nat z + 1)),
    (Z.ltb_spec (Z.of_nat y + 1) (Z.of_nat z + 1)); lia.
Qed.

(** The single-row dynamic programme. *)
Section Rows.
Variables s1 s2 : list rune.

Local Abbreviation D := (lev_cell s1 s2).
Local Abbreviation inv := (inner_inv s1 s2).
Local Abbreviation is_row := (row s1 s2).

Lemma D_0 j : (j <= length s1)%nat -> D 0 j = j.
Proof.
  intros Hj. unfold lev_cell. rewrite take_0. cbn.
  rewrite length_rev, length_take. lia.
Qed.

Lemma D_i0 i : (i <= length s2)%nat -> D i 0 = i.
Proof.
  intros Hi. unfold lev_cell. rewrite take_0. cbn.
  rewrite lev_spec_nil_r, length_rev, length_take. lia.
Qed.

Lemma D_step i j :
  (i < length s2)%nat -> (j < length s1)%nat ->
  D (S i) (S j)
  = if (s2 !!! i =? s1 !!! j)%Z then D i j
    else S (Nat.min (D i j) (Nat.min (D (S i) j) (D i (S j)))).
Proof.
  intros Hi Hj. unfold lev_cell.
  rewrite (take_S_r s2 i (s2 !!! i)) by (by apply list_lookup_lookup_total_lt).
  rewrite (take_S_r s1 j (s1 !!! j)) by (by apply list_lookup_lookup_total_lt).
  rewrite !rev_unit. apply lev_spec_cons.
Qed.

Lemma lev_inner_inv i j st :
  (1 <= i <= length s2)%nat -> (1 <= j <= length s1)%nat ->
  inv i j st -> inv i (S j) (lev_inner s1 (s2 !!! (i - 1)%nat) st j).
Proof.
  intros Hi Hj. destruct st as [[ld prev] curr].
  destruct i as [|i']; [lia|]. destruct j as [|j']; [lia|].
  unfold inner_inv, lev_inner.
  replace (S i' - 1)%nat with i' by lia. replace (S j' - 1)%nat with j' by lia.
  replace (S (S j') - 1)%nat with (S j') by lia.
  intros (Hlen & Hprev & Hld). split; [by rewrite length_insert|].
  assert (Hdiag : ld !!! j' = Z.of_nat (D i' j')).
  { rewrite Hld by lia. by rewrite Nat.ltb_irrefl. }
  assert (Hup : ld !!! S j' = Z.of_nat (D i' (S j'))).
  { rewrite Hld by lia. destruct (Nat.ltb_spec (S j') j'); [lia | done]. }
  split.
  - rewrite D_step by lia.
    destruct (s2 !!! i' =? s1 !!! j')%Z; [exact Hdiag|].
    rewrite Hdiag, Hup, Hprev. apply min3_spec.
  - intros k Hk.
    destruct (decide (k = j')) as [->|Hne].
    + rewrite list_lookup_total_insert_eq by lia.
      destruct (Nat.ltb_spec j' (S j')); [done | lia].
    + rewrite list_lookup_total_insert_ne by done. rewrite Hld by done.
      destruct (Nat.ltb_spec k j'), (Nat.ltb_spec k (S j')); try done; lia.
Qed.

Lemma lev_inner_loop i n : forall st,
  (1 <= i <= length s2)%nat -> (n <= length s1)%nat ->
  inv i 1 st ->
  inv i (S n) (fold_left (lev_inner s1 (s2 !!! (i - 1)%nat)) (seq 1 n) st).
Proof.
  induction n as [|n IH]; intros st Hi Hn Hst; [done|].
  rewrite seq_S, fold_left_app. cbn [fold_left].
  apply lev_inner_inv; [done | lia |]. apply IH; [done | lia | done].
Qed.

Lemma lev_outer_row i ld :
  (1 <= i <= length s2)%nat -> is_row (i - 1) ld -> is_row i (lev_outer s1 s2 ld i).
Proof.
  intros Hi [Hlen Hld]. unfold lev_outer.
  pose proof (lev_inner_loop i (length s1) (ld, Z.of_nat i, 0%Z) Hi (le_n _)) as H.
  destruct (fold_left _ _ _) as [[ld' prev] curr].
  destruct H as (Hlen' & Hprev & Hld').
  { split; [done|]. split.
    - cbn. rewrite D_i0 by lia. done.
    - intros k Hk. rewrite Hld by done. by destruct (k <? 1 - 1)%nat eqn:E. }
  split; [by rewrite length_insert|].
  intros k Hk. destruct (decide (k = length s1)) as [->|Hne].
  - rewrite list_lookup_total_insert_eq by lia. rewrite Hprev. f_equal. f_equal. lia.
  - rewrite list_lookup_total_insert_ne by done. rewrite Hld' by done.
    destruct (Nat.ltb_spec k (S (length s1) - 1)); [done | lia].
Qed.

Lemma lev_outer_loop n : forall ld,
  (n <= length s2)%nat -> is_row 0 ld -> is_row n (fold_left (lev_outer s1 s2) (seq 1 n) ld).
Proof.
  induction n as [|n IH]; intros ld Hn Hld; [done|].
  rewrite seq_S, fold_left_app. cbn [fold_left].
  apply lev_outer_row; [lia|]. replace (1 + n - 1)%nat with n by lia.
  apply IH; [lia | done].
Qed.

Lemma row_0 : is_row 0 (map Z.of_nat (seq 0 (length s1 + 1))).
Proof.
  split; [rewrite length_map, length_seq; lia|].
  intros k Hk. rewrite D_0 by done.
  apply list_lookup_total_correct. rewrite list_lookup_fmap.
  rewrite lookup_seq_lt by lia. done.
Qed.

Lemma rows_compute :
  fold_left (lev_outer s1 s2) (seq 1 (length s2)) (map Z.of_nat (seq 0 (length s1 + 1)))
    !!! length s1
  = Z.of_nat (lev_spec (rev s2) (rev s1)).
Proof.
  destruct (lev_outer_loop (length s2) _ (le_n _) row_0) as [_ H].
  rewrite H by done. unfold lev_cell. by rewrite !firstn_all.
Qed.

End Rows.

(** What the function returns is the edit distance of the code points. *)
Lemma levenshtein_distance (src dst : gostring) :
  exists d, levenshtein src dst = Z.of_nat d /\ distance (runes src) (runes dst) d.
Proof.
  unfold levenshtein, string_eqb. case_bool_decide as Heq.
  - subst. exists 0%nat. split; [done | apply distance_refl].
  - destruct (len dst <? len src)%Z.
    + rewrite rows_compute. eexists. split; [done|].
      pose proof (distance_rev _ _ _
        (lev_spec_distance (rev (runes src)) (rev (runes dst)))) as H.
      by rewrite !rev_involutive in H.
    + rewrite rows_compute. eexists. split; [done|].
      pose proof (distance_rev _ _ _
        (lev_spec_distance (rev (runes dst)) (rev (runes src)))) as H.
      rewrite !rev_involutive in H. by apply distance_sym.
Qed.

(** C9: [levenshtein] is the edit distance of the two code-point
    sequences; it is symmetric, zero exactly on equal sequences,
    satisfies the triangle inequality, and takes the three values of
    the test table. *)
Theorem levenshtein_metric (a b c : gostring) :
  (exists d, levenshtein a b = Z.of_nat d /\ distance (runes a) (runes b) d)
  /\ levenshtein a b = levenshtein b a
  /\ (levenshtein a b = 0%Z <-> runes a = runes b)
  /\ (levenshtein a c <= levenshtein a b + levenshtein b c)%Z
  /\ levenshtein (str "") (str "中文老師") = 4%Z
  /\ levenshtein (str "中文老師") (str "中文老師") = 0%Z
  /\ levenshtein (str "中文") (str "中國") = 1%Z.
Proof.
  destruct (levenshtein_distance a b) as (dab & Eab & Hab).
  destruct (levenshtein_distance b a) as (dba & Eba & Hba).
  destruct (levenshtein_distance a c) as (dac & Eac & Hac).
  destruct (levenshtein_distance b c) as (dbc & Ebc & Hbc).
  split; [by exists dab|].
  split.
  { rewrite Eab, Eba. f_equal.
    eapply distance_unique; [exact Hab | by apply distance_sym]. }
  split.
  { rewrite Eab. split.
    - intros H. apply distance_zero. by replace dab with 0%nat in Hab by lia.
    - intros H. rewrite H in Hab.
      by rewrite (distance_unique _ _ _ _ Hab (distance_refl _)). }
  split.
  { rewrite Eab, Eac, Ebc. pose proof (distance_triangle _ _ _ _ _ _ Hab Hbc Hac). lia. }
  repeat split; vm_compute; reflexivity.
Qed.

(** ** Lookup by meaning *)

Lemma pointers_fst (d : Dict) : map fst (pointers d) = seq 0 (length (d_e d)).
Proof.
  unfold pointers.
  change (map fst (imap (fun i e => (i, e)) (d_e d)))
    with (fst <$> imap (fun i e => (i, e)) (d_e d)).
  rewrite fmap_imap. etrans; [apply (imap_seq_0 (d_e d) id)|]. apply list_fmap_id.
Qed.

Lemma pointers_NoDup (d : Dict) : NoDup (map fst (pointers d)).
Proof. rewrite pointers_fst. apply NoDup_seq. Qed.

Section Meaning.
Context `{L : Lib}.

(** The inner loop stops at the first meaning that qualifies. *)
Lemma meaning_distance_first s ms ld :
  meaning_distance s ms = Some ld <->
  exists k m, ms !! k = Some m /\ qualifies s m /\ ld = levenshtein s (ToLower m)
              /\ forall j m', (j < k)%nat -> ms !! j = Some m' -> ~ qualifies s m'.
Proof.
  unfold qualifies. induction ms as [|m ms IH]; cbn.
  - split; [done|]. by intros (k & m & ? & _).
  - destruct (Contains s (ToLower m)) eqn:Ec;
      [destruct (Z.leb_spec (levenshtein s (ToLower m)) MaxLD) as [Hle|Hgt]|].
    + split.
      * intros [= <-]. exists 0%nat, m. repeat split; try done. lia.
      * intros (k & m' & Hk & _ & -> & Hfirst). destruct k as [|k].
        -- cbn in Hk. by injection Hk as ->.
        -- exfalso. apply (Hfirst 0%nat m); [lia | done | done].
    + rewrite IH. split.
      * intros (k & m' & Hk & Hq & -> & Hfirst). exists (S k), m'.
        repeat split; try done; try apply Hq.
        intros [|j] m'' Hj; cbn; [intros [= <-] [_ ?]; lia|].
        apply Hfirst. lia.
      * intros (k & m' & Hk & Hq & -> & Hfirst). destruct k as [|k].
        -- cbn in Hk. injection Hk as ->. destruct Hq. lia.
        -- exists k, m'. repeat split; try done; try apply Hq.
           intros j m'' Hj Hm. apply (Hfirst (S j) m''); [lia | done].
    + rewrite IH. split.
      * intros (k & m' & Hk & Hq & -> & Hfirst). exists (S k), m'.
        repeat split; try done; try apply Hq.
        intros [|j] m'' Hj; cbn; [intros [= <-] [? _]; congruence|].
        apply Hfirst. lia.
      * intros (k & m' & Hk & Hq & -> & Hfirst). destruct k as [|k].
        -- cbn in Hk. injection Hk as ->. destruct Hq. congruence.
        -- exists k, m'. repeat split; try done; try apply Hq.
           intros j m'' Hj Hm. apply (Hfirst (S j) m''); [lia | done].
Qed.

(** The loop over the entries keeps those with a distance, in order,
    and records the distance of each under its pointer. *)
Lemma meaning_scan_fold s ps : forall results lev,
  NoDup (map fst ps) ->
  exists lev',
    fold_left (meaning_scan s) ps (results, lev)
    = (results ++ List.filter (fun pe => bool_decide (is_Some (entry_distance s pe))) ps,
       lev')
    /\ (forall pe ld, In pe ps -> entry_distance s pe = Some ld -> lev' !! fst pe = Some ld)
    /\ (forall p, ~ In p (map fst ps) -> lev' !! p = lev !! p).
Proof.
  induction ps as [|pe ps IH]; intros results lev Hnd.
  - exists lev. cbn. rewrite app_nil_r. done.
  - cbn [map] in Hnd. apply NoDup_cons in Hnd as [Hpe Hnd].
    rewrite list_elem_of_In in Hpe.
    cbn [fold_left List.filter map In].
    change (meaning_scan s (results, lev) pe)
      with (match entry_distance s pe with
            | Some ld => (results ++ [pe], <[fst pe := ld]> lev)
            | None => (results, lev)
            end).
    case_bool_decide as Hd.
    + destruct Hd as [ld E]. rewrite E.
      destruct (IH (results ++ [pe]) (<[fst pe := ld]> lev) Hnd) as (lev' & -> & H1 & H2).
      exists lev'. rewrite <- app_assoc. split; [done|]. split.
      * intros pe' ld' [<-|Hin] Hd; [|by apply H1].
        rewrite H2 by done. rewrite lookup_insert_eq. congruence.
      * intros p Hp. rewrite H2 by tauto. apply lookup_insert_ne. tauto.
    + destruct (entry_distance s pe) as [ld|] eqn:E; [exfalso; apply Hd; by eexists|].
      destruct (IH results lev Hnd) as (lev' & -> & H1 & H2).
      exists lev'. split; [done|]. split.
      * intros pe' ld' [<-|Hin] Hd'; [congruence | by apply H1].
      * intros p Hp. apply H2. tauto.
Qed.

Lemma filter_distance s ld ps :
  List.filter (fun a => bool_decide (default 0%Z (entry_distance s a) = ld))
    (List.filter (fun pe => bool_decide (is_Some (entry_distance s pe))) ps)
  = List.filter (fun pe => bool_decide (entry_distance s pe = Some ld)) ps.
Proof.
  induction ps as [|pe ps IH]; [done|]. cbn [List.filter].
  destruct (entry_distance s pe) as [x|] eqn:E.
  - rewrite bool_decide_eq_true_2 by (by eexists). cbn [List.filter].
    rewrite E. cbn [default]. rewrite IH.
    destruct (decide (x = ld)) as [->|Hne].
    + by rewrite !bool_decide_eq_true_2.
    + rewrite !bool_decide_eq_false_2; [done | congruence | done].
  - rewrite bool_decide_eq_false_2 by (by intros [? ?]).
    rewrite bool_decide_eq_false_2 by done. exact IH.
Qed.

Lemma filter_NoDup_fst {B} (f : nat * B -> bool) ps :
  NoDup (map fst ps) -> NoDup (map fst (List.filter f ps)).
Proof.
  induction ps as [|pe ps IH]; cbn; [done|].
  intros Hnd. apply NoDup_cons in Hnd as [Hpe Hnd].
  destruct (f pe); [|by apply IH]. cbn. apply NoDup_cons. split; [|by apply IH].
  intros Hin. apply Hpe. rewrite list_elem_of_In in Hin |- *.
  apply in_map_iff in Hin as (x & <- & Hx). apply filter_In in Hx as [Hx _].
  by apply in_map.
Qed.

(** C4 (as amended): an entry is ranked by its first meaning that is a
    substring of the lowercased query and lies within distance [MaxLD];
    a meaning that is a substring but too far does not discard the
    entry, the scan goes on to the next meaning.  The ranked entries
    are exactly those with such a meaning, each once, ascending by
    distance, entries of equal distance in dictionary order, and at
    most [MaxResults] of them are returned. *)
Theorem GetByMeaning_ranking (d : Dict) (query : gostring) :
  let s := ToLower query in
  (forall pe ld,
     entry_distance s pe = Some ld <->
     exists k m, Meanings (snd pe) !! k = Some m /\ qualifies s m
                 /\ ld = levenshtein s (ToLower m)
                 /\ forall j m', (j < k)%nat -> Meanings (snd pe) !! j = Some m' ->
                                 ~ qualifies s m')
  /\ exists ranked,
       GetByMeaning d query = take MaxResults ranked
       /\ Permutation ranked
            (List.filter (fun pe => bool_decide (is_Some (entry_distance s pe)))
                         (pointers d))
       /\ StronglySorted
            (fun a b => exists x y, entry_distance s a = Some x
                                    /\ entry_distance s b = Some y /\ (x <= y)%Z) ranked
       /\ (forall ld,
             List.filter (fun pe => bool_decide (entry_distance s pe = Some ld)) ranked
             = List.filter (fun pe => bool_decide (entry_distance s pe = Some ld))
                           (pointers d))
       /\ NoDup (map fst ranked)
       /\ (length (GetByMeaning d query) <= MaxResults)%nat.
Proof.
  intros s. split.
  { intros pe ld. apply meaning_distance_first. }
  unfold GetByMeaning. fold s.
  destruct (meaning_scan_fold s (pointers d) [] ∅ (pointers_NoDup d))
    as (lev & -> & Hlev & _).
  cbn [app].
  set (cands := List.filter _ (pointers d)).
  set (key := fun pe : nat * Entry => default 0%Z (entry_distance s pe)).
  assert (Hcands : forall pe, In pe cands -> exists ld, entry_distance s pe = Some ld
                                                      /\ lev !! fst pe = Some ld).
  { intros pe Hin. apply filter_In in Hin as [Hin Hd].
    apply bool_decide_eq_true in Hd as [ld Hd]. exists ld. split; [done|].
    by apply Hlev. }
  assert (Hsort : SliceStable cands
            (fun a b => (default 0 (lev !! fst a) <? default 0 (lev !! fst b))%Z)
          = SliceStable cands (less_by key Z.ltb)).
  { apply SliceStable_ext_in. intros x y Hx Hy. unfold less_by, key.
    destruct (Hcands x Hx) as (? & -> & ->), (Hcands y Hy) as (? & -> & ->). done. }
  rewrite Hsort. set (ranked := SliceStable cands (less_by key Z.ltb)).
  assert (Hperm : Permutation ranked cands) by apply SliceStable_perm.
  assert (Hin : forall pe, In pe ranked -> exists ld, entry_distance s pe = Some ld).
  { intros pe Hpe. eapply Permutation_in in Hpe; [|exact Hperm].
    destruct (Hcands pe Hpe) as (ld & ? & _). by exists ld. }
  exists ranked. split.
  { destruct (Nat.ltb_spec MaxResults (length ranked)); [done|].
    by rewrite take_ge. }
  split; [exact Hperm|]. split.
  { pose proof (SliceStable_sorted key Z.ltb Z.ltb_irrefl) as Hs.
    specialize (Hs ltac:(intros a b c; lia) ltac:(intros a b; lia) cands).
    fold ranked in Hs. eapply StronglySorted_impl_in; [|exact Hs].
    intros a b Ha Hb Hab.
    destruct (Hin a Ha) as [x Hx]. destruct (Hin b Hb) as [y Hy].
    exists x, y. repeat split; try done.
    unfold le_by, key in Hab. rewrite Hx, Hy in Hab. cbn in Hab. lia. }
  split.
  { intros ld.
    pose proof (SliceStable_stable key Z.ltb Z.ltb_irrefl ld cands) as Hst.
    fold ranked in Hst.
    transitivity (List.filter (fun a => bool_decide (key a = ld)) ranked).
    { apply filter_ext_in. intros pe Hpe. destruct (Hin pe Hpe) as [x Hx].
      unfold key. rewrite Hx. cbn. apply bool_decide_ext. split; congruence. }
    rewrite Hst. apply filter_distance. }
  split.
  { rewrite Hperm. apply filter_NoDup_fst, pointers_NoDup. }
  destruct (Nat.ltb_spec MaxResults (length ranked)); [|done].
  rewrite length_take. lia.
Qed.

End Meaning.

(** C4 (as stated) fails: the first meaning that is a substring of the
    query lies at distance 15, beyond [MaxLD], and the entry is
    returned all the same. *)
Lemma far_first_meaning_does_not_discard :
  let s := ToLower (str "Chinese Language") in
  Contains s (ToLower (str "e")) = true
  /\ levenshtein s (ToLower (str "e")) = 15%Z
  /\ (MaxLD < 15)%Z
  /\ map snd (GetByMeaning letter_then_phrase (str "Chinese Language"))
     = d_e letter_then_phrase.
Proof. repeat split; vm_compute; reflexivity. Qed.

(** ** UTF-8 *)

Section Utf8.
Local Open Scope Z_scope.
Import utf8.

Lemma b2z_range b : 0 <= b2z b < 256.
Proof.
  unfold b2z. pose proof (N_ascii_bounded b). lia.
Qed.

Lemma b2z_z2b z : 0 <= z < 256 -> b2z (z2b z) = z.
Proof.
  intros Hz. unfold b2z, z2b. rewrite N_ascii_embedding by lia. lia.
Qed.

Lemma z2b_b2z b : z2b (b2z b) = b.
Proof. unfold b2z, z2b. rewrite N2Z.id. apply ascii_N_embedding. Qed.

Ltac cases_first :=
  unfold first;
  repeat match goal with
         | |- context [?a <? ?b] => destruct (Z.ltb_spec a b)
         | |- context [?a =? ?b] => destruct (Z.eqb_spec a b)
         | H : context [?a <? ?b] |- _ => destruct (Z.ltb_spec a b)
         | H : context [?a =? ?b] |- _ => destruct (Z.eqb_spec a b)
         end.

Ltac cases_bool :=
  unfold cont, within, ValidRune in *;
  repeat match goal with
         | |- context [?a <? ?b] => destruct (Z.ltb_spec a b)
         | |- context [?a <=? ?b] => destruct (Z.leb_spec a b)
         | |- context [?a =? ?b] => destruct (Z.eqb_spec a b)
         | H : context [?a <? ?b] |- _ => destruct (Z.ltb_spec a b)
         | H : context [?a <=? ?b] |- _ => destruct (Z.leb_spec a b)
         | H : context [?a =? ?b] |- _ => destruct (Z.eqb_spec a b)
         end; cbn in *.

Lemma first_LAscii b : first b = LAscii -> b < 0x80.
Proof. cases_first; intros; try done; lia. Qed.

Lemma first_LInvalid b : first b = LInvalid -> 0x80 <= b.
Proof. cases_first; intros; try done; lia. Qed.

Lemma first_LSeq b size lo hi :
  first b = LSeq size lo hi ->
  (size = 2%nat /\ 0xC2 <= b <= 0xDF /\ lo = 0x80 /\ hi = 0xBF)
  \/ (size = 3%nat /\ 0xE0 <= b <= 0xEF
      /\ lo = (if b =? 0xE0 then 0xA0 else 0x80)
      /\ hi = (if b =? 0xED then 0x9F else 0xBF))
  \/ (size = 4%nat /\ 0xF0 <= b <= 0xF4
      /\ lo = (if b =? 0xF0 then 0x90 else 0x80)
      /\ hi = (if b =? 0xF4 then 0x8F else 0xBF)).
Proof.
  unfold first.
  repeat match goal with
         | |- context [if ?a <? ?b then _ else _] => destruct (Z.ltb_spec a b)
         | |- context [if ?a =? ?b then _ else _] => destruct (Z.eqb_spec a b)
         end; intros [= <- <- <-]; subst;
  first [ left; repeat split; lia
        | right; left; repeat split; try lia;
          repeat match goal with
                 | |- context [?a =? ?b] => destruct (Z.eqb_spec a b)
                 end; lia
        | right; right; repeat split; try lia;
          repeat match goal with
                 | |- context [?a =? ?b] => destruct (Z.eqb_spec a b)
                 end; lia ].
Qed.

(** One step of the decoder. *)
Lemma decode_cons b0 t1 :
  exists r bs rest,
    decode (b0 :: t1) = (r, bs) :: decode rest
    /\ b0 :: t1 = bs ++ rest
    /\ chunk r bs.
Proof.
  pose proof (b2z_range b0) as R0.
  assert (Hbad : chunk RuneError [b0] \/ b2z b0 < 0x80).
  { destruct (Z.ltb_spec (b2z b0) 0x80); [by right|left].
    repeat split; try done. repeat constructor. done. }
  cbn [decode]. destruct (first (b2z b0)) as [| |size lo hi] eqn:E.
  - exists (b2z b0), [b0], t1. apply first_LAscii in E.
    repeat split; try done.
    + cases_bool; try done; lia.
    + intros _. by exists b0.
    + lia.
  - exists RuneError, [b0], t1. apply first_LInvalid in E.
    destruct Hbad as [?|?]; [done | lia].
  - assert (Hb0 : 0x80 <= b2z b0).
    { apply first_LSeq in E. lia. }
    assert (Hc : chunk RuneError [b0]) by (destruct Hbad; [done | lia]).
    destruct t1 as [|b1 t2]; [by exists RuneError, [b0], []|].
    pose proof (b2z_range b1) as R1.
    destruct (within lo hi (b2z b1)) eqn:W1; cbn [negb];
      [|by exists RuneError, [b0], (b1 :: t2)].
    apply first_LSeq in E as [(-> & ? & -> & ->)|[(-> & ? & -> & ->)|(-> & ? & -> & ->)]].
    + eexists _, [b0; b1], t2. split; [done|]. split; [done|].
      cases_bool; try done.
      repeat split; try done.
      * cases_bool; try done; Z.to_euclidean_division_equations; lia.
      * intros ?. Z.to_euclidean_division_equations; lia.
      * intros _. repeat constructor; lia.
    + destruct t2 as [|b2 t3]; [by exists RuneError, [b0], [b1]|].
      pose proof (b2z_range b2) as R2.
      destruct (cont (b2z b2)) eqn:W2; cbn [negb];
        [|by exists RuneError, [b0], (b1 :: b2 :: t3)].
      eexists _, [b0; b1; b2], t3. split; [done|]. split; [done|].
      cases_bool; try done;
      (repeat split; try done;
       [ cases_bool; try done; Z.to_euclidean_division_equations; lia
       | intros ?; Z.to_euclidean_division_equations; lia
       | intros _; repeat constructor; lia ]).
    + destruct t2 as [|b2 t3]; [by exists RuneError, [b0], [b1]|].
      pose proof (b2z_range b2) as R2.
      destruct (cont (b2z b2)) eqn:W2; cbn [negb];
        [|by exists RuneError, [b0], (b1 :: b2 :: t3)].
      destruct t3 as [|b3 t4]; [by exists RuneError, [b0], [b1; b2]|].
      pose proof (b2z_range b3) as R3.
      destruct (cont (b2z b3)) eqn:W3; cbn [negb];
        [|by exists RuneError, [b0], (b1 :: b2 :: b3 :: t4)].
      eexists _, [b0; b1; b2; b3], t4. split; [done|]. split; [done|].
      cases_bool; try done;
      (repeat split; try done;
       [ cases_bool; try done; Z.to_euclidean_division_equations; lia
       | intros ?; Z.to_euclidean_division_equations; lia
       | intros _; repeat constructor; lia ]).
Qed.

(** Induction along the code points of a string. *)
Lemma decode_ind (P : gostring -> Prop) :
  P [] ->
  (forall r bs rest,
     decode (bs ++ rest) = (r, bs) :: decode rest -> chunk r bs -> P rest ->
     P (bs ++ rest)) ->
  forall s, P s.
Proof.
  intros Hnil Hstep s.
  induction s as [s IH] using (induction_ltof1 _ (@length ascii)).
  destruct s as [|b0 t1]; [done|].
  destruct (decode_cons b0 t1) as (r & bs & rest & Hd & Hs & Hc).
  rewrite Hs in *. apply (Hstep r); try done.
  apply IH. unfold ltof. destruct Hc as (_ & Hne & _).
  rewrite length_app. destruct bs; [done | cbn; lia].
Qed.

Lemma runes_nil_inv s : runes s = [] -> s = [].
Proof.
  destruct s as [|b0 t1]; [done|]. unfold runes.
  destruct (decode_cons b0 t1) as (r & bs & rest & -> & _). done.
Qed.

Lemma decode_bytes s : concat (map snd (decode s)) = s.
Proof.
  induction s as [|r bs rest Hd _ IH] using decode_ind; [done|].
  rewrite Hd. cbn. by rewrite IH.
Qed.

Lemma runes_valid s : Forall (fun r => ValidRune r = true) (runes s).
Proof.
  unfold runes. induction s as [|r bs rest Hd Hc IH] using decode_ind; [constructor|].
  rewrite Hd. cbn. constructor; [apply Hc | done].
Qed.

Lemma decode_chunks s : Forall (fun c => chunk (fst c) (snd c)) (decode s).
Proof.
  induction s as [|r bs rest Hd Hc IH] using decode_ind; [constructor|].
  rewrite Hd. by constructor.
Qed.

(** Decoding what [EncodeRune] wrote. *)
Lemma decode_2 b0 b1 t :
  0xC2 <= b2z b0 <= 0xDF -> 0x80 <= b2z b1 <= 0xBF ->
  decode (b0 :: b1 :: t)
  = ((b2z b0 mod 32) * 64 + b2z b1 mod 64, [b0; b1]) :: decode t.
Proof.
  intros H0 H1.
  assert (F : first (b2z b0) = LSeq 2 0x80 0xBF) by (cases_first; first [done | lia]).
  assert (W1 : within 0x80 0xBF (b2z b1) = true) by (cases_bool; first [done | lia]).
  remember (b1 :: t) as t1 eqn:E1.
  cbn [decode]. rewrite F. subst t1. cbv match beta zeta. by rewrite W1.
Qed.

Lemma decode_3 b0 b1 b2 t :
  0xE0 <= b2z b0 <= 0xEF ->
  (if b2z b0 =? 0xE0 then 0xA0 else 0x80) <= b2z b1
    <= (if b2z b0 =? 0xED then 0x9F else 0xBF) ->
  0x80 <= b2z b2 <= 0xBF ->
  decode (b0 :: b1 :: b2 :: t)
  = ((b2z b0 mod 16) * 4096 + (b2z b1 mod 64) * 64 + b2z b2 mod 64, [b0; b1; b2])
    :: decode t.
Proof.
  intros H0 H1 H2.
  assert (F : first (b2z b0)
              = LSeq 3 (if b2z b0 =? 0xE0 then 0xA0 else 0x80)
                       (if b2z b0 =? 0xED then 0x9F else 0xBF))
    by (cases_first; first [done | lia]).
  assert (W1 : within (if b2z b0 =? 0xE0 then 0xA0 else 0x80)
                      (if b2z b0 =? 0xED then 0x9F else 0xBF) (b2z b1) = true)
    by (cases_bool; first [done | lia]).
  assert (W2 : cont (b2z b2) = true) by (cases_bool; first [done | lia]).
  remember (b2 :: t) as t2 eqn:E2. remember (b1 :: t2) as t1 eqn:E1.
  cbn [decode]. rewrite F. subst t1. cbv match beta zeta. rewrite W1.
  subst t2. cbv match beta zeta. by rewrite W2.
Qed.

Lemma decode_4 b0 b1 b2 b3 t :
  0xF0 <= b2z b0 <= 0xF4 ->
  (if b2z b0 =? 0xF0 then 0x90 else 0x80) <= b2z b1
    <= (if b2z b0 =? 0xF4 then 0x8F else 0xBF) ->
  0x80 <= b2z b2 <= 0xBF -> 0x80 <= b2z b3 <= 0xBF ->
  decode (b0 :: b1 :: b2 :: b3 :: t)
  = ((b2z b0 mod 8) * 262144 + (b2z b1 mod 64) * 4096 + (b2z b2 mod 64) * 64
     + b2z b3 mod 64, [b0; b1; b2; b3]) :: decode t.
Proof.
  intros H0 H1 H2 H3.
  assert (F : first (b2z b0)
              = LSeq 4 (if b2z b0 =? 0xF0 then 0x90 else 0x80)
                       (if b2z b0 =? 0xF4 then 0x8F else 0xBF))
    by (cases_first; first [done | lia]).
  assert (W1 : within (if b2z b0 =? 0xF0 then 0x90 else 0x80)
                      (if b2z b0 =? 0xF4 then 0x8F else 0xBF) (b2z b1) = true)
    by (cases_bool; first [done | lia]).
  assert (W2 : cont (b2z b2) = true) by (cases_bool; first [done | lia]).
  assert (W3 : cont (b2z b3) = true) by (cases_bool; first [done | lia]).
  remember (b3 :: t) as t3 eqn:E3. remember (b2 :: t3) as t2 eqn:E2.
  remember (b1 :: t2) as t1 eqn:E1.
  cbn [decode]. rewrite F. subst t1. cbv match beta zeta. rewrite W1.
  subst t2. cbv match beta zeta. rewrite W2.
  subst t3. cbv match beta zeta. by rewrite W3.
Qed.

Lemma decode_ascii b t :
  b2z b < 0x80 -> decode (b :: t) = (b2z b, [b]) :: decode t.
Proof.
  intros H. cbn [decode]. pose proof (b2z_range b).
  replace (first (b2z b)) with LAscii by (cases_first; first [done | lia]). reflexivity.
Qed.

Lemma decode_EncodeRune r rest :
  decode (EncodeRune r ++ rest) = (scalar r, EncodeRune r) :: decode rest.
Proof.
  unfold EncodeRune, scalar.
  destruct ((0 <=? r) && (r <? 0x80)) eqn:E1.
  { replace (ValidRune r) with true by (cases_bool; first [done | lia]).
    cbn [app]. rewrite decode_ascii; rewrite b2z_z2b by (cases_bool; first [done | lia]);
      [done | cases_bool; lia]. }
  destruct ((0 <=? r) && (r <? 0x800)) eqn:E2.
  { replace (ValidRune r) with true by (cases_bool; first [done | lia]).
    assert (0x80 <= r < 0x800) by (cases_bool; first [done | lia]).
    cbn [app]. rewrite decode_2;
      rewrite ?b2z_z2b by (Z.to_euclidean_division_equations; lia);
      try (Z.to_euclidean_division_equations; lia).
    do 2 f_equal. Z.to_euclidean_division_equations; lia. }
  destruct (ValidRune r) eqn:E3; cbn [negb]; [|reflexivity].
  destruct (r <? 0x10000) eqn:E4.
  { assert (0x800 <= r < 0x10000 /\ (r < 0xD800 \/ 0xDFFF < r)) as [? ?]
      by (cases_bool; first [done | lia]).
    cbn [app]. rewrite decode_3;
      rewrite ?b2z_z2b by (Z.to_euclidean_division_equations; lia);
      try (Z.to_euclidean_division_equations; lia).
    - do 2 f_equal. Z.to_euclidean_division_equations; lia.
    - repeat match goal with
             | |- context [?a =? ?b] => destruct (Z.eqb_spec a b)
             end; Z.to_euclidean_division_equations; lia. }
  assert (0x10000 <= r <= 0x10FFFF) by (cases_bool; first [done | lia]).
  cbn [app]. rewrite decode_4;
    rewrite ?b2z_z2b by (Z.to_euclidean_division_equations; lia);
    try (Z.to_euclidean_division_equations; lia).
  - do 2 f_equal. Z.to_euclidean_division_equations; lia.
  - repeat match goal with
           | |- context [?a =? ?b] => destruct (Z.eqb_spec a b)
           end; Z.to_euclidean_division_equations; lia.
Qed.

Lemma runes_string_of_runes_app rs rest :
  runes (string_of_runes rs ++ rest) = map scalar rs ++ runes rest.
Proof.
  unfold runes, string_of_runes. induction rs as [|r rs IH]; [done|].
  cbn [map concat]. rewrite <- app_assoc, decode_EncodeRune. cbn. by rewrite IH.
Qed.

Lemma scalar_valid r : ValidRune r = true -> scalar r = r.
Proof. unfold scalar. by intros ->. Qed.

Lemma runes_string_of_runes rs :
  Forall (fun r => ValidRune r = true) rs -> runes (string_of_runes rs) = rs.
Proof.
  intros H. rewrite <- (app_nil_r (string_of_runes rs)), runes_string_of_runes_app.
  cbn. rewrite app_nil_r. induction H as [|r rs Hr _ IH]; [done|].
  cbn. by rewrite scalar_valid, IH.
Qed.

Lemma string_of_runes_app rs rs' :
  string_of_runes (rs ++ rs') = string_of_runes rs ++ string_of_runes rs'.
Proof. unfold string_of_runes. by rewrite map_app, concat_app. Qed.

End Utf8.

(** ** Bytes of the [strings] functions *)

Global Arguments IsSpace : simpl never.
Global Arguments byte_eqb : simpl never.

Lemma byte_eqb_eq a b : byte_eqb a b = true <-> a = b.
Proof. apply Ascii.eqb_eq. Qed.

Lemma byte_eqb_neq a b : byte_eqb a b = false <-> a <> b.
Proof. apply Ascii.eqb_neq. Qed.

Lemma byte_eqb_refl a : byte_eqb a a = true.
Proof. by apply byte_eqb_eq. Qed.

Lemma HasPrefix_nil s : HasPrefix s [] = true.
Proof. by destruct s. Qed.


Lemma HasPrefix_cons_ne c p s x :
  c <> x -> HasPrefix (c :: s) (x :: p) = false.
Proof. intros H. cbn [HasPrefix]. by rewrite (proj2 (byte_eqb_neq c x)). Qed.

(** [Index] of a single byte: past a prefix without it. *)
Lemma Index_byte pre c post :
  ~ In c pre -> Index (pre ++ c :: post) [c] = Z.of_nat (length pre).
Proof.
  induction pre as [|x pre IH]; intros Hin.
  - cbn [app Index HasPrefix length]. by rewrite byte_eqb_refl, HasPrefix_nil.
  - cbn [app Index]. rewrite HasPrefix_cons_ne by (intros ->; apply Hin; by left).
    rewrite IH by (intros ?; apply Hin; by right).
    destruct (Z.ltb_spec (Z.of_nat (length pre)) 0); cbn [length]; lia.
Qed.

Lemma Index_byte_none c s : ~ In c s -> Index s [c] = (-1)%Z.
Proof.
  induction s as [|x s IH]; intros Hin; [done|].
  cbn [Index]. rewrite HasPrefix_cons_ne by (intros ->; apply Hin; by left).
  by rewrite IH by (intros ?; apply Hin; by right).
Qed.

(** An index found splits the string around the byte. *)
Lemma Index_byte_inv c s i :
  Index s [c] = i -> (0 <= i)%Z ->
  s = take (Z.to_nat i) s ++ c :: drop (S (Z.to_nat i)) s
  /\ ~ In c (take (Z.to_nat i) s) /\ (Z.to_nat i < length s)%nat.
Proof.
  revert i. induction s as [|x s IH]; intros i; [cbn; lia|].
  cbn [Index]. cbn [HasPrefix]. destruct (byte_eqb x c) eqn:E.
  - apply byte_eqb_eq in E as ->. rewrite HasPrefix_nil. cbn [andb]. intros <- _. cbn.
    repeat split; [tauto | lia].
  - cbn [andb]. apply byte_eqb_neq in E.
    destruct (Z.ltb_spec (Index s [c]) 0); [lia|].
    intros <- _. destruct (IH _ eq_refl ltac:(lia)) as (Hs & Hn & Hl).
    replace (Z.to_nat (Index s [c] + 1)) with (S (Z.to_nat (Index s [c]))) by lia.
    cbn. repeat split; [by rewrite <- Hs | | lia].
    intros [->|?]; tauto.
Qed.

Lemma Split_no_sep s sep : ~ In sep s -> Split s sep = [s].
Proof.
  induction s as [|c s IH]; intros Hin; [done|]. cbn [Split].
  rewrite (proj2 (byte_eqb_neq c sep)) by (intros ->; apply Hin; by left).
  by rewrite IH by (intros ?; apply Hin; by right).
Qed.

Lemma Split_app s sep t :
  ~ In sep s -> Split (s ++ sep :: t) sep = s :: Split t sep.
Proof.
  induction s as [|c s IH]; intros Hin; cbn [Split app].
  - by rewrite byte_eqb_refl.
  - rewrite (proj2 (byte_eqb_neq c sep)) by (intros ->; apply Hin; by left).
    by rewrite IH by (intros ?; apply Hin; by right).
Qed.

Lemma Split_nonempty s sep : Split s sep <> [].
Proof.
  induction s as [|c s IH]; cbn [Split]; [done|].
  destruct (byte_eqb c sep); [done|]. by destruct (Split s sep).
Qed.

Lemma Split_length s sep : In sep s -> (2 <= length (Split s sep))%nat.
Proof.
  induction s as [|c s IH]; [done|]. cbn [Split]. intros Hin.
  destruct (byte_eqb c sep) eqn:E.
  - cbn. pose proof (Split_nonempty s sep). destruct (Split s sep); [done | cbn; lia].
  - apply byte_eqb_neq in E. destruct Hin as [->|Hin]; [done|].
    specialize (IH Hin). destruct (Split s sep); cbn in *; lia.
Qed.


(** ** Words and the scanner *)

Section Words.
Local Open Scope Z_scope.

Local Abbreviation notsp := (fun r : rune => negb (IsSpace r)).

Lemma split_runs_head rs :
  exists fs, split_runs IsSpace rs = take_while notsp rs :: fs
             /\ whitespace_tokens (drop_while notsp rs)
                = List.filter (fun w => negb (bool_decide (w = []))) fs.
Proof.
  induction rs as [|r rs (fs & IH1 & IH2)].
  - by exists [].
  - cbn. destruct (IsSpace r) eqn:E; cbn.
    + exists (split_runs IsSpace rs). split; [done|].
      unfold whitespace_tokens. cbn. by rewrite E.
    + rewrite IH1. by exists fs.
Qed.

Lemma tokens_space r rs :
  IsSpace r = true -> whitespace_tokens (r :: rs) = whitespace_tokens rs.
Proof. intros E. unfold whitespace_tokens. cbn. by rewrite E. Qed.

Lemma tokens_word r rs :
  IsSpace r = false ->
  whitespace_tokens (r :: rs)
  = take_while notsp (r :: rs) :: whitespace_tokens (drop_while notsp (r :: rs)).
Proof.
  intros E. destruct (split_runs_head (r :: rs)) as (fs & H1 & H2).
  unfold whitespace_tokens at 1. rewrite H1, H2.
  cbn. rewrite E. cbn. done.
Qed.

Lemma tokens_drop_space rs :
  whitespace_tokens (drop_while IsSpace rs) = whitespace_tokens rs.
Proof.
  induction rs as [|r rs IH]; [done|]. cbn [drop_while].
  destruct (IsSpace r) eqn:E; [|done]. by rewrite tokens_space.
Qed.

Lemma drop_while_space_nil rs :
  drop_while IsSpace rs = [] -> whitespace_tokens rs = [].
Proof. intros H. by rewrite <- tokens_drop_space, H. Qed.

Lemma drop_while_Forall {A} (P : A -> Prop) f (l : list A) :
  Forall P l -> Forall P (drop_while f l).
Proof.
  induction 1 as [|x l Hx Hl IH]; cbn; [constructor|].
  destruct (f x); [done | by constructor].
Qed.

Lemma drop_while_head {A} (f : A -> bool) (l : list A) :
  match drop_while f l with
  | [] => True
  | x :: _ => f x = false
  end.
Proof.
  induction l as [|x l IH]; cbn; [done|]. by destruct (f x) eqn:E.
Qed.

Lemma SkipSpace_ok rs :
  Forall (fun r => r <> 10) rs -> fmt.SkipSpace rs = Ok (drop_while IsSpace rs).
Proof.
  induction 1 as [|r rs Hr Hrs IH]; [done|].
  cbn [fmt.SkipSpace drop_while].
  replace ((r =? 13) && match rs with n :: _ => n =? 10 | [] => false end)
    with false.
  2:{ destruct rs as [|n rs']; [by rewrite andb_false_r|].
      inversion Hrs; subst. destruct (Z.eqb_spec n 10); [done|].
      by rewrite andb_false_r. }
  destruct (Z.eqb_spec r 10); [done|]. by destruct (IsSpace r).
Qed.

(** The verb [%s] takes the first word. *)
Lemma scan_string_tokens rs :
  Forall (fun r => r <> 10) rs ->
  match whitespace_tokens rs with
  | [] => fmt.scan_string rs = Err (fmt_scan_error input_exhausted)
  | w :: ws =>
    exists rest, fmt.scan_string rs = Ok (string_of_runes w, rest)
                 /\ whitespace_tokens rest = ws
                 /\ Forall (fun r => r <> 10) rest
                 /\ match rest with [] => True | r :: _ => IsSpace r = true end
  end.
Proof.
  intros Hnl. unfold fmt.scan_string. rewrite SkipSpace_ok by done. cbn.
  rewrite <- tokens_drop_space.
  pose proof (drop_while_head IsSpace rs) as Hh.
  pose proof (drop_while_Forall _ IsSpace rs Hnl) as Hn.
  destruct (drop_while IsSpace rs) as [|r rs'] eqn:E; [done|].
  rewrite tokens_word by done.
  eexists. split; [done|]. split; [done|]. split.
  - by apply drop_while_Forall.
  - pose proof (drop_while_head notsp (r :: rs')) as H.
    destruct (drop_while notsp (r :: rs')); [done|].
    by apply negb_false_iff in H.
Qed.

Lemma format_space_ok rest :
  Forall (fun r => r <> 10) rest ->
  match rest with [] => True | r :: _ => IsSpace r = true end ->
  exists rest', fmt.format_space rest = Ok rest'
                /\ whitespace_tokens rest' = whitespace_tokens rest
                /\ Forall (fun r => r <> 10) rest'.
Proof.
  intros Hnl Hh. destruct rest as [|r rest]; [by exists []|].
  unfold fmt.format_space. rewrite Hh. cbn [negb].
  inversion Hnl as [|? ? Hr Hrest]; subst.
  destruct (Z.eqb_spec r 10); [done|].
  eexists. split; [done|].
  assert (Heq : forall l, Forall (fun r => r <> 10) l ->
            drop_while (fun c => IsSpace c && negb (c =? 10)) l = drop_while IsSpace l).
  { induction 1 as [|x l Hx _ IH]; [done|]. cbn.
    destruct (Z.eqb_spec x 10); [done|]. rewrite andb_true_r.
    by destruct (IsSpace x). }
  rewrite Heq by done. split; [apply tokens_drop_space|].
  by apply drop_while_Forall.
Qed.

(** [Sscanf] with two [%s] verbs fills its operands from the first two
    words of the text, and reports an error when there are fewer. *)
Lemma Sscanf_tokens chars :
  Forall (fun r => r <> 10) (runes chars) ->
  match whitespace_tokens (runes chars) with
  | [] => fst (fmt.Sscanf_s_s chars) = (0, Some (fmt_scan_error input_exhausted))
  | [w] => fst (fmt.Sscanf_s_s chars) = (1, Some (fmt_scan_error input_exhausted))
  | w1 :: w2 :: _ =>
    fmt.Sscanf_s_s chars = ((2, None), (string_of_runes w1, string_of_runes w2))
  end.
Proof.
  intros Hnl. unfold fmt.Sscanf_s_s.
  pose proof (scan_string_tokens _ Hnl) as H1.
  destruct (whitespace_tokens (runes chars)) as [|w1 ws]; [by rewrite H1|].
  destruct H1 as (rest & -> & Hws & Hn1 & Hh1).
  destruct (format_space_ok rest Hn1 Hh1) as (rest' & -> & Ht & Hn').
  cbn. pose proof (scan_string_tokens _ Hn') as H2. rewrite Ht, Hws in H2.
  destruct ws as [|w2 ws]; [by rewrite H2|].
  destruct H2 as (rest2 & -> & _ & Hn2 & Hh2).
  by destruct (format_space_ok rest2 Hn2 Hh2) as (? & -> & _).
Qed.


End Words.

(** ** Entry.Unmarshal *)

Lemma slice_ok {A} (s : list A) lo hi :
  (0 <= lo <= hi)%Z -> (hi <= Z.of_nat (length s))%Z ->
  slice s lo hi = Ok (take (Z.to_nat (hi - lo)) (drop (Z.to_nat lo) s)).
Proof.
  intros H1 H2. unfold slice.
  destruct (Z.leb_spec 0 lo), (Z.leb_spec lo hi), (Z.leb_spec hi (Z.of_nat (length s)));
    try lia.
  cbn. do 2 f_equal. lia.
Qed.

Section UnmarshalFacts.
Context `{L : Lib}.
Local Open Scope Z_scope.

(** The general form: with two words or more before the bracket the
    scan succeeds on the first two. *)
Lemma Unmarshal_scans (s : gostring) :
  let fields := Split s "/"%char in
  let fields0 := hd [] fields in
  let off := Index fields0 (str "[") in
  let end_ := Index fields0 (str "]") in
  0 <= off < end_ -> In "/"%char s ->
  Forall (fun r => r <> 10) (runes (take (Z.to_nat off) fields0)) ->
  match whitespace_tokens (runes (take (Z.to_nat off) fields0)) with
  | t1 :: t2 :: _ =>
    Unmarshal s
    = Ok {| Traditional := string_of_runes t1;
            Simplified := string_of_runes t2;
            Pinyin := take (Z.to_nat (end_ - off - 1)) (drop (Z.to_nat (off + 1)) fields0);
            Meanings := take (length fields - 2) (drop 1 fields) |}
  | _ => Unmarshal s = Err (errors_WithStack (fmt_scan_error input_exhausted))
  end.
Proof.
  intros fields fields0 off end_ Hoff Hslash Hchars.
  destruct (Index_byte_inv "["%char fields0 off eq_refl ltac:(lia)) as (_ & _ & Hlo).
  destruct (Index_byte_inv "]"%char fields0 end_ eq_refl ltac:(lia)) as (_ & _ & Hle).
  pose proof (Split_length s "/"%char Hslash) as Hlen. fold fields in Hlen.
  pose proof (Sscanf_tokens _ Hchars) as Hscan.
  unfold Unmarshal. fold fields fields0 off end_.
  destruct (Z.ltb_spec off 0), (Z.ltb_spec end_ 0); try lia. cbn [orb].
  rewrite (slice_ok fields0 0 off) by lia.
  rewrite (slice_ok fields0 (off + 1) end_) by lia.
  rewrite (slice_ok fields 1 (Z.of_nat (length fields) - 1)) by lia.
  cbn [mbind result_bind].
  replace (Z.to_nat (off - 0)) with (Z.to_nat off) by lia.
  replace (Z.to_nat 0) with 0%nat by lia. rewrite drop_0.
  replace (Z.to_nat (end_ - (off + 1))) with (Z.to_nat (end_ - off - 1)) by lia.
  replace (Z.to_nat (Z.of_nat (length fields) - 1 - 1)) with (length fields - 2)%nat by lia.
  replace (Z.to_nat 1) with 1%nat by lia.
  destruct (whitespace_tokens _) as [|t1 [|t2 ts]].
  - destruct (fmt.Sscanf_s_s _) as [[n err] [trad sim]]. cbn in Hscan.
    by injection Hscan as -> ->.
  - destruct (fmt.Sscanf_s_s _) as [[n err] [trad sim]]. cbn in Hscan.
    by injection Hscan as -> ->.
  - by rewrite Hscan.
Qed.


End UnmarshalFacts.



(** ** The entry codec *)

Lemma tokens_of_word rs rest :
  rs <> [] -> Forall (fun r => IsSpace r = false) rs ->
  whitespace_tokens (rs ++ 32%Z :: rest) = rs :: whitespace_tokens rest.
Proof.
  intros Hne Hrs. destruct rs as [|r rs]; [done|].
  inversion Hrs as [|? ? Hr Hrs']; subst.
  cbn [app]. rewrite tokens_word by done. f_equal.
  - cbn [take_while]. rewrite Hr. cbn [negb]. f_equal.
    clear Hrs Hne. induction Hrs' as [|x l Hx _ IH]; cbn [app take_while].
    + done.
    + rewrite Hx. cbn [negb]. by rewrite IH.
  - cbn [drop_while]. rewrite Hr. cbn [negb].
    clear Hrs Hne. induction Hrs' as [|x l Hx _ IH]; cbn [app drop_while].
    + change (IsSpace 32) with true. cbn [negb].
      by rewrite tokens_space by reflexivity.
    + rewrite Hx. cbn [negb]. exact IH.
Qed.

Lemma runes_word_app w rest :
  string_of_runes (runes w) = w -> runes (w ++ rest) = runes w ++ runes rest.
Proof.
  intros Hw. rewrite <- Hw at 1. rewrite runes_string_of_runes_app. f_equal.
  pose proof (runes_valid w) as Hv. revert Hv. generalize (runes w). intros l Hv.
  induction Hv as [|r l Hr _ IH]; [done|]. cbn [map]. by rewrite scalar_valid, IH.
Qed.

Lemma Split_Join_slash ms :
  ms <> [] -> Forall (fun m => ~ In "/"%char m) ms ->
  Split (Join ms (str "/") ++ str "/") "/"%char = ms ++ [[]].
Proof.
  intros Hne Hms. induction Hms as [|m ms Hm Hms IH]; [done|].
  destruct ms as [|m' ms'].
  - cbn [Join app]. change (str "/") with ("/"%char :: []).
    by rewrite Split_app.
  - cbn [Join]. change (str "/") with ("/"%char :: []) in *.
    rewrite <- !app_assoc. cbn [app]. rewrite Split_app by done.
    cbn [app]. f_equal. by apply IH.
Qed.

Lemma not_in_app {A} (x : A) l1 l2 : ~ In x l1 -> ~ In x l2 -> ~ In x (l1 ++ l2).
Proof. intros H1 H2 H. apply in_app_or in H. tauto. Qed.

Lemma not_in_cons_ne {A} (x y : A) l : x <> y -> ~ In x l -> ~ In x (y :: l).
Proof. intros H1 H2 [?|?]; [congruence | tauto]. Qed.

(** What [Marshal] prints for a well-formed entry, [Unmarshal] reads
    back. *)
Lemma Unmarshal_Marshal (e : Entry) : wf_entry e -> Unmarshal (Marshal e) = Ok e.
Proof.
  destruct e as [trad sim pinyin ms].
  intros ((Ht0 & Ht1 & Ht2 & Ht3 & Ht4 & Ht5) & (Hs0 & Hs1 & Hs2 & Hs3 & Hs4 & Hs5)
          & Hp1 & Hp2 & Hm0 & Hm1).
  cbn [Traditional Simplified Pinyin Meanings] in *.
  set (chars := trad ++ str " " ++ sim ++ str " ").
  set (fields0 := chars ++ "["%char :: pinyin ++ "]"%char :: str " ").
  assert (HM : Marshal {| Traditional := trad; Simplified := sim; Pinyin := pinyin;
                          Meanings := ms |}
               = fields0 ++ "/"%char :: (Join ms (str "/") ++ str "/")).
  { unfold Marshal, fields0, chars. cbn [Traditional Simplified Pinyin Meanings].
    change (str " [") with (" "%char :: "["%char :: []).
    change (str "] ") with ("]"%char :: " "%char :: []).
    change (str " ") with (" "%char :: []).
    change (str "/") with ("/"%char :: []).
    repeat (rewrite <- ?app_assoc; cbn [app]). reflexivity. }
  assert (Hc_br : ~ In "["%char chars /\ ~ In "]"%char chars /\ ~ In "/"%char chars).
  { unfold chars. change (str " ") with (" "%char :: []).
    repeat split; repeat (apply not_in_app || apply not_in_cons_ne); try done;
      try (by intros []). }
  destruct Hc_br as (Hc1 & Hc2 & Hc3).
  assert (Hf0 : ~ In "/"%char fields0).
  { unfold fields0. change (str " ") with (" "%char :: []).
    repeat (apply not_in_app || apply not_in_cons_ne); try done; by intros []. }
  assert (Hfields : Split (Marshal {| Traditional := trad; Simplified := sim;
                                      Pinyin := pinyin; Meanings := ms |}) "/"%char
                    = fields0 :: ms ++ [[]]).
  { rewrite HM, Split_app by done. by rewrite Split_Join_slash. }
  assert (Hoff : Index fields0 (str "[") = Z.of_nat (length chars)).
  { unfold fields0. by apply Index_byte. }
  assert (Hend : Index fields0 (str "]") = Z.of_nat (length chars + 1 + length pinyin)).
  { unfold fields0.
    change (chars ++ "["%char :: pinyin ++ "]"%char :: str " ")
      with (chars ++ ["["%char] ++ pinyin ++ "]"%char :: str " ").
    rewrite !app_assoc. rewrite Index_byte.
    - rewrite !length_app. cbn [length]. f_equal.
    - repeat (apply not_in_app || apply not_in_cons_ne); try done; by intros []. }
  assert (Hrunes : runes chars = runes trad ++ 32%Z :: runes sim ++ [32%Z]).
  { unfold chars. rewrite runes_word_app by done.
    change (str " ") with (" "%char :: []). cbn [app].
    change (runes (" "%char :: sim ++ [" "%char]))
      with (32%Z :: runes (sim ++ [" "%char])).
    by rewrite runes_word_app. }
  assert (Htok : whitespace_tokens (runes chars) = [runes trad; runes sim]).
  { rewrite Hrunes.
    rewrite tokens_of_word; [|by intros ?%runes_nil_inv|done].
    rewrite tokens_of_word; [done|by intros ?%runes_nil_inv|done]. }
  pose proof (Unmarshal_scans
    (Marshal {| Traditional := trad; Simplified := sim; Pinyin := pinyin;
                Meanings := ms |})) as H.
  cbv zeta in H. rewrite Hfields in H. cbn [hd] in H. rewrite Hoff, Hend in H.
  rewrite Nat2Z.id in H.
  assert (Htake : take (length chars) fields0 = chars).
  { unfold fields0. by rewrite take_app_length. }
  rewrite Htake, Htok in H. rewrite H.
  - f_equal. f_equal.
    + by rewrite Ht1.
    + by rewrite Hs1.
    + replace (Z.to_nat (Z.of_nat (length chars + 1 + length pinyin)
                         - Z.of_nat (length chars) - 1)) with (length pinyin) by lia.
      replace (Z.to_nat (Z.of_nat (length chars) + 1)) with (length chars + 1)%nat by lia.
      unfold fields0.
      change (chars ++ "["%char :: pinyin ++ "]"%char :: str " ")
        with (chars ++ ["["%char] ++ pinyin ++ "]"%char :: str " ").
      rewrite app_assoc, drop_app_length'; [|rewrite length_app; cbn; lia].
      by rewrite take_app_length.
    + change (drop 1 (fields0 :: ms ++ [[]])) with (ms ++ [[]]).
      cbn [length]. rewrite length_app. cbn [length].
      replace (S (length ms + 1) - 2)%nat with (length ms) by lia.
      by rewrite take_app_length.
  - lia.
  - rewrite HM. apply in_or_app. right. by left.
  - rewrite Hrunes. apply Forall_app. split.
    + eapply Forall_impl; [exact Ht2|]. intros r Hr ->. done.
    + constructor; [done|]. apply Forall_app. split; [|by repeat constructor].
      eapply Forall_impl; [exact Hs2|]. intros r Hr ->. done.
Qed.

(** ** The line scanner *)

Lemma Split_parts s sep : Forall (fun f => ~ In sep f) (Split s sep).
Proof.
  induction s as [|c s IH]; cbn [Split].
  - repeat constructor. by intros [].
  - destruct (byte_eqb c sep) eqn:E.
    + constructor; [by intros []|done].
    + apply byte_eqb_neq in E. destruct (Split s sep) as [|f fs].
      * repeat constructor. intros [?|[]]. congruence.
      * inversion IH; subst. constructor; [|done]. intros [?|?]; [congruence|tauto].
Qed.

Lemma removelast_incl {A} (l : list A) x : In x (removelast l) -> In x l.
Proof.
  induction l as [|y l IH]; [done|]. cbn. destruct l; [done|].
  intros [->|?]; [by left | right; by apply IH].
Qed.

Lemma take_while_incl {A} (f : A -> bool) l x : In x (take_while f l) -> In x l.
Proof.
  induction l as [|y l IH]; [done|]. cbn. destruct (f y); [|done].
  intros [->|?]; [by left | right; by apply IH].
Qed.

Lemma raw_lines_no_LF text : Forall (fun l => ~ In LF l) (bufio.raw_lines text).
Proof.
  unfold bufio.raw_lines. pose proof (Split_parts text LF) as H.
  change "010"%char with LF.
  destruct (last (Split text LF)) as [[|]|]; try done.
  rewrite List.Forall_forall in H |- *. intros l Hl. apply H. by apply removelast_incl.
Qed.

Lemma dropCR_incl l b : In b (bufio.dropCR l) -> In b l.
Proof.
  unfold bufio.dropCR. destruct (last l) as [c|]; [|done].
  destruct (byte_eqb c "013"%char); [apply removelast_incl | done].
Qed.

Lemma ScanLines_no_LF text : Forall (fun l => ~ In LF l) (bufio.ScanLines text).
Proof.
  unfold bufio.ScanLines. pose proof (raw_lines_no_LF text) as H.
  rewrite List.Forall_forall in H |- *. intros l Hl.
  apply in_map_iff in Hl as (raw & <- & Hraw). intros Hin.
  apply (H raw); [by eapply take_while_incl | by apply dropCR_incl].
Qed.

Lemma raw_lines_cons x t :
  ~ In LF x -> bufio.raw_lines (x ++ LF :: t) = x :: bufio.raw_lines t.
Proof.
  intros Hx. unfold bufio.raw_lines. change "010"%char with LF.
  rewrite Split_app by done.
  pose proof (Split_nonempty t LF) as Hne.
  destruct (Split t LF) as [|f fs] eqn:E; [done|].
  rewrite last_cons_cons. destruct (last (f :: fs)) as [[|]|]; done.
Qed.

Lemma raw_lines_single x : ~ In LF x -> x <> [] -> bufio.raw_lines x = [x].
Proof.
  intros Hx Hne. unfold bufio.raw_lines. change "010"%char with LF.
  rewrite Split_no_sep by done. cbn. by destruct x.
Qed.

Lemma dropCR_id l : ~ In CR l -> bufio.dropCR l = l.
Proof.
  intros Hl. unfold bufio.dropCR. destruct (last l) as [c|] eqn:E; [|done].
  apply last_Some in E as [l' ->].
  rewrite (proj2 (byte_eqb_neq c "013"%char)); [done|].
  intros ->. apply Hl, in_or_app. right. by left.
Qed.

Lemma dropCR_snoc l : bufio.dropCR (l ++ [CR]) = l.
Proof.
  unfold bufio.dropCR. rewrite last_snoc. change "013"%char with CR.
  by rewrite byte_eqb_refl, removelast_last.
Qed.

Lemma Join_cons_cons x y ls sep :
  Join (x :: y :: ls) sep = x ++ sep ++ Join (y :: ls) sep.
Proof. reflexivity. Qed.

(** The lines of a text written with [LineEnding] between them. *)
Lemma ScanLines_Join ls :
  Forall (fun l => ~ In LF l /\ ~ In CR l /\ l <> []
                   /\ (len l + 1 < bufio.MaxScanTokenSize)%Z) ls ->
  bufio.ScanLines (Join ls LineEnding) = ls.
Proof.
  induction 1 as [|x ls (Hlf & Hcr & Hne & Hlen) Hls IH]; [done|].
  destruct ls as [|y ls].
  - cbn [Join]. unfold bufio.ScanLines. rewrite raw_lines_single by done.
    cbn [take_while map].
    destruct (Z.ltb_spec (len x) bufio.MaxScanTokenSize); [|lia].
    cbn [map]. by rewrite dropCR_id.
  - rewrite Join_cons_cons.
    replace (x ++ LineEnding ++ Join (y :: ls) LineEnding)
      with ((x ++ [CR]) ++ LF :: Join (y :: ls) LineEnding)
      by (by rewrite <- app_assoc).
    unfold bufio.ScanLines. rewrite raw_lines_cons.
    2:{ apply not_in_app; [done|]. intros [?|[]]. done. }
    cbn [take_while].
    replace (len (x ++ [CR]) <? bufio.MaxScanTokenSize)%Z with true.
    2:{ symmetry. apply Z.ltb_lt. unfold len in *. rewrite length_app. cbn. lia. }
    cbn [map]. rewrite dropCR_snoc. f_equal. exact IH.
Qed.

(** ** What [Save] writes *)

Lemma Join_cons x t sep :
  Join (x :: t) sep = x ++ concat (map (fun y => sep ++ y) t).
Proof.
  revert x. induction t as [|y t IH]; intros x.
  - cbn. by rewrite app_nil_r.
  - rewrite Join_cons_cons, IH. cbn [map concat]. by rewrite <- !app_assoc.
Qed.

Lemma Join_app_nonempty h t sep :
  h <> [] -> Join (h ++ t) sep = Join h sep ++ concat (map (fun x => sep ++ x) t).
Proof.
  destruct h as [|x h]; [done|]. intros _.
  change ((x :: h) ++ t) with (x :: (h ++ t)).
  by rewrite !Join_cons, map_app, concat_app, app_assoc.
Qed.

Lemma header_Join h :
  concat (imap (fun i line => if negb (i =? length h - 1)%nat
                              then line ++ LineEnding else line) h)
  = Join h LineEnding.
Proof.
  induction h as [|x h IH]; [done|].
  rewrite imap_cons. cbn [concat]. destruct h as [|y h].
  - cbn. by rewrite app_nil_r.
  - rewrite Join_cons_cons, <- IH.
    assert (E : negb (0 =? length (x :: y :: h) - 1)%nat = true) by done.
    rewrite E, <- app_assoc. do 3 f_equal.
    apply imap_ext. intros i l _. unfold compose.
    replace (S i =? length (x :: y :: h) - 1)%nat with (i =? length (y :: h) - 1)%nat;
      [done|].
    cbn [length].
    destruct (Nat.eqb_spec i (S (length h) - 1)), (Nat.eqb_spec (S i) (S (S (length h)) - 1));
      try done; lia.
Qed.

Lemma Save_Join (d : Dict) :
  d_header d <> [] \/ d_e d = [] ->
  Save d = Join (d_header d ++ map Marshal (d_e d)) LineEnding.
Proof.
  intros H. unfold Save. rewrite header_Join.
  destruct (d_header d) as [|x h] eqn:E.
  - destruct H as [?| ->]; done.
  - rewrite Join_app_nonempty by done. f_equal. by rewrite map_map.
Qed.

(** ** Reading back what [Save] wrote *)

Section RoundTrip.
Context `{L : Lib}.

Lemma parse_lines_app a : forall b st,
  parse_lines st (a ++ b) = (st' ← parse_lines st a; parse_lines st' b).
Proof.
  induction a as [|x a IH]; intros b st; [done|].
  cbn [app parse_lines]. destruct (parse_line st x) as [st1| |]; cbn; [|done..].
  apply IH.
Qed.

(** A comment line touches the header and the metadata only, and what it
    does to them depends on the metadata alone. *)
Lemma parse_line_comment st line st' :
  is_comment line = true -> parse_line st line = Ok st' ->
  exists md, st' = {| p_header := p_header st ++ [line]; p_md := md; p_e := p_e st |}
    /\ forall st0, p_md st0 = p_md st ->
         parse_line st0 line
         = Ok {| p_header := p_header st0 ++ [line]; p_md := md; p_e := p_e st0 |}.
Proof.
  unfold is_comment, parse_line. intros ->.
  destruct (HasPrefix line (str "#!")).
  - destruct (slice_from _ _) as [v| |]; cbn; try done.
    destruct (slice _ _ _) as [k| |]; cbn; try done.
    destruct (parse_metadata k v (p_md st)) as [md| |] eqn:E; cbn; try done.
    intros [= <-]. exists md. split; [done|].
    intros st0 ->. by rewrite E.
  - intros [= <-]. exists (p_md st). split; [done|].
    by intros st0 ->.
Qed.

Lemma parse_line_entry st line st' :
  is_comment line = false -> parse_line st line = Ok st' ->
  exists e, Unmarshal line = Ok e
    /\ st' = {| p_header := p_header st; p_md := p_md st; p_e := p_e st ++ [e] |}.
Proof.
  unfold is_comment, parse_line. intros ->.
  destruct (Unmarshal line) as [e| |]; try done.
  intros [= <-]. by exists e.
Qed.

(** The entry lines [Save] writes are read back one by one. *)
Lemma parse_lines_Marshal es : forall st,
  Forall (fun e => wf_entry e /\ is_comment (Marshal e) = false) es ->
  parse_lines st (map Marshal es)
  = Ok {| p_header := p_header st; p_md := p_md st; p_e := p_e st ++ es |}.
Proof.
  induction es as [|e es IH]; intros st Hes.
  - cbn. rewrite app_nil_r. by destruct st.
  - apply Forall_cons in Hes as [[He Hc] Hes]. cbn [map parse_lines].
    unfold parse_line. unfold is_comment in Hc. rewrite Hc.
    rewrite (Unmarshal_Marshal e He). cbn.
    rewrite (IH _ Hes). cbn. by rewrite <- app_assoc.
Qed.

(** A successful scan of well-formed lines, told apart into the comment
    lines and the entries it met. *)
Lemma parse_lines_split lines : forall st st',
  Forall wf_line lines ->
  parse_lines st lines = Ok st' ->
  exists cs es,
    p_header st' = p_header st ++ cs /\ p_e st' = p_e st ++ es
    /\ Forall (fun c => is_comment c = true) cs
    /\ Forall (fun e => wf_entry e /\ is_comment (Marshal e) = false) es
    /\ (forall l, In l (cs ++ map Marshal es) -> In l lines)
    /\ forall st0, p_md st0 = p_md st ->
         parse_lines st0 cs
         = Ok {| p_header := p_header st0 ++ cs; p_md := p_md st'; p_e := p_e st0 |}.
Proof.
  induction lines as [|line lines IH]; intros st st' Hwf.
  - cbn. intros [= <-]. exists [], []. rewrite !app_nil_r.
    repeat split; try done.
    intros st0 <-. cbn. rewrite app_nil_r. by destruct st0.
  - apply Forall_cons in Hwf as [(_ & _ & Hline) Hwf]. cbn [parse_lines].
    destruct (parse_line st line) as [st1| |] eqn:H1; cbn; try done.
    intros H2. destruct (IH _ _ Hwf H2) as (cs & es & Hh & He & Hcs & Hes & Hin & Hre).
    destruct (is_comment line) eqn:Hc.
    + destruct (parse_line_comment _ _ _ Hc H1) as (md & -> & Hmd).
      cbn [p_header p_md p_e] in *.
      exists (line :: cs), es. repeat split; try done.
      * by rewrite Hh, <- app_assoc.
      * by constructor.
      * intros l [<-|Hl]; [by left | right; by apply Hin].
      * intros st0 E. cbn [parse_lines]. rewrite (Hmd st0 E). cbn.
        rewrite Hre by done. cbn. by rewrite <- app_assoc.
    + destruct (parse_line_entry _ _ _ Hc H1) as (e & Hu & ->).
      cbn [p_header p_md p_e] in *.
      destruct Hline as [Hline | (e' & He' & ->)]; [congruence|].
      rewrite (Unmarshal_Marshal e' He') in Hu. injection Hu as <-.
      exists cs, (e' :: es). repeat split; try done.
      * by rewrite He, <- app_assoc.
      * by constructor.
      * intros l Hl. apply in_app_or in Hl as [Hl|[<-|Hl]].
        -- right. apply Hin, in_or_app. by left.
        -- by left.
        -- right. apply Hin, in_or_app. by right.
Qed.

Lemma comment_nonempty l : is_comment l = true -> l <> [].
Proof. by intros H ->. Qed.

Lemma Marshal_nonempty e : wf_entry e -> Marshal e <> [].
Proof.
  intros ((Ht & _) & _). unfold Marshal. by destruct (Traditional e).
Qed.

(** C2: a well-formed text that [Parse] accepts is read back from what
    [Save] writes for it.  [Save] writes the header lines as they were
    read, then one marshalled entry per line, with [LineEnding] between
    the lines and none after the last; scanning that output gives these
    lines back, and parsing it gives the dictionary [Parse] built from
    the text: the same metadata, the same header and the same entries in
    the same order. *)
Theorem Parse_Save_roundtrip (text : gostring) (d : Dict) :
  WellFormed text -> Parse text = Ok d ->
  Save d = Join (d_header d ++ map Marshal (d_e d)) LineEnding
  /\ bufio.ScanLines (Save d) = d_header d ++ map Marshal (d_e d)
  /\ Parse (Save d) = Ok d.
Proof.
  unfold WellFormed, Parse. intros Hwf.
  destruct (parse_lines p_init (bufio.ScanLines text)) as [st| |] eqn:E; cbn; try done.
  destruct (Z.eqb_spec (Z.of_nat (length (p_e st))) (Entries (p_md st))) as [Hn|];
    cbn; [|done].
  intros [= <-]. set (d := Build_Dict _ _ _ _ _).
  change (d_header d) with (p_header st). change (d_e d) with (p_e st).
  destruct (parse_lines_split _ _ _ Hwf E) as (cs & es & Hh & He & Hcs & Hes & Hin & Hre).
  cbn in Hh, He. specialize (Hre p_init eq_refl). cbn in Hre.
  assert (Hsave : Save d = Join (p_header st ++ map Marshal (p_e st)) LineEnding).
  { apply (Save_Join d). change (p_header st <> [] \/ p_e st = []).
    destruct cs as [|c cs]; [right | left; by rewrite Hh].
    cbn in Hre. injection Hre as Hmd. rewrite <- Hmd in Hn. cbn in Hn.
    destruct (p_e st); [done | cbn in Hn; lia]. }
  assert (Hscan : bufio.ScanLines (Join (p_header st ++ map Marshal (p_e st)) LineEnding)
                  = p_header st ++ map Marshal (p_e st)).
  { apply ScanLines_Join. rewrite Hh, He. apply List.Forall_forall. intros l Hl.
    pose proof (Hin l Hl) as Hl'.
    pose proof (ScanLines_no_LF text) as Hlf.
    rewrite List.Forall_forall in Hlf, Hwf.
    destruct (Hwf l Hl') as (Hcr & Hlen & _). repeat split; try done; [by apply Hlf|].
    apply in_app_or in Hl as [Hl|Hl].
    - rewrite List.Forall_forall in Hcs. by apply comment_nonempty, Hcs.
    - apply in_map_iff in Hl as (e & <- & Hl). rewrite List.Forall_forall in Hes.
      by apply Marshal_nonempty, Hes. }
  rewrite Hsave, Hscan. repeat split.
  rewrite Hh at 1. rewrite parse_lines_app, Hre. cbn.
  rewrite He at 1. rewrite parse_lines_Marshal by done. cbn.
  rewrite <- Hh, <- He.
  destruct (Z.eqb_spec (Z.of_nat (length (p_e st))) (Entries (p_md st))); [done|lia].
Qed.

End RoundTrip.

(** The text of [TestMetadata] is well formed. *)
Ltac by_decide := refine (bool_decide_unpack _ _); vm_compute; exact I.
Ltac not_in := rewrite <- list_elem_of_In; by_decide.
Ltac is_word := repeat split; [by_decide | by_decide | by_decide | not_in..].
Ltac is_entry trad sim pinyin ms :=
  right; exists {| Traditional := str trad; Simplified := str sim;
                   Pinyin := str pinyin; Meanings := map str ms |};
  split; [|reflexivity];
  split; [is_word|]; split; [is_word|];
  cbn [Pinyin Meanings]; repeat split;
  [not_in | not_in | by_decide | repeat (constructor; [not_in|]); constructor].

Lemma metadata_text_WellFormed : WellFormed metadata_text.
Proof.
  unfold WellFormed.
  replace (bufio.ScanLines metadata_text)
    with [str "# CC-CEDICT"; str "#! version=123"; str "#! entries=4";
          str "% % [pa1] /percent (Tw)/";
          str "21三體綜合症 21三体综合症 [er4 shi2 yi1 san1 ti3 zong1 he2 zheng4] /trisomy/Down's syndrome/";
          str "3C 3C [san1 C] /abbr. for computers, communications, and consumer electronics/China Compulsory Certificate (CCC)/";
          str "3P 3P [san1 P] /(slang) threesome/"]
    by (by vm_compute).
  repeat (apply List.Forall_cons); [..|apply List.Forall_nil];
    (split; [not_in|]); (split; [by vm_compute|]).
  - by left.
  - by left.
  - by left.
  - is_entry "%" "%" "pa1" ["percent (Tw)"]%string.
  - is_entry "21三體綜合症" "21三体综合症" "er4 shi2 yi1 san1 ti3 zong1 he2 zheng4"
             ["trisomy"; "Down's syndrome"]%string.
  - is_entry "3C" "3C" "san1 C"
             ["abbr. for computers, communications, and consumer electronics";
              "China Compulsory Certificate (CCC)"]%string.
  - is_entry "3P" "3P" "san1 P" ["(slang) threesome"]%string.
Qed.

Lemma Parse_Save_roundtrip_witness :
  Save (setReady {| d_e := p_e metadata_state; d_md := p_md metadata_state;
                    d_ready := false; d_header := p_header metadata_state;
                    d_err := None |})
  = Join (p_header metadata_state ++ map Marshal (p_e metadata_state)) LineEnding
  /\ bufio.ScanLines
       (Save (setReady {| d_e := p_e metadata_state; d_md := p_md metadata_state;
                          d_ready := false; d_header := p_header metadata_state;
                          d_err := None |}))
     = p_header metadata_state ++ map Marshal (p_e metadata_state)
  /\ Parse (Save (setReady {| d_e := p_e metadata_state; d_md := p_md metadata_state;
                              d_ready := false; d_header := p_header metadata_state;
                              d_err := None |}))
     = Ok (setReady {| d_e := p_e metadata_state; d_md := p_md metadata_state;
                       d_ready := false; d_header := p_header metadata_state;
                       d_err := None |}).
Proof.
  apply (Parse_Save_roundtrip metadata_text).
  - exact metadata_text_WellFormed.
  - reflexivity.
Defined.

(** ** Lookup by pinyin *)

Lemma existsb_byte_eqb c chars : existsb (byte_eqb c) chars = true <-> In c chars.
Proof.
  rewrite existsb_exists. split.
  - intros (x & Hx & E). by apply byte_eqb_eq in E as ->.
  - intros H. exists c. split; [done | apply byte_eqb_refl].
Qed.

(** [IndexAny] is negative exactly when no byte of the set occurs. *)
Lemma IndexAny_neg s chars :
  (IndexAny s chars < 0)%Z <-> Forall (fun b => ~ In b chars) s.
Proof.
  induction s as [|c s IH]; cbn [IndexAny].
  - split; [constructor | lia].
  - destruct (existsb (byte_eqb c) chars) eqn:E.
    + apply existsb_byte_eqb in E. split; [lia|].
      intros H. apply Forall_cons in H as [H _]. done.
    + assert (Hc : ~ In c chars).
      { intros H. apply existsb_byte_eqb in H. congruence. }
      destruct (Z.ltb_spec (IndexAny s chars) 0) as [Hlt|Hge].
      * split; [|lia]. intros _. constructor; [done | by apply IH].
      * split; [lia|]. intros H. apply Forall_cons in H as [_ H].
        apply IH in H. lia.
Qed.

Lemma string_eqb_eq a b : string_eqb a b = true <-> a = b.
Proof. unfold string_eqb. apply bool_decide_eq_true. Qed.

Lemma scalar_not_digit `{L : Lib} r :
  unicode_IsDigit RuneError = false ->
  unicode_IsDigit r = false -> unicode_IsDigit (scalar r) = false.
Proof. unfold scalar. by destruct (utf8.ValidRune r). Qed.

Lemma filter_none {A} (f : A -> bool) l :
  (forall x, In x l -> f x = false) -> List.filter f l = [].
Proof.
  induction l as [|x l IH]; intros H; [done|]. cbn.
  rewrite (H x) by (by left). apply IH. intros y Hy. apply H. by right.
Qed.

Section Pinyin.
Context `{L : Lib}.

(** [StripDigits] leaves no digit behind, when composition makes none. *)
Lemma StripDigits_no_digit s :
  unicode_IsDigit RuneError = false ->
  (forall rs, Forall (fun r => unicode_IsDigit r = false) rs ->
              Forall (fun r => unicode_IsDigit r = false) (norm_NFC rs)) ->
  Forall (fun r => unicode_IsDigit r = false) (runes (StripDigits s)).
Proof.
  intros Herr Hnfc. unfold StripDigits.
  rewrite <- (app_nil_r (string_of_runes _)), runes_string_of_runes_app.
  change (runes []) with (@nil rune). rewrite app_nil_r.
  apply Forall_map.
  eapply Forall_impl; [apply Hnfc|].
  - apply Forall_forall. intros r Hr. by apply list_elem_of_filter in Hr as [Hr _].
  - intros r Hr. by apply scalar_not_digit.
Qed.

(** C5 (as amended): the query is turned into numbered tones; it is
    plaintext exactly when that form has none of the bytes 1 to 5, so a
    query whose only digits lie outside 1 to 5, such as zhong6, is
    plaintext too.  Query and stored pinyin are lowercased and lose
    their spaces, a plaintext query is compared with the stored pinyin
    stripped of its digits, any other with the stored pinyin as it is.
    The result holds exactly the matching entries, each once, ascending
    by raw stored pinyin, entries of equal pinyin in dictionary order.
    A plaintext query that still holds a digit matches no entry. *)
Theorem GetByPinyin_matching (d : Dict) (query : gostring) :
  let s := PinyinToneNums query in
  let isPlaintext := bool_decide (Forall (fun b => ~ In b toneNums) s) in
  let q := ReplaceAll (ToLower s) (str " ") [] in
  let matching :=
    List.filter (fun pe => pinyin_matches isPlaintext q (snd pe)) (pointers d) in
  let results := GetByPinyin d query in
  (forall e, pinyin_matches isPlaintext q e = true <->
             (if isPlaintext
              then StripDigits (ReplaceAll (ToLower (Pinyin e)) (str " ") [])
              else ReplaceAll (ToLower (Pinyin e)) (str " ") []) = q)
  /\ Permutation results matching
  /\ NoDup (map fst results)
  /\ StronglySorted
       (fun a b => string_ltb (Pinyin (snd b)) (Pinyin (snd a)) = false) results
  /\ (forall p,
        List.filter (fun pe => bool_decide (Pinyin (snd pe) = p)) results
        = List.filter (fun pe => bool_decide (Pinyin (snd pe) = p)) matching)
  /\ (unicode_IsDigit RuneError = false ->
      (forall rs, Forall (fun r => unicode_IsDigit r = false) rs ->
                  Forall (fun r => unicode_IsDigit r = false) (norm_NFC rs)) ->
      isPlaintext = true ->
      Exists (fun r => unicode_IsDigit r = true) (runes q) ->
      results = []).
Proof.
  intros s isPlaintext q matching results.
  assert (Hplain : (IndexAny s toneNums <? 0)%Z = isPlaintext).
  { unfold isPlaintext. destruct (Z.ltb_spec (IndexAny s toneNums) 0) as [H|H].
    - symmetry. apply bool_decide_eq_true. by apply IndexAny_neg.
    - symmetry. apply bool_decide_eq_false. intros H'. apply IndexAny_neg in H'. lia. }
  assert (Hres : results
                 = SliceStable matching
                     (less_by (fun pe : nat * Entry => Pinyin (snd pe)) string_ltb)).
  { unfold results, GetByPinyin. fold s. rewrite Hplain. reflexivity. }
  assert (Hmatch : forall e, pinyin_matches isPlaintext q e = true <->
             (if isPlaintext
              then StripDigits (ReplaceAll (ToLower (Pinyin e)) (str " ") [])
              else ReplaceAll (ToLower (Pinyin e)) (str " ") []) = q).
  { intros e. unfold pinyin_matches. rewrite string_eqb_eq. by destruct isPlaintext. }
  split; [exact Hmatch|].
  split; [rewrite Hres; apply SliceStable_perm|].
  split.
  { rewrite Hres, SliceStable_perm. apply filter_NoDup_fst, pointers_NoDup. }
  split.
  { rewrite Hres.
    apply (SliceStable_sorted (fun pe : nat * Entry => Pinyin (snd pe)) string_ltb
             string_ltb_irrefl string_ltb_trans string_ltb_total). }
  split.
  { intros p. rewrite Hres.
    apply (SliceStable_stable (fun pe : nat * Entry => Pinyin (snd pe)) string_ltb
             string_ltb_irrefl). }
  intros Herr Hnfc Hp Hq. rewrite Hres.
  replace matching with (@nil (nat * Entry)); [done|].
  symmetry. apply filter_none. intros [i e] _. cbn [snd].
  destruct (pinyin_matches isPlaintext q e) eqn:E; [exfalso|done].
  apply Hmatch in E. rewrite Hp in E.
  pose proof (StripDigits_no_digit (ReplaceAll (ToLower (Pinyin e)) (str " ") [])
                Herr Hnfc) as Hnd.
  rewrite E in Hnd. apply Exists_exists in Hq as (r & Hr & Hd).
  rewrite List.Forall_forall in Hnd. apply list_elem_of_In in Hr.
  specialize (Hnd r Hr). congruence.
Qed.

End Pinyin.

(** The composition tables of [golib] hold no digit. *)
Lemma golib_decompositions_no_digit :
  Forall (fun p => golib.in_ranges golib.Digit (fst p) = false
                   /\ golib.in_ranges golib.Digit (fst (snd p)) = false
                   /\ golib.in_ranges golib.Digit (snd (snd p)) = false)
         golib.decompositions.
Proof.
  assert (H : forallb (fun p => negb (golib.in_ranges golib.Digit (fst p))
                                && negb (golib.in_ranges golib.Digit (fst (snd p)))
                                && negb (golib.in_ranges golib.Digit (snd (snd p))))
                      golib.decompositions = true) by (by vm_compute).
  rewrite forallb_forall in H. apply List.Forall_forall. intros p Hp.
  specialize (H p Hp). apply andb_true_iff in H as [H H3].
  apply andb_true_iff in H as [H1 H2].
  apply negb_true_iff in H1, H2, H3. done.
Qed.

Lemma golib_NFD_no_digit rs :
  Forall (fun r => golib.in_ranges golib.Digit r = false) rs ->
  Forall (fun r => golib.in_ranges golib.Digit r = false) (golib.NFD rs).
Proof.
  assert (Hdec : forall r a m, golib.decompose1 r = Some (a, m) ->
            golib.in_ranges golib.Digit a = false
            /\ golib.in_ranges golib.Digit m = false).
  { intros r a m. unfold golib.decompose1.
    destruct (find _ golib.decompositions) as [p|] eqn:E; [|done].
    cbn. intros [= Hp]. apply find_some in E as [E _].
    pose proof golib_decompositions_no_digit as H.
    rewrite List.Forall_forall in H. destruct (H p E) as (_ & Ha & Hm).
    rewrite Hp in Ha, Hm. done. }
  unfold golib.NFD. induction 1 as [|r rs Hr _ IH]; cbn [map concat]; [constructor|].
  apply Forall_app. split; [|exact IH].
  unfold golib.NFD_rune. destruct (golib.decompose1 r) as [[a m]|] eqn:E1.
  - destruct (Hdec _ _ _ E1) as [Ha Hm].
    destruct (golib.decompose1 a) as [[a' m']|] eqn:E2.
    + destruct (Hdec _ _ _ E2) as [Ha' Hm']. by repeat constructor.
    + by repeat constructor.
  - by repeat constructor.
Qed.

Lemma golib_compose_no_digit rs : forall cur pending,
  Forall (fun r => golib.in_ranges golib.Digit r = false)
         (match cur with Some c => c :: pending | None => pending end) ->
  Forall (fun r => golib.in_ranges golib.Digit r = false) rs ->
  Forall (fun r => golib.in_ranges golib.Digit r = false) (golib.compose cur pending rs).
Proof.
  assert (Hcomp : forall a b c, golib.compose1 a b = Some c ->
            golib.in_ranges golib.Digit c = false).
  { intros a b c. unfold golib.compose1.
    destruct (find _ golib.decompositions) as [p|] eqn:E; [|done].
    cbn. intros [= <-]. apply find_some in E as [E _].
    pose proof golib_decompositions_no_digit as H.
    rewrite List.Forall_forall in H. by destruct (H p E) as (? & _). }
  induction rs as [|r rs IH]; intros cur pending Hf Hrs; cbn [golib.compose]; [done|].
  apply Forall_cons in Hrs as [Hr Hrs].
  destruct (golib.is_mark r).
  - destruct cur as [c|].
    + destruct pending as [|p pending].
      * destruct (golib.compose1 c r) as [c'|] eqn:E.
        -- apply IH; [|done]. constructor; [by eapply Hcomp | constructor].
        -- apply IH; [|done]. apply Forall_cons in Hf as [Hc _]. by repeat constructor.
      * apply IH; [|done]. apply Forall_cons in Hf as [Hc Hp].
        constructor; [done|]. apply Forall_app. split; [done | by repeat constructor].
    + apply IH; [|done]. apply Forall_app. split; [done | by repeat constructor].
  - apply Forall_app. split; [done|]. apply IH; [by repeat constructor | done].
Qed.

Lemma golib_NFC_no_digit rs :
  Forall (fun r => golib.in_ranges golib.Digit r = false) rs ->
  Forall (fun r => golib.in_ranges golib.Digit r = false) (golib.NFC rs).
Proof.
  intros H. unfold golib.NFC. apply golib_compose_no_digit; [constructor|].
  by apply golib_NFD_no_digit.
Qed.

(** C5 (as stated) fails: the query zhong6 carries a digit and is equal,
    once normalised, to the stored pinyin of the entry, yet it is taken
    for plaintext, the stored pinyin is stripped of its digit before the
    comparison, and the entry is not found. *)
Lemma digit_6_is_no_tone_digit :
  let s := PinyinToneNums (str "zhong6") in
  let e := {| Traditional := str "中"; Simplified := str "中";
              Pinyin := str "zhong6"; Meanings := [str "middle"] |} in
  d_e tone6_dict = [e]
  /\ s = str "zhong6"
  /\ ReplaceAll (ToLower (Pinyin e)) (str " ") [] = ReplaceAll (ToLower s) (str " ") []
  /\ pinyin_matches false (ReplaceAll (ToLower s) (str " ") []) e = true
  /\ GetByPinyin tone6_dict (str "zhong6") = [].
Proof. repeat split; vm_compute; reflexivity. Qed.

Lemma GetByPinyin_matching_witness :
  GetByPinyin tone6_dict (str "zhong6") = [].
Proof.
  pose proof (GetByPinyin_matching tone6_dict (str "zhong6")) as H.
  cbv zeta in H. destruct H as (_ & _ & _ & _ & _ & H).
  apply H.
  - reflexivity.
  - exact golib_NFC_no_digit.
  - by vm_compute.
  - vm_compute. do 5 apply Exists_cons_tl. apply Exists_cons_hd. reflexivity.
Defined.

(** ** Transliteration of a sentence *)

(** The turns of the segmentation loop. *)
Lemma segment_match `{L : Lib} lookup fuel r rest p e k :
  unicode_Han r = true ->
  longest_match lookup (r :: rest) (length (r :: rest)) = Some (e, k) ->
  segment lookup (S fuel) (r :: rest) p
  = segment lookup fuel (drop k (r :: rest)) (p ++ Pinyin e ++ str " ").
Proof. intros Hr Hm. cbn [segment]. by rewrite Hr, Hm. Qed.

Lemma segment_no_match `{L : Lib} lookup fuel r rest p :
  unicode_Han r = true ->
  longest_match lookup (r :: rest) (length (r :: rest)) = None ->
  segment lookup (S fuel) (r :: rest) p
  = segment lookup fuel rest (p ++ string_of_runes [r]).
Proof. intros Hr Hm. cbn [segment]. by rewrite Hr, Hm. Qed.

Lemma segment_other `{L : Lib} lookup fuel r rest p :
  unicode_Han r = false ->
  segment lookup (S fuel) (r :: rest) p
  = segment lookup fuel
      (drop_while (fun r => negb (unicode_Han r)) (r :: rest))
      (p ++ string_of_runes (take_while (fun r => negb (unicode_Han r)) (r :: rest))
         ++ str " ").
Proof. intros Hr. cbn [segment]. by rewrite Hr. Qed.

(** The segmentation loop on 我的大王!, for any lookup that knows the
    three words and none of the longer keys. *)
Lemma segment_wo_de_da_wang (lookup : gostring -> option Entry) (e1 e2 e3 : Entry) :
  lookup (str "我") = Some e1 -> lookup (str "的") = Some e2 ->
  lookup (str "大王") = Some e3 ->
  (forall key, In key longer_keys -> lookup key = None) ->
  segment lookup 5 (runes (str "我的大王!")) []
  = Some (Pinyin e1 ++ str " " ++ Pinyin e2 ++ str " " ++ Pinyin e3 ++ str " "
          ++ str "! ").
Proof.
  intros H1 H2 H3 Hnone.
  assert (N1 := Hnone (str "我的大王!") ltac:(cbn; tauto)).
  assert (N2 := Hnone (str "我的大王") ltac:(cbn; tauto)).
  assert (N3 := Hnone (str "我的大") ltac:(cbn; tauto)).
  assert (N4 := Hnone (str "我的") ltac:(cbn; tauto)).
  assert (N5 := Hnone (str "的大王!") ltac:(cbn; tauto)).
  assert (N6 := Hnone (str "的大王") ltac:(cbn; tauto)).
  assert (N7 := Hnone (str "的大") ltac:(cbn; tauto)).
  assert (N8 := Hnone (str "大王!") ltac:(cbn; tauto)).
  clear Hnone.
  change (runes (str "我的大王!")) with [0x6211; 0x7684; 0x5927; 0x738B; 0x21]%Z.
  rewrite (segment_match lookup 4 _ _ _ e1 1); [|reflexivity|].
  2:{ cbn [longest_match length].
      rewrite (N1 : lookup (string_of_runes (take 5 [0x6211; 0x7684; 0x5927; 0x738B; 0x21]%Z)) = None).
      rewrite (N2 : lookup (string_of_runes (take 4 [0x6211; 0x7684; 0x5927; 0x738B; 0x21]%Z)) = None).
      rewrite (N3 : lookup (string_of_runes (take 3 [0x6211; 0x7684; 0x5927; 0x738B; 0x21]%Z)) = None).
      rewrite (N4 : lookup (string_of_runes (take 2 [0x6211; 0x7684; 0x5927; 0x738B; 0x21]%Z)) = None).
      by rewrite (H1 : lookup (string_of_runes (take 1 [0x6211; 0x7684; 0x5927; 0x738B; 0x21]%Z)) = Some e1). }
  cbn [drop].
  rewrite (segment_match lookup 3 _ _ _ e2 1); [|reflexivity|].
  2:{ cbn [longest_match length].
      rewrite (N5 : lookup (string_of_runes (take 4 [0x7684; 0x5927; 0x738B; 0x21]%Z)) = None).
      rewrite (N6 : lookup (string_of_runes (take 3 [0x7684; 0x5927; 0x738B; 0x21]%Z)) = None).
      rewrite (N7 : lookup (string_of_runes (take 2 [0x7684; 0x5927; 0x738B; 0x21]%Z)) = None).
      by rewrite (H2 : lookup (string_of_runes (take 1 [0x7684; 0x5927; 0x738B; 0x21]%Z)) = Some e2). }
  cbn [drop].
  rewrite (segment_match lookup 2 _ _ _ e3 2); [|reflexivity|].
  2:{ cbn [longest_match length].
      rewrite (N8 : lookup (string_of_runes (take 3 [0x5927; 0x738B; 0x21]%Z)) = None).
      by rewrite (H3 : lookup (string_of_runes (take 2 [0x5927; 0x738B; 0x21]%Z)) = Some e3). }
  cbn [drop].
  rewrite segment_other by reflexivity.
  change (drop_while _ [0x21%Z]) with (@nil rune).
  change (string_of_runes (take_while _ [0x21%Z])) with (str "!").
  cbn [segment]. by rewrite <- !app_assoc.
Qed.

(** C8: with a dictionary in which the first entry for 我 reads wo3,
    the first for 的 reads de5 and the first for 大王 reads da4 wang2,
    and which has none of the longer keys the greedy match probes
    before them, the sentence 我的大王！ is segmented into these three
    words, the full-width mark is written as an ASCII one, only the
    first letter is raised: [HanziToPinyin] gives Wo3 de5 da4 wang2 !,
    [PinyinTones] renders the tones and the neutral tone 5 as no mark,
    and [FixSymbolSpaces] removes the space before the mark. *)
Theorem HanziToPinyin_wo_de_da_wang (d : Dict) (e1 e2 e3 : Entry) :
  GetByHanzi d (str "我") = Some e1 -> Pinyin e1 = str "wo3" ->
  GetByHanzi d (str "的") = Some e2 -> Pinyin e2 = str "de5" ->
  GetByHanzi d (str "大王") = Some e3 -> Pinyin e3 = str "da4 wang2" ->
  (forall key, In key longer_keys -> GetByHanzi d key = None) ->
  HanziToPinyin d (str "我的大王！") = Ok (str "Wo3 de5 da4 wang2 !")
  /\ PinyinTones (str "Wo3 de5 da4 wang2 !") = Ok (str "Wǒ de dà wáng !")
  /\ FixSymbolSpaces (str "Wǒ de dà wáng !") = str "Wǒ de dà wáng!"
  /\ (result ← HanziToPinyin d (str "我的大王！");
      result ← PinyinTones result;
      Ok (FixSymbolSpaces result)) = Ok (str "Wǒ de dà wáng!").
Proof.
  intros H1 P1 H2 P2 H3 P3 Hnone.
  assert (Hh : HanziToPinyin d (str "我的大王！") = Ok (str "Wo3 de5 da4 wang2 !")).
  { unfold HanziToPinyin, HanziToPinyin_with.
    change (TrimSpace (str "我的大王！")) with (str "我的大王！").
    change (len (str "我的大王！") =? 0)%Z with false. cbv iota.
    change (ConvertSymbols (str "我的大王！")) with (str "我的大王!").
    change (length (runes (str "我的大王!"))) with 5%nat.
    rewrite (segment_wo_de_da_wang (GetByHanzi d) e1 e2 e3 H1 H2 H3 Hnone).
    rewrite P1, P2, P3. reflexivity. }
  assert (Ht : PinyinTones (str "Wo3 de5 da4 wang2 !") = Ok (str "Wǒ de dà wáng !"))
    by reflexivity.
  assert (Hf : FixSymbolSpaces (str "Wǒ de dà wáng !") = str "Wǒ de dà wáng!")
    by reflexivity.
  repeat split; try done.
  rewrite Hh. cbn [mbind result_bind]. rewrite Ht. cbn [mbind result_bind].
  by rewrite Hf.
Qed.

Lemma HanziToPinyin_wo_de_da_wang_witness :
  HanziToPinyin wang_dict (str "我的大王！") = Ok (str "Wo3 de5 da4 wang2 !")
  /\ PinyinTones (str "Wo3 de5 da4 wang2 !") = Ok (str "Wǒ de dà wáng !")
  /\ FixSymbolSpaces (str "Wǒ de dà wáng !") = str "Wǒ de dà wáng!"
  /\ (result ← HanziToPinyin wang_dict (str "我的大王！");
      result ← PinyinTones result;
      Ok (FixSymbolSpaces result)) = Ok (str "Wǒ de dà wáng!").
Proof.
  apply (HanziToPinyin_wo_de_da_wang wang_dict
           {| Traditional := str "我"; Simplified := str "我";
              Pinyin := str "wo3"; Meanings := [str "I"; str "me"; str "my"] |}
           {| Traditional := str "的"; Simplified := str "的";
              Pinyin := str "de5"; Meanings := [str "of"] |}
           {| Traditional := str "大王"; Simplified := str "大王";
              Pinyin := str "da4 wang2"; Meanings := [str "king"] |});
    try reflexivity.
  intros key Hkey. cbn in Hkey.
  repeat (destruct Hkey as [<-|Hkey]; [reflexivity|]). destruct Hkey.
Defined.

(** ** The tone codec *)

Section Ascii.
Local Open Scope Z_scope.

(** Strings of ASCII bytes: a byte is a code point. *)
Lemma decode_ascii_all s :
  Forall (fun b => b2z b < RuneSelf) s ->
  utf8.decode s = map (fun b => (b2z b, [b])) s.
Proof.
  induction 1 as [|b s Hb _ IH]; [done|].
  rewrite decode_ascii by exact Hb. cbn [map]. by rewrite IH.
Qed.

Lemma runes_ascii s :
  Forall (fun b => b2z b < RuneSelf) s -> runes s = map b2z s.
Proof.
  intros H. unfold runes. rewrite decode_ascii_all by done.
  rewrite map_map. done.
Qed.

Lemma EncodeRune_ascii b : b2z b < RuneSelf -> utf8.EncodeRune (b2z b) = [b].
Proof.
  intros H. unfold utf8.EncodeRune. pose proof (b2z_range b). unfold RuneSelf in H.
  replace ((0 <=? b2z b) && (b2z b <? 128)) with true by (symmetry; apply andb_true_iff; lia).
  by rewrite z2b_b2z.
Qed.

Lemma string_of_runes_ascii s :
  Forall (fun b => b2z b < RuneSelf) s -> string_of_runes (map b2z s) = s.
Proof.
  unfold string_of_runes. induction 1 as [|b s Hb _ IH]; [done|].
  cbn [map concat]. rewrite EncodeRune_ascii by done. cbn. by rewrite IH.
Qed.

End Ascii.

(** ** Searching bytes *)

Lemma in_split_first (c : byte) s :
  In c s -> exists pre post, s = pre ++ c :: post /\ ~ In c pre.
Proof.
  induction s as [|x s IH]; [done|]. intros Hin.
  destruct (decide (x = c)) as [->|Hne].
  - exists [], s. split; [done | by intros []].
  - destruct Hin as [?|Hin]; [done|].
    destruct (IH Hin) as (pre & post & -> & Hpre).
    exists (x :: pre), post. split; [done|]. intros [?|?]; done.
Qed.

(** [ReplaceAll] of a two-byte pattern whose second byte does not occur. *)
Lemma ReplaceAll_absent s a b new : ~ In b s -> ReplaceAll s [a; b] new = s.
Proof.
  unfold ReplaceAll. induction s as [|c s IH]; intros Hin; [done|].
  cbn [ReplaceAll_from HasPrefix].
  assert (E : HasPrefix s [b] = false).
  { destruct s as [|c' s']; [done|]. apply HasPrefix_cons_ne.
    intros ->. apply Hin. right. by left. }
  rewrite E, andb_false_r. f_equal. apply IH. intros ?. apply Hin. by right.
Qed.

Lemma IndexAny_at pre c post chars :
  Forall (fun b => ~ In b chars) pre -> In c chars ->
  IndexAny (pre ++ c :: post) chars = Z.of_nat (length pre).
Proof.
  intros Hpre Hc. induction Hpre as [|x pre Hx _ IH]; cbn [app IndexAny length].
  - by rewrite (proj2 (existsb_byte_eqb c chars) Hc).
  - destruct (existsb (byte_eqb x) chars) eqn:E.
    { apply existsb_byte_eqb in E. done. }
    rewrite IH. destruct (Z.ltb_spec (Z.of_nat (length pre)) 0); lia.
Qed.

(** The vowel [guessToneIndex] settles on: the first of the list that
    occurs, at its first occurrence. *)
Lemma guessToneIndex_in_miss k vs s :
  (b2z k < RuneSelf)%Z -> ~ In k s ->
  guessToneIndex_in (b2z k :: vs) s = guessToneIndex_in vs s.
Proof.
  intros Hk Hin. cbn [guessToneIndex_in]. unfold IndexRune.
  rewrite EncodeRune_ascii by done. by rewrite Index_byte_none.
Qed.

Lemma guessToneIndex_in_hit k vs pre post :
  (b2z k < RuneSelf)%Z -> Forall (fun b => (b2z b < RuneSelf)%Z) pre -> ~ In k pre ->
  guessToneIndex_in (b2z k :: vs) (pre ++ k :: post) = Z.of_nat (length pre).
Proof.
  intros Hk Hpre Hin. cbn [guessToneIndex_in]. unfold IndexRune.
  rewrite EncodeRune_ascii by done. rewrite Index_byte by done.
  destruct (Z.leb_spec 0 (Z.of_nat (length pre))); [|lia].
  rewrite Nat2Z.id, take_app_length, runes_ascii by done.
  by rewrite length_map.
Qed.

Lemma guessToneIndex_in_found ks rest body tail :
  Forall (fun k => (b2z k < RuneSelf)%Z) ks ->
  Forall (fun b => (b2z b < RuneSelf)%Z) body ->
  Exists (fun k => In k body) ks -> Forall (fun k => ~ In k tail) ks ->
  exists k pre post,
    In k ks /\ body = pre ++ k :: post
    /\ guessToneIndex_in (map b2z ks ++ rest) (body ++ tail) = Z.of_nat (length pre).
Proof.
  intros Hks Hbody. induction Hks as [|k ks Hk _ IH]; intros Hex Htail.
  - by apply Exists_nil in Hex.
  - apply Forall_cons in Htail as [Hkt Htail]. cbn [map app].
    destruct (in_dec ascii_dec k body) as [Hin|Hout].
    + destruct (in_split_first k body Hin) as (pre & post & -> & Hpre).
      exists k, pre, post. split; [by left|]. split; [done|].
      rewrite <- app_assoc. cbn [app]. apply guessToneIndex_in_hit; [done| |done].
      apply Forall_app in Hbody as [? _]. done.
    + apply Exists_cons in Hex as [?|Hex]; [done|].
      destruct (IH Hex Htail) as (k' & pre & post & Hk' & -> & Hg).
      exists k', pre, post. split; [by right|]. split; [done|].
      rewrite guessToneIndex_in_miss; [done | done |].
      intros Hin. apply in_app_or in Hin as [?|?]; done.
Qed.

(** ** The tables *)

(** Every key of [mapToneToNum] lies outside ASCII. *)
Lemma mapToneToNum_ascii r : (r < RuneSelf)%Z -> mapToneToNum !! r = None.
Proof.
  intros Hr. destruct (mapToneToNum !! r) as [m|] eqn:E; [exfalso|done].
  apply elem_of_map_to_list in E.
  assert (H : forallb (fun p : rune * gostring => (RuneSelf <=? fst p)%Z)
                      (map_to_list mapToneToNum) = true) by (by vm_compute).
  rewrite forallb_forall in H. apply list_elem_of_In in E.
  specialize (H _ E). cbn in H. lia.
Qed.

(** The two tables are inverse to each other on the four tones of the
    eight vowels. *)
Lemma tone_tables_all :
  Forall (fun k =>
    Forall (fun n : Z =>
      mapNumToTone !! b2z k = Some (default [] (mapNumToTone !! b2z k))
      /\ default [] (mapNumToTone !! b2z k) !! Z.to_nat n
         = Some (default 0%Z (default [] (mapNumToTone !! b2z k) !! Z.to_nat n))
      /\ mapToneToNum !! default 0%Z (default [] (mapNumToTone !! b2z k) !! Z.to_nat n)
         = Some [k; z2b (49 + n)]
      /\ utf8.ValidRune (default 0%Z (default [] (mapNumToTone !! b2z k) !! Z.to_nat n))
         = true
      /\ IsSpace (default 0%Z (default [] (mapNumToTone !! b2z k) !! Z.to_nat n)) = false
      /\ " "%char ∉ utf8.EncodeRune
                      (default 0%Z (default [] (mapNumToTone !! b2z k) !! Z.to_nat n)))
      [0; 1; 2; 3]%Z) (str "AaEeiOou").
Proof. refine (bool_decide_unpack _ _). vm_compute. exact I. Qed.

Lemma tone_tables k n :
  tone_vowel k = true -> (0 <= n <= 3)%Z ->
  exists tones t,
    mapNumToTone !! b2z k = Some tones /\ tones !! Z.to_nat n = Some t
    /\ mapToneToNum !! t = Some [k; z2b (49 + n)]
    /\ utf8.ValidRune t = true /\ IsSpace t = false
    /\ ~ In " "%char (utf8.EncodeRune t).
Proof.
  intros Hk Hn. apply existsb_byte_eqb in Hk.
  pose proof tone_tables_all as H. rewrite List.Forall_forall in H.
  specialize (H k Hk). rewrite List.Forall_forall in H.
  assert (Hn' : In n [0; 1; 2; 3]%Z) by (cbn; lia).
  destruct (H n Hn') as (H1 & H2 & H3 & H4 & H5 & H6).
  eexists _, _. repeat split; [exact H1 | exact H2 | exact H3 | exact H4 | exact H5 |].
  by rewrite <- list_elem_of_In.
Qed.

Lemma Atoi_tone d :
  In d (str "1234") ->
  Atoi (string_of_runes [b2z d]) = Ok (b2z d - 48)%Z /\ (1 <= b2z d - 48 <= 4)%Z
  /\ z2b (49 + (b2z d - 48 - 1)) = d /\ TrimSpace [d] = [d]
  /\ (b2z d < RuneSelf)%Z /\ IsSpace (b2z d) = false
  /\ tone_vowel d = false /\ In d toneNums /\ d <> ":"%char.
Proof.
  unfold str at 1. cbn [list_ascii_of_string In].
  intros [ <- | [ <- | [ <- | [ <- | [] ] ] ] ];
    repeat split;
    first [ reflexivity | by vm_compute | (vm_compute; tauto) ].
Qed.

(** ** [TrimSpace] around a word *)

Lemma decode_string_of_runes rs rest :
  utf8.decode (string_of_runes rs ++ rest)
  = map (fun r => (scalar r, utf8.EncodeRune r)) rs ++ utf8.decode rest.
Proof.
  unfold string_of_runes. induction rs as [|r rs IH]; [done|].
  cbn [map concat app]. rewrite <- app_assoc, decode_EncodeRune. by rewrite IH.
Qed.

Lemma drop_while_none {A} (f : A -> bool) l :
  Forall (fun x => f x = false) l -> drop_while f l = l.
Proof. destruct 1 as [|x l Hx _]; [done|]. cbn. by rewrite Hx. Qed.

Lemma TrimSpace_word rs :
  Forall (fun r => IsSpace (scalar r) = false) rs ->
  TrimSpace (string_of_runes rs ++ str " ") = string_of_runes rs.
Proof.
  intros H. unfold TrimSpace. rewrite decode_string_of_runes.
  change (utf8.decode (str " ")) with [(32%Z, str " ")].
  set (sp := fun c : rune * gostring => IsSpace (fst c)).
  set (l := map (fun r => (scalar r, utf8.EncodeRune r)) rs).
  assert (Hl : Forall (fun c => sp c = false) l).
  { unfold l. apply Forall_map. eapply Forall_impl; [exact H|]. done. }
  assert (E : rev (drop_while sp (rev (drop_while sp (l ++ [(32%Z, str " ")])))) = l).
  { destruct l as [|a l'] eqn:El; [reflexivity|]. rewrite <- El in *.
    assert (E1 : drop_while sp (l ++ [(32%Z, str " ")]) = l ++ [(32%Z, str " ")]).
    { rewrite El in Hl |- *. apply Forall_cons in Hl as [Ha _].
      cbn [app drop_while]. by rewrite Ha. }
    rewrite E1, rev_app_distr.
    replace (drop_while sp (rev [(32%Z, str " ")] ++ rev l)) with (drop_while sp (rev l))
      by reflexivity.
    rewrite drop_while_none; [apply rev_involutive|]. by apply Forall_rev. }
  rewrite E. unfold l. rewrite map_map. done.
Qed.

(** ** [PinyinToneNums] on ASCII *)

Lemma toneNums_ascii s : forall res tone,
  Forall (fun b => (b2z b < RuneSelf)%Z) s ->
  fold_left toneNums_rune (map b2z s) (res, tone) = (res ++ s, tone).
Proof.
  induction s as [|b s IH]; intros res tone Hs.
  - cbn. by rewrite app_nil_r.
  - apply Forall_cons in Hs as [Hb Hs]. cbn [map fold_left].
    unfold toneNums_rune at 2. rewrite mapToneToNum_ascii by done. cbn [default].
    unfold string_of_runes. cbn [map concat]. rewrite EncodeRune_ascii by done.
    rewrite IH by done. by rewrite <- app_assoc.
Qed.

(** ** A syllable with its tone digit *)

Lemma body_byte_spec b :
  body_byte b = true ->
  (b2z b < RuneSelf)%Z /\ IsSpace (b2z b) = false /\ ~ In b toneNums
  /\ b <> ":"%char /\ b <> " "%char.
Proof.
  unfold body_byte. intros H.
  apply andb_true_iff in H as [H H4]. apply andb_true_iff in H as [H H3].
  apply andb_true_iff in H as [H1 H2].
  apply negb_true_iff in H2, H3, H4.
  repeat split.
  - lia.
  - done.
  - intros Hin. apply existsb_byte_eqb in Hin. congruence.
  - by apply byte_eqb_neq.
  - intros ->. done.
Qed.

Lemma drop_past {A} (pre : list A) x post :
  drop (S (length pre)) (pre ++ x :: post) = post.
Proof. induction pre as [|y pre IH]; [done | exact IH]. Qed.

Lemma scalar_ascii r : (0 <= r < RuneSelf)%Z -> scalar r = r.
Proof.
  intros H. apply scalar_valid. unfold utf8.ValidRune, RuneSelf in *.
  apply orb_true_iff. left. apply andb_true_iff. lia.
Qed.

(** One turn of the loop of [PinyinTones] on a syllable that ends in a
    tone digit: the mark goes on the vowel of highest priority. *)
Lemma tones_word_syllable body d :
  Forall (fun b => body_byte b = true) body ->
  Exists (fun b => tone_vowel b = true) body ->
  In d (str "1234") ->
  exists pre k post t,
    body = pre ++ k :: post
    /\ mapToneToNum !! t = Some [k; d]
    /\ utf8.ValidRune t = true /\ IsSpace t = false
    /\ ~ In " "%char (utf8.EncodeRune t)
    /\ tones_word (body ++ [d]) = Ok (pre ++ utf8.EncodeRune t ++ post ++ str " ").
Proof.
  intros Hbody Hvowel Hd.
  destruct (Atoi_tone d Hd) as (Hatoi & Hrange & Hz2b & _ & _ & _ & Hdv & Hdt & _).
  assert (Hascii : Forall (fun b => (b2z b < RuneSelf)%Z) body).
  { eapply Forall_impl; [exact Hbody|]. intros b Hb.
    by destruct (body_byte_spec b Hb) as (? & _). }
  assert (Hnum : Forall (fun b => ~ In b toneNums) body).
  { eapply Forall_impl; [exact Hbody|]. intros b Hb.
    by destruct (body_byte_spec b Hb) as (_ & _ & ? & _). }
  (* the vowel *)
  destruct (guessToneIndex_in_found (str "AaEeiOou") [252%Z; 114%Z] body [d])
    as (k & pre & post & Hk & Hsplit & Hg).
  { by_decide. }
  { exact Hascii. }
  { apply Exists_exists in Hvowel as (b & Hb & Hbv).
    apply existsb_byte_eqb in Hbv. apply Exists_exists. exists b.
    split; [by apply list_elem_of_In | by apply list_elem_of_In]. }
  { apply List.Forall_forall. intros k Hk [ <- | [] ].
    apply existsb_byte_eqb in Hk. unfold tone_vowel in Hdv. congruence. }
  assert (Hkv : tone_vowel k = true) by (by apply existsb_byte_eqb).
  destruct (tone_tables k (b2z d - 48 - 1) Hkv ltac:(lia))
    as (tones & t & Htones & Ht & Hback & Hvalid & Hsp & Hnosp).
  rewrite Hz2b in Hback.
  exists pre, k, post, t. repeat split; try done.
  unfold tones_word, guessToneIndex.
  change (runes vowels) with (map b2z (str "AaEeiOou") ++ [252%Z; 114%Z]).
  rewrite Hg.
  destruct (Z.ltb_spec (Z.of_nat (length pre)) 0) as [?|_]; [lia|].
  rewrite (IndexAny_at body d [] toneNums Hnum Hdt).
  destruct (Z.ltb_spec (Z.of_nat (length body)) 0) as [?|_]; [lia|].
  assert (Hidx : index (body ++ [d]) (Z.of_nat (length body)) = Ok d).
  { unfold index. destruct (Z.leb_spec 0 (Z.of_nat (length body))); [|lia].
    by rewrite Nat2Z.id, list_lookup_middle. }
  rewrite Hidx. cbn [mbind result_bind]. rewrite Hatoi.
  replace ((b2z d - 48 - 1 <? 0)%Z
           || (Z.of_nat (size mapNumToTone) <=? b2z d - 48 - 1)%Z) with false.
  2:{ symmetry. apply orb_false_iff.
      change (size mapNumToTone) with 10%nat.
      split; [apply Z.ltb_ge | apply Z.leb_gt]; lia. }
  rewrite slice_ok by (rewrite ?length_app; cbn; lia).
  cbn [mbind result_bind].
  unfold slice_from. rewrite slice_ok by (rewrite ?length_app; cbn; lia).
  cbn [mbind result_bind].
  replace (Z.to_nat (Z.of_nat (length body) - 0)) with (length body) by lia.
  change (Z.to_nat 0) with 0%nat. rewrite drop_0, take_app_length.
  replace (Z.to_nat (Z.of_nat (length (body ++ [d])) - (Z.of_nat (length body) + 1)))
    with 0%nat by (rewrite length_app; cbn; lia).
  rewrite take_0, app_nil_r.
  rewrite runes_ascii by done. rewrite Hsplit, map_app. cbn [map].
  assert (Hk' : index (map b2z pre ++ b2z k :: map b2z post) (Z.of_nat (length pre))
                = Ok (b2z k)).
  { unfold index. destruct (Z.leb_spec 0 (Z.of_nat (length pre))); [|lia].
    rewrite Nat2Z.id, list_lookup_middle; [done | by rewrite length_map]. }
  rewrite Hk'. cbn [mbind result_bind].
  rewrite (slice_ok (map b2z pre ++ b2z k :: map b2z post) 0 (Z.of_nat (length pre)))
    by (rewrite ?length_app, ?length_map; cbn [length]; lia).
  cbn [mbind result_bind]. rewrite Htones. cbn [default from_option id].
  assert (Ht' : index tones (b2z d - 48 - 1) = Ok t).
  { unfold index. destruct (Z.leb_spec 0 (b2z d - 48 - 1)); [|lia]. by rewrite Ht. }
  rewrite Ht'. cbn [mbind result_bind].
  rewrite (slice_ok (map b2z pre ++ b2z k :: map b2z post) (Z.of_nat (length pre) + 1))
    by (rewrite ?length_app, ?length_map; cbn [length]; lia).
  cbn [mbind result_bind].
  replace (Z.to_nat (Z.of_nat (length pre) - 0)) with (length (map b2z pre))
    by (rewrite length_map; lia).
  change (Z.to_nat 0) with 0%nat. rewrite drop_0, take_app_length.
  replace (Z.to_nat (Z.of_nat (length pre) + 1)) with (S (length (map b2z pre)))
    by (rewrite length_map; lia).
  rewrite drop_past.
  rewrite take_ge
    by (rewrite ?length_app, ?length_map; cbn [length]; rewrite ?length_map; lia).
  rewrite Hsplit in Hascii. apply Forall_app in Hascii as [Hpre Hpost].
  apply Forall_cons in Hpost as [_ Hpost].
  rewrite !string_of_runes_ascii by done.
  unfold string_of_runes. cbn [map concat]. by rewrite app_nil_r.
Qed.

(** C3 (as amended): a syllable written with ASCII bytes other than
    white space, the colon and the digits 1 to 5, holding at least one
    of the vowels A a E e i O o u, and followed by one tone digit 1 to
    4, is rendered by [PinyinTones] without panic, and [PinyinToneNums]
    gives the numbered syllable back. *)
Theorem PinyinToneNums_PinyinTones (body : gostring) (d : byte) :
  Forall (fun b => body_byte b = true) body ->
  Exists (fun b => tone_vowel b = true) body ->
  In d (str "1234") ->
  exists toned,
    PinyinTones (body ++ [d]) = Ok toned /\ PinyinToneNums toned = body ++ [d].
Proof.
  intros Hbody Hvowel Hd.
  destruct (tones_word_syllable body d Hbody Hvowel Hd)
    as (pre & k & post & t & Hsplit & Hback & Hvalid & Hsp & Hnosp & Hword).
  destruct (Atoi_tone d Hd) as (_ & _ & _ & Htrim & Hda & Hds & _ & _ & Hdc).
  assert (Hfacts : Forall (fun b => (b2z b < RuneSelf)%Z /\ IsSpace (b2z b) = false
                                    /\ b <> ":"%char /\ b <> " "%char) body).
  { eapply Forall_impl; [exact Hbody|]. intros b Hb.
    destruct (body_byte_spec b Hb) as (? & ? & _ & ? & ?). done. }
  assert (Hascii : Forall (fun b => (b2z b < RuneSelf)%Z) body).
  { eapply Forall_impl; [exact Hfacts|]. by intros b (? & _). }
  assert (Hnosp_body : ~ In " "%char body).
  { intros Hin. rewrite List.Forall_forall in Hfacts.
    by destruct (Hfacts _ Hin) as (_ & _ & _ & ?). }
  assert (Hword_sp : Forall (fun r => IsSpace (scalar r) = false) (map b2z (body ++ [d]))).
  { apply Forall_map, Forall_app. split.
    - eapply Forall_impl; [exact Hfacts|]. intros b (Hb & Hs & _).
      rewrite scalar_ascii; [done | pose proof (b2z_range b); lia].
    - constructor; [|constructor].
      rewrite scalar_ascii; [done | pose proof (b2z_range d); lia]. }
  pose proof Hascii as Hparts. rewrite Hsplit in Hparts.
  apply Forall_app in Hparts as [Hpre Hpost]. apply Forall_cons in Hpost as [Hk Hpost].
  set (rs := map b2z pre ++ [t] ++ map b2z post).
  assert (Hrs : string_of_runes rs = pre ++ utf8.EncodeRune t ++ post).
  { unfold rs. rewrite !string_of_runes_app, !string_of_runes_ascii by done.
    unfold string_of_runes. cbn [map concat]. by rewrite app_nil_r. }
  assert (Hrs_valid : Forall (fun r => utf8.ValidRune r = true) rs).
  { unfold rs. rewrite <- (runes_ascii pre), <- (runes_ascii post) by done.
    apply Forall_app. split; [apply runes_valid|].
    apply Forall_app. split; [by repeat constructor | apply runes_valid]. }
  assert (Hrs_sp : Forall (fun r => IsSpace (scalar r) = false) rs).
  { rewrite Hsplit in Hfacts. apply Forall_app in Hfacts as [Fpre Fpost].
    apply Forall_cons in Fpost as [_ Fpost].
    unfold rs. apply Forall_app. split; [|apply Forall_app; split].
    - apply Forall_map. eapply Forall_impl; [exact Fpre|]. intros b (Hb & Hs & _).
      rewrite scalar_ascii; [done | pose proof (b2z_range b); lia].
    - constructor; [|constructor]. by rewrite scalar_valid.
    - apply Forall_map. eapply Forall_impl; [exact Fpost|]. intros b (Hb & Hs & _).
      rewrite scalar_ascii; [done | pose proof (b2z_range b); lia]. }
  exists (string_of_runes rs). split.
  - unfold PinyinTones. change (str "u:") with ["u"%char; ":"%char].
    rewrite ReplaceAll_absent.
    2:{ intros Hin. apply in_app_or in Hin as [Hin|[?|[]]]; [|done].
        rewrite List.Forall_forall in Hfacts.
        by destruct (Hfacts _ Hin) as (_ & _ & ? & _). }
    rewrite Split_no_sep.
    2:{ intros Hin. apply in_app_or in Hin as [Hin|[Hin|[]]]; [done|].
        rewrite Hin in Hds. by vm_compute in Hds. }
    cbn [tones_words]. rewrite Hword. cbn [mbind result_bind app].
    rewrite !app_assoc, <- (app_assoc pre), <- Hrs.
    by rewrite TrimSpace_word.
  - unfold PinyinToneNums. rewrite Split_no_sep.
    2:{ rewrite Hrs. rewrite Hsplit in Hnosp_body.
        intros Hin. apply in_app_or in Hin as [Hin|Hin].
        - apply Hnosp_body, in_or_app. by left.
        - apply in_app_or in Hin as [Hin|Hin]; [done|].
          apply Hnosp_body, in_or_app. right. by right. }
    cbn [fold_left]. unfold toneNums_word.
    rewrite runes_string_of_runes by done. unfold rs.
    rewrite !fold_left_app, toneNums_ascii by done. cbn [fold_left app].
    unfold toneNums_rune at 2. rewrite Hback. cbn [default from_option id length].
    change (take (2 - 1) [k; d]) with [k]. change (drop (2 - 1) [k; d]) with [d].
    rewrite Htrim, toneNums_ascii by done.
    replace ((pre ++ [k]) ++ post) with body by (by rewrite Hsplit, <- app_assoc).
    rewrite app_assoc, <- (string_of_runes_ascii (body ++ [d])).
    + by rewrite TrimSpace_word.
    + apply Forall_app. split; [done | by repeat constructor].
Qed.

(** C3 (as stated) fails: the neutral tone digit 5 is dropped and does
    not come back, [ü] comes back as [u:], a lone [r] loses its digit,
    and a digit before the vowel makes [PinyinTones] panic. *)
Lemma tone_5_does_not_come_back :
  PinyinTones (str "a5") = Ok (str "a")
  /\ PinyinToneNums (str "a") = str "a"
  /\ str "a" <> str "a5"
  /\ PinyinTones (str "ü1") = Ok (str "ǖ")
  /\ PinyinToneNums (str "ǖ") = str "u:1"
  /\ PinyinTones (str "r1") = Ok (str "r")
  /\ PinyinToneNums (str "r") = str "r"
  /\ PinyinTones (str "1a") = Panic.
Proof. repeat split; first [ by vm_compute | (vm_compute; reflexivity) ]. Qed.

Lemma PinyinToneNums_PinyinTones_witness :
  exists toned,
    PinyinTones (str "zhong1") = Ok toned /\ PinyinToneNums toned = str "zhong1".
Proof.
  apply (PinyinToneNums_PinyinTones (str "zhong") "1"%char).
  - by_decide.
  - do 2 apply Exists_cons_tl. apply Exists_cons_hd. reflexivity.
  - cbn. tauto.
Defined.

(** * Further properties of the code *)

(** ** The entry codec *)

(** X1: [Unmarshal] reads back what [Marshal] prints for a well-formed
    entry, so two well-formed entries with the same line are equal. *)
Theorem Marshal_Unmarshal_inverse (e e' : Entry) :
  wf_entry e -> wf_entry e' ->
  Unmarshal (Marshal e) = Ok e /\ (Marshal e = Marshal e' -> e = e').
Proof.
  intros He He'. split; [by apply Unmarshal_Marshal|].
  intros Heq. pose proof (Unmarshal_Marshal e He) as H.
  rewrite Heq, (Unmarshal_Marshal e' He') in H. by injection H.
Qed.

Ltac is_wf_entry :=
  split; [is_word|]; split; [is_word|];
  cbn [Pinyin Meanings]; repeat split;
  [not_in | not_in | by_decide | repeat (constructor; [not_in|]); constructor].

Lemma Marshal_Unmarshal_inverse_witness :
  Unmarshal (Marshal {| Traditional := str "中國"; Simplified := str "中国";
                        Pinyin := str "Zhong1 guo2";
                        Meanings := [str "China"; str "Middle Kingdom"] |})
  = Ok {| Traditional := str "中國"; Simplified := str "中国";
          Pinyin := str "Zhong1 guo2";
          Meanings := [str "China"; str "Middle Kingdom"] |}.
Proof.
  apply (Marshal_Unmarshal_inverse
           {| Traditional := str "中國"; Simplified := str "中国";
              Pinyin := str "Zhong1 guo2";
              Meanings := [str "China"; str "Middle Kingdom"] |}
           {| Traditional := str "中國"; Simplified := str "中国";
              Pinyin := str "Zhong1 guo2";
              Meanings := [str "China"; str "Middle Kingdom"] |});
    is_wf_entry.
Defined.

Lemma Index_byte_bound c s : (Index s [c] <= Z.of_nat (length s))%Z.
Proof.
  destruct (Z.le_gt_cases 0 (Index s [c])) as [H|H]; [|lia].
  destruct (Index_byte_inv c s _ eq_refl H) as (_ & _ & Hlt). lia.
Qed.

(** X2: a line whose first field lacks an opening or a closing bracket
    is refused with the bracket error. *)
Theorem Unmarshal_needs_brackets (s : gostring) :
  ~ In "["%char (hd [] (Split s "/"%char)) \/ ~ In "]"%char (hd [] (Split s "/"%char)) ->
  Unmarshal s = Err (errors_New "expected '[pinyin]' format").
Proof.
  intros H. unfold Unmarshal.
  change (str "[") with ["["%char]. change (str "]") with ["]"%char].
  destruct H as [H|H]; rewrite (Index_byte_none _ _ H).
  - reflexivity.
  - by rewrite orb_true_r.
Qed.

Lemma Unmarshal_needs_brackets_witness :
  Unmarshal (str "中國 中国 Zhong1 guo2] /China/")
  = Err (errors_New "expected '[pinyin]' format").
Proof. apply Unmarshal_needs_brackets. left. not_in. Defined.

(** X3: a closing bracket before the first opening bracket makes the
    pinyin slice [fields[0][off+1:end]] run backwards, and [Unmarshal]
    panics. *)
Theorem Unmarshal_bracket_order_panics (s : gostring) :
  let fields0 := hd [] (Split s "/"%char) in
  (0 <= Index fields0 (str "]") < Index fields0 (str "["))%Z ->
  Unmarshal s = Panic.
Proof.
  intros fields0 H. unfold Unmarshal. fold fields0.
  destruct (Z.ltb_spec (Index fields0 (str "[")) 0); [lia|].
  destruct (Z.ltb_spec (Index fields0 (str "]")) 0); [lia|].
  cbn [orb].
  rewrite (slice_ok fields0 0 (Index fields0 (str "["))); [|lia|apply Index_byte_bound].
  cbn [mbind result_bind].
  assert (E : slice fields0 (Index fields0 (str "[") + 1) (Index fields0 (str "]"))
              = Panic).
  { unfold slice.
    destruct (Z.leb_spec (Index fields0 (str "[") + 1) (Index fields0 (str "]")));
      [lia|].
    by rewrite andb_false_r. }
  by rewrite E.
Qed.

Lemma Unmarshal_bracket_order_panics_witness :
  Unmarshal (str "a] b [p] /m/") = Panic.
Proof. apply Unmarshal_bracket_order_panics. by vm_compute. Defined.

(** ** What [Parse] collects *)

Section ParseCollects.
Context `{L : Lib}.

Lemma parse_lines_collects lines : forall st st',
  parse_lines st lines = Ok st' ->
  p_header st' = p_header st ++ List.filter is_comment lines
  /\ exists es, p_e st' = p_e st ++ es
       /\ Forall2 (fun l e => Unmarshal l = Ok e)
                  (List.filter (fun l => negb (is_comment l)) lines) es.
Proof.
  induction lines as [|line lines IH]; intros st st'; cbn [parse_lines List.filter].
  - intros [= <-]. rewrite app_nil_r. split; [done|]. exists [].
    by rewrite app_nil_r.
  - destruct (parse_line st line) as [st1| |] eqn:H1; cbn; try done.
    intros H2. destruct (IH _ _ H2) as (Hh & es & He & Hes).
    destruct (is_comment line) eqn:Hc; cbn [negb].
    + destruct (parse_line_comment _ _ _ Hc H1) as (md & -> & _).
      cbn [p_header p_e] in *. split; [by rewrite Hh, <- app_assoc|].
      by exists es.
    + destruct (parse_line_entry _ _ _ Hc H1) as (e & Hu & ->).
      cbn [p_header p_e] in *. split; [done|].
      exists (e :: es). split; [by rewrite He, <- app_assoc | by constructor].
Qed.

(** X4: the dictionary [Parse] returns holds the comment lines of the
    text as its header, in order, and one entry for every other line,
    in order, each the result of [Unmarshal] on its line; the declared
    entry count is the number of entries, the dictionary is ready and
    carries no error. *)
Theorem Parse_collects (text : gostring) (d : Dict) :
  Parse text = Ok d ->
  d_header d = List.filter is_comment (bufio.ScanLines text)
  /\ Forall2 (fun l e => Unmarshal l = Ok e)
             (List.filter (fun l => negb (is_comment l)) (bufio.ScanLines text)) (d_e d)
  /\ Entries (d_md d) = Z.of_nat (length (d_e d))
  /\ isReady d = true /\ d_err d = None.
Proof.
  unfold Parse.
  destruct (parse_lines p_init (bufio.ScanLines text)) as [st| |] eqn:E; cbn; try done.
  destruct (Z.eqb_spec (Z.of_nat (length (p_e st))) (Entries (p_md st))) as [Hn|];
    cbn; [|done].
  intros [= <-]. cbn.
  destruct (parse_lines_collects _ _ _ E) as (Hh & es & He & Hes).
  cbn in Hh, He. rewrite He in Hn |- *. by rewrite Hh.
Qed.

Lemma parse_lines_plain_comments lines : forall st,
  Forall (fun l => is_comment l = true /\ HasPrefix l (str "#!") = false) lines ->
  parse_lines st lines
  = Ok {| p_header := p_header st ++ lines; p_md := p_md st; p_e := p_e st |}.
Proof.
  induction lines as [|line lines IH]; intros st Hl.
  - cbn. rewrite app_nil_r. by destruct st.
  - apply Forall_cons in Hl as [[Hc Hm] Hl]. cbn [parse_lines].
    unfold parse_line. unfold is_comment in Hc. rewrite Hc, Hm. cbn.
    rewrite IH by done. cbn. by rewrite <- app_assoc.
Qed.

Lemma parse_lines_no_metadata lines : forall st st',
  Forall (fun l => HasPrefix l (str "#!") = false) lines ->
  parse_lines st lines = Ok st' -> p_md st' = p_md st.
Proof.
  induction lines as [|line lines IH]; intros st st' Hl; cbn [parse_lines].
  - by intros [= <-].
  - apply Forall_cons in Hl as [Hm Hl].
    destruct (parse_line st line) as [st1| |] eqn:H1; cbn; try done.
    intros H2. rewrite (IH _ _ Hl H2).
    unfold parse_line in H1. rewrite Hm in H1.
    destruct (HasPrefix line (str "#")).
    + by injection H1 as <-.
    + destruct (Unmarshal line); try done. by injection H1 as <-.
Qed.

(** X5: a text without any [#!] line declares no entries.  It parses
    exactly when all its lines are comments, into a ready dictionary
    with these lines as header, zero metadata and no entry; one entry
    line is enough to make [Parse] fail. *)
Theorem Parse_without_metadata (text : gostring) :
  Forall (fun l => HasPrefix l (str "#!") = false) (bufio.ScanLines text) ->
  (Forall (fun l => is_comment l = true) (bufio.ScanLines text) ->
   Parse text = Ok {| d_e := []; d_md := md_zero; d_ready := true;
                      d_header := bufio.ScanLines text; d_err := None |})
  /\ (forall d, Parse text = Ok d ->
        Forall (fun l => is_comment l = true) (bufio.ScanLines text)).
Proof.
  intros Hm. split.
  - intros Hc. unfold Parse. rewrite parse_lines_plain_comments.
    + reflexivity.
    + rewrite List.Forall_forall in Hm, Hc |- *. intros l Hl. split; auto.
  - intros d Hd. unfold Parse in Hd.
    destruct (parse_lines p_init (bufio.ScanLines text)) as [st| |] eqn:E; cbn in Hd;
      try done.
    pose proof (parse_lines_no_metadata _ _ _ Hm E) as Hmd.
    destruct (parse_lines_collects _ _ _ E) as (_ & es & He & Hes). cbn in He.
    destruct (Z.eqb_spec (Z.of_nat (length (p_e st))) (Entries (p_md st))) as [Hlen|];
      cbn in Hd; [|done].
    rewrite Hmd, He in Hlen. cbn in Hlen.
    destruct es as [|e es]; [|cbn in Hlen; lia].
    apply Forall2_nil_inv_r in Hes.
    apply List.Forall_forall. intros l Hl.
    destruct (is_comment l) eqn:Hc; [done|].
    assert (Hin : In l (List.filter (fun l => negb (is_comment l)) (bufio.ScanLines text))).
    { apply filter_In. split; [done | by rewrite Hc]. }
    rewrite Hes in Hin. destruct Hin.
Qed.

(** X6: a metadata line is cut at its first [=]: in [#! key=value] the
    key is what stands between the three bytes [#! ] and the first
    [=], the value all that follows it, further [=] included; the line
    is added to the header and the pair handed to the [switch]. *)
Theorem metadata_line_key_value (st : parsing) (k v : gostring) :
  ~ In "="%char k ->
  parse_line st (str "#! " ++ k ++ str "=" ++ v)
  = (md ← parse_metadata k v (p_md st);
     Ok {| p_header := p_header st ++ [str "#! " ++ k ++ str "=" ++ v];
           p_md := md; p_e := p_e st |}).
Proof.
  intros Hk. unfold parse_line.
  change (HasPrefix (str "#! " ++ k ++ str "=" ++ v) (str "#")) with true.
  change (HasPrefix (str "#! " ++ k ++ str "=" ++ v) (str "#!")) with true.
  cbv iota.
  assert (Hi : Index (str "#! " ++ k ++ str "=" ++ v) (str "=")
               = Z.of_nat (length (str "#! " ++ k))).
  { rewrite app_assoc. change (str "=" ++ v) with ("="%char :: v).
    apply Index_byte. intros Hin. apply in_app_or in Hin as [Hin|Hin]; [|done].
    cbn in Hin. intuition congruence. }
  rewrite Hi. unfold slice_from.
  rewrite !slice_ok by (rewrite ?length_app; change (length (str "#! ")) with 3%nat;
        change (length (str "=")) with 1%nat; lia).
  cbn [mbind result_bind].
  replace (Z.to_nat (Z.of_nat (length (str "#! " ++ k)) + 1))
    with (S (length (str "#! " ++ k))) by lia.
  assert (E1 : drop (S (length (str "#! " ++ k))) (str "#! " ++ k ++ str "=" ++ v) = v).
  { rewrite app_assoc. change (str "=" ++ v) with ("="%char :: v). apply drop_past. }
  rewrite E1, (take_ge v) by (rewrite ?length_app; change (length (str "#! ")) with 3%nat;
        change (length (str "=")) with 1%nat; lia).
  assert (E2 : take (Z.to_nat (Z.of_nat (length (str "#! " ++ k)) - 3))
                    (drop (Z.to_nat 3) (str "#! " ++ k ++ str "=" ++ v)) = k).
  { replace (Z.to_nat (Z.of_nat (length (str "#! " ++ k)) - 3)) with (length k)
      by (rewrite ?length_app; change (length (str "#! ")) with 3%nat;
        change (length (str "=")) with 1%nat; lia).
    change (drop (Z.to_nat 3) (str "#! " ++ k ++ str "=" ++ v)) with (k ++ str "=" ++ v).
    apply take_app_length. }
  rewrite E2. cbn [p_md].
  destruct (parse_metadata k v (p_md st)); reflexivity.
Qed.

End ParseCollects.

Lemma metadata_line_key_value_witness :
  parse_line p_init (str "#! " ++ str "publisher" ++ str "=" ++ str "MDBG=x")
  = (md ← parse_metadata (str "publisher") (str "MDBG=x") (p_md p_init);
     Ok {| p_header := p_header p_init
                       ++ [str "#! " ++ str "publisher" ++ str "=" ++ str "MDBG=x"];
           p_md := md; p_e := p_e p_init |}).
Proof. apply metadata_line_key_value. not_in. Defined.

Lemma Parse_collects_witness :
  d_header {| d_e := p_e metadata_state; d_md := p_md metadata_state; d_ready := true;
              d_header := p_header metadata_state; d_err := None |}
  = List.filter is_comment (bufio.ScanLines metadata_text)
  /\ Forall2 (fun l e => Unmarshal l = Ok e)
       (List.filter (fun l => negb (is_comment l)) (bufio.ScanLines metadata_text))
       (d_e {| d_e := p_e metadata_state; d_md := p_md metadata_state; d_ready := true;
               d_header := p_header metadata_state; d_err := None |})
  /\ Entries (d_md {| d_e := p_e metadata_state; d_md := p_md metadata_state;
                      d_ready := true; d_header := p_header metadata_state;
                      d_err := None |})
     = Z.of_nat (length (d_e {| d_e := p_e metadata_state; d_md := p_md metadata_state;
                                d_ready := true; d_header := p_header metadata_state;
                                d_err := None |}))
  /\ isReady {| d_e := p_e metadata_state; d_md := p_md metadata_state; d_ready := true;
                d_header := p_header metadata_state; d_err := None |} = true
  /\ d_err {| d_e := p_e metadata_state; d_md := p_md metadata_state; d_ready := true;
              d_header := p_header metadata_state; d_err := None |} = None.
Proof. apply (Parse_collects metadata_text). reflexivity. Defined.

Lemma Parse_without_metadata_witness :
  (Forall (fun l => is_comment l = true) (bufio.ScanLines (str "# CC-CEDICT")) ->
   Parse (str "# CC-CEDICT")
   = Ok {| d_e := []; d_md := md_zero; d_ready := true;
           d_header := bufio.ScanLines (str "# CC-CEDICT"); d_err := None |})
  /\ (forall d, Parse (str "# CC-CEDICT") = Ok d ->
        Forall (fun l => is_comment l = true) (bufio.ScanLines (str "# CC-CEDICT"))).
Proof. apply Parse_without_metadata. by repeat constructor. Defined.

(** ** The barrier in front of the methods *)

Section Barrier.
Context `{L : Lib}.

Lemma Parse_ready text d : Parse text = Ok d -> isReady d = true.
Proof.
  unfold Parse.
  destruct (parse_lines p_init (bufio.ScanLines text)) as [st| |]; cbn; try done.
  destruct (negb _); [done|]. by intros [= <-].
Qed.

(** X7: a dictionary that [Parse] returned is ready: the barrier lets
    every method through without a download, and [Err] reports no
    error. *)
Theorem parsed_dictionary_never_downloads (text : gostring) (d : Dict) (w : World) :
  Parse text = Ok d ->
  lazyLoad d w = Ok (d, w)
  /\ Dict_Err d w = Ok (None, (d, w))
  /\ Dict_Metadata d w = Ok (d_md d, (d, w))
  /\ forall s, Dict_GetByHanzi d w s = Ok (GetByHanzi d s, (d, w)).
Proof.
  intros Hp. pose proof (Parse_ready _ _ Hp) as Hr.
  assert (He : d_err d = None).
  { unfold Parse in Hp.
    destruct (parse_lines p_init (bufio.ScanLines text)) as [st| |]; cbn in Hp; try done.
    destruct (negb _); [done|]. by injection Hp as <-. }
  unfold Dict_Err, Dict_Metadata, Dict_GetByHanzi.
  rewrite (lazyLoad_ready d w Hr). cbn. by rewrite He.
Qed.

(** X8: when the download fails on a fresh dictionary, the methods do
    not report it: they read the empty dictionary the failure leaves
    behind.  [GetByHanzi] finds nothing, the three searches return no
    entry and [Metadata] the zero value; only [Err] tells. *)
Theorem failed_population_reads_empty (w : World) (err : error) (s : gostring) :
  net w (fetched w) = resp_error err ->
  let d' := set_err newDict (errors_WithStack err) in
  Dict_GetByHanzi newDict w s = Ok (None, (d', next w))
  /\ Dict_GetAllByHanzi newDict w s = Ok ([], (d', next w))
  /\ Dict_GetByPinyin newDict w s = Ok ([], (d', next w))
  /\ Dict_GetByMeaning newDict w s = Ok ([], (d', next w))
  /\ Dict_Metadata newDict w = Ok (md_zero, (d', next w))
  /\ Dict_Err newDict w = Ok (Some (errors_WithStack err), (d', next w)).
Proof.
  intros Hn d'.
  unfold Dict_GetByHanzi, Dict_GetAllByHanzi, Dict_GetByPinyin, Dict_GetByMeaning,
    Dict_Metadata, Dict_Err.
  rewrite (lazyLoad_download_fails newDict w err eq_refl Hn). fold d'.
  repeat split; reflexivity.
Qed.

(** X9: a successful population does not clear the error an earlier
    attempt has stored: the dictionary is filled and ready, and [Err]
    still returns the old error. *)
Theorem stale_error_survives_population (d : Dict) (w : World) (old : error)
    (text : gostring) (dict : Dict) :
  isReady d = false -> d_err d = Some old ->
  net w (fetched w) = resp_body text -> Parse text = Ok dict ->
  exists d',
    Dict_Err d w = Ok (Some old, (d', next w))
    /\ isReady d' = true /\ d_e d' = d_e dict /\ d_md d' = d_md dict
    /\ forall w', Dict_Err d' w' = Ok (Some old, (d', w')).
Proof.
  intros Hr He Hn Hp. eexists. unfold Dict_Err.
  rewrite (lazyLoad_populates d w text dict Hr Hn Hp). cbn [mbind result_bind fst d_err].
  rewrite He. repeat split; reflexivity.
Qed.

End Barrier.

Lemma parsed_dictionary_never_downloads_witness :
  lazyLoad (setReady {| d_e := p_e metadata_state; d_md := p_md metadata_state;
                        d_ready := false; d_header := p_header metadata_state;
                        d_err := None |}) flaky
  = Ok (setReady {| d_e := p_e metadata_state; d_md := p_md metadata_state;
                    d_ready := false; d_header := p_header metadata_state;
                    d_err := None |}, flaky).
Proof.
  apply (parsed_dictionary_never_downloads metadata_text _ flaky). reflexivity.
Defined.

Lemma failed_population_reads_empty_witness :
  Dict_GetByHanzi newDict flaky (str "中")
  = Ok (None, (set_err newDict
                 (errors_WithStack (fmt_Errorf_status (str "503 Service Unavailable"))),
               next flaky)).
Proof.
  apply (failed_population_reads_empty flaky
           (fmt_Errorf_status (str "503 Service Unavailable")) (str "中")).
  reflexivity.
Defined.

Lemma stale_error_survives_population_witness :
  exists d',
    Dict_Err (set_err newDict (errors_New "timeout")) (next flaky)
    = Ok (Some (errors_New "timeout"), (d', next (next flaky)))
    /\ isReady d' = true
    /\ d_e d' = d_e {| d_e := []; d_md := md_zero; d_ready := true; d_header := [];
                       d_err := None |}
    /\ d_md d' = d_md {| d_e := []; d_md := md_zero; d_ready := true; d_header := [];
                         d_err := None |}
    /\ forall w', Dict_Err d' w' = Ok (Some (errors_New "timeout"), (d', w')).
Proof.
  apply (stale_error_survives_population _ (next flaky) (errors_New "timeout") []);
    reflexivity.
Defined.

(** ** Lookup by hanzi *)

Lemma find_head_filter {A} (f : A -> bool) l : find f l = head (List.filter f l).
Proof.
  induction l as [|x l IH]; [done|]. cbn. by destruct (f x).
Qed.

(** X10: [GetAllByHanzi] returns, in dictionary order, exactly the
    entries whose traditional or simplified form is the trimmed key,
    and [GetByHanzi] the first of them; it returns nil exactly when no
    entry has the key in either form. *)
Theorem GetByHanzi_first_of_all `{L : Lib} (d : Dict) (s : gostring) :
  GetByHanzi d s = head (GetAllByHanzi d s)
  /\ (forall e, In e (GetAllByHanzi d s) <->
                In e (d_e d)
                /\ (Traditional e = TrimSpace s \/ Simplified e = TrimSpace s))
  /\ (GetByHanzi d s = None <->
      forall e, In e (d_e d) ->
                Traditional e <> TrimSpace s /\ Simplified e <> TrimSpace s)
  /\ exists keep, GetAllByHanzi d s = List.filter keep (d_e d).
Proof.
  unfold GetByHanzi, GetAllByHanzi.
  set (f := fun e => string_eqb (Traditional e) (TrimSpace s)
                     || string_eqb (Simplified e) (TrimSpace s)).
  assert (Hf : forall e, f e = true <->
                 Traditional e = TrimSpace s \/ Simplified e = TrimSpace s).
  { intros e. unfold f. by rewrite orb_true_iff, !string_eqb_eq. }
  split; [apply find_head_filter|]. split.
  { intros e. by rewrite filter_In, Hf. }
  split; [|by exists f].
  split.
  - intros Hnone e He.
    pose proof (find_none f (d_e d) Hnone e He) as Hfe.
    split; intros Heq; (assert (f e = true) by (apply Hf; tauto)); congruence.
  - intros Hall. destruct (find f (d_e d)) as [e|] eqn:E; [exfalso|done].
    apply find_some in E as [He Hfe]. apply Hf in Hfe.
    destruct (Hall e He). tauto.
Qed.

(** ** Bounds of the distance *)

Section EditBounds.
Context {A : Type}.

Lemma edit_max (s : list A) : forall t,
  exists n, edit s t n /\ (n <= Nat.max (length s) (length t))%nat.
Proof.
  induction s as [|a s IH]; intros t.
  - exists (length t). split; [apply edit_from_nil | cbn; lia].
  - destruct t as [|b t].
    + exists (length (a :: s)). split; [apply edit_to_nil | cbn; lia].
    + destruct (IH t) as (n & Hn & Hle). exists (S n).
      split; [by apply edit_subst | cbn; lia].
Qed.

End EditBounds.

(** X11: the distance lies between the difference and the larger of
    the two lengths, counted in code points; from or to the empty
    string it is the number of code points of the other string. *)
Theorem levenshtein_bounds (a b : gostring) :
  let la := Z.of_nat (length (runes a)) in
  let lb := Z.of_nat (length (runes b)) in
  (Z.abs (la - lb) <= levenshtein a b <= Z.max la lb)%Z
  /\ levenshtein [] b = lb /\ levenshtein a [] = la.
Proof.
  intros la lb.
  assert (Hb : forall x y,
            (Z.abs (Z.of_nat (length (runes x)) - Z.of_nat (length (runes y)))
             <= levenshtein x y
             <= Z.max (Z.of_nat (length (runes x))) (Z.of_nat (length (runes y))))%Z).
  { intros x y. destruct (levenshtein_distance x y) as (d & -> & Hd & Hmin).
    apply edit_length in Hd.
    destruct (edit_max (runes x) (runes y)) as (n & Hn & Hle).
    apply Hmin in Hn. lia. }
  split; [apply Hb|].
  pose proof (Hb [] b) as H1. pose proof (Hb a []) as H2.
  change (runes []) with (@nil rune) in H1, H2. cbn [length] in H1, H2.
  fold la in H2. fold lb in H1. lia.
Qed.

(** ** More on the tone codec *)

(** The pieces [Split] cuts, put together again. *)
Lemma Split_concat s sep :
  concat (map (fun w => w ++ [sep]) (Split s sep)) = s ++ [sep].
Proof.
  induction s as [|c s IH]; [done|]. cbn [Split].
  destruct (byte_eqb c sep) eqn:E.
  - apply byte_eqb_eq in E as ->. cbn [map concat app]. by rewrite IH.
  - destruct (Split s sep) as [|f fs] eqn:Es.
    + by destruct (Split_nonempty s sep).
    + cbn [map concat app] in *. by rewrite IH.
Qed.

Lemma Split_Forall (P : byte -> Prop) s sep :
  Forall P s -> Forall (Forall P) (Split s sep).
Proof.
  induction 1 as [|c s Hc Hs IH]; cbn [Split]; [by repeat constructor|].
  destruct (byte_eqb c sep); [by repeat constructor|].
  destruct (Split s sep) as [|f fs]; [by repeat constructor|].
  apply Forall_cons in IH as [Hf Hfs]. by repeat constructor.
Qed.

(** [TrimSpace] and a space at the end. *)
Lemma strip_snoc_space (sp : rune * gostring -> bool) (l : list (rune * gostring)) x :
  sp x = true ->
  rev (drop_while sp (rev (drop_while sp (l ++ [x]))))
  = rev (drop_while sp (rev (drop_while sp l))).
Proof.
  intros Hx. induction l as [|a l IH].
  - cbn. by rewrite Hx.
  - cbn [app drop_while]. destruct (sp a); [exact IH|].
    rewrite app_comm_cons, rev_app_distr. cbn [rev app drop_while]. by rewrite Hx.
Qed.

Lemma TrimSpace_snoc_space s :
  string_of_runes (runes s) = s -> TrimSpace (s ++ str " ") = TrimSpace s.
Proof.
  intros Hs. unfold TrimSpace. rewrite <- Hs at 1.
  rewrite decode_string_of_runes.
  change (utf8.decode (str " ")) with [(32%Z, str " ")].
  assert (E : map (fun r => (scalar r, utf8.EncodeRune r)) (runes s) = utf8.decode s).
  { rewrite <- Hs at 2. rewrite <- (app_nil_r (string_of_runes (runes s))).
    rewrite decode_string_of_runes. by rewrite app_nil_r. }
  rewrite E. by rewrite strip_snoc_space.
Qed.

(** A word without tone digit goes through [PinyinTones] as it is. *)
Lemma tones_word_plain w :
  Forall (fun b => ~ In b toneNums) w -> tones_word w = Ok (w ++ str " ").
Proof.
  intros Hw. unfold tones_word.
  destruct (guessToneIndex w <? 0)%Z; [done|].
  apply IndexAny_neg in Hw. by destruct (Z.ltb_spec (IndexAny w toneNums) 0); [|lia].
Qed.

Lemma tones_words_plain ws : forall acc,
  Forall (Forall (fun b => ~ In b toneNums)) ws ->
  tones_words acc ws = Ok (acc ++ concat (map (fun w => w ++ str " ") ws)).
Proof.
  induction ws as [|w ws IH]; intros acc Hws.
  - cbn. by rewrite app_nil_r.
  - apply Forall_cons in Hws as [Hw Hws]. cbn [tones_words map concat].
    rewrite tones_word_plain by done. cbn [mbind result_bind].
    rewrite IH by done. by rewrite <- app_assoc.
Qed.

(** X12: a valid UTF-8 text without any of the digits 1 to 5 and
    without colon has no tone to render: [PinyinTones] returns it as it
    is, white space at both ends removed, and does not panic. *)
Theorem PinyinTones_without_digits (s : gostring) :
  string_of_runes (runes s) = s ->
  Forall (fun b => ~ In b toneNums) s -> ~ In ":"%char s ->
  PinyinTones s = Ok (TrimSpace s).
Proof.
  intros Hvalid Hdigits Hcolon. unfold PinyinTones.
  change (str "u:") with ["u"%char; ":"%char]. rewrite ReplaceAll_absent by done.
  rewrite tones_words_plain by (by apply Split_Forall).
  cbn [mbind result_bind app].
  change (str " ") with [" "%char]. rewrite Split_concat.
  change [" "%char] with (str " "). by rewrite (TrimSpace_snoc_space s Hvalid).
Qed.

Lemma PinyinTones_without_digits_witness :
  PinyinTones (str " zhōng wén ") = Ok (TrimSpace (str " zhōng wén ")).
Proof.
  apply PinyinTones_without_digits.
  - reflexivity.
  - by_decide.
  - not_in.
Defined.

Lemma Atoi_toneNums d :
  In d toneNums ->
  (exists n, Atoi (string_of_runes [b2z d]) = Ok n /\ (1 <= n <= 5)%Z)
  /\ (b2z d < RuneSelf)%Z /\ tone_vowel d = false
  /\ d <> ":"%char /\ d <> " "%char.
Proof.
  unfold toneNums, str. cbn [list_ascii_of_string In].
  intros [ <- | [ <- | [ <- | [ <- | [ <- | [] ] ] ] ] ];
    (split; [eexists; split; [lazy; reflexivity | lia]|]);
    repeat split; first [ reflexivity | by vm_compute ].
Qed.

Lemma tone_vowel_facts k :
  tone_vowel k = true ->
  (b2z k < RuneSelf)%Z /\ ~ In k toneNums /\ k <> ":"%char /\ k <> " "%char.
Proof.
  intros Hk. apply existsb_byte_eqb in Hk. unfold str in Hk.
  cbn [list_ascii_of_string In] in Hk.
  repeat (destruct Hk as [ <- | Hk ]; [repeat split; first [ by vm_compute | not_in ]|]).
  destruct Hk.
Qed.

(** The vowel [guessToneIndex] finds in a word whose only vowel is its
    last byte. *)
Lemma guessToneIndex_last pre k :
  Forall (fun b => (b2z b < RuneSelf)%Z /\ tone_vowel b = false) pre ->
  tone_vowel k = true ->
  guessToneIndex (pre ++ [k]) = Z.of_nat (length pre).
Proof.
  intros Hpre Hk. destruct (tone_vowel_facts k Hk) as (Hka & _).
  destruct (guessToneIndex_in_found (str "AaEeiOou") [252%Z; 114%Z] (pre ++ [k]) [])
    as (k' & pre' & post' & Hk' & Hsplit & Hg).
  { by_decide. }
  { apply Forall_app. split; [|by repeat constructor].
    eapply Forall_impl; [exact Hpre|]. by intros b [? _]. }
  { apply Exists_exists. exists k. split.
    - apply list_elem_of_In. by apply existsb_byte_eqb.
    - apply in_or_app. right. by left. }
  { apply List.Forall_forall. by intros ? _ []. }
  rewrite app_nil_r in Hg. unfold guessToneIndex.
  change (runes vowels) with (map b2z (str "AaEeiOou") ++ [252%Z; 114%Z]).
  rewrite Hg. f_equal.
  assert (Hv : tone_vowel k' = true) by (by apply existsb_byte_eqb).
  destruct post' as [|x post'] using rev_ind.
  - apply app_inj_tail in Hsplit as [-> _]. done.
  - exfalso. rewrite app_comm_cons, app_assoc in Hsplit.
    apply app_inj_tail in Hsplit as [Hsplit _].
    rewrite List.Forall_forall in Hpre.
    destruct (Hpre k') as [_ Hfalse]; [|congruence].
    rewrite Hsplit. apply in_or_app. right. by left.
Qed.

(** X13: a tone digit in front of a syllable whose only vowel is its
    last letter makes [PinyinTones] panic: the vowel is located before
    the digit is taken out, and the index then lies one past the end of
    the code points. *)
Theorem PinyinTones_digit_first_panics (d : byte) (cons : gostring) (k : byte) :
  In d toneNums ->
  Forall (fun b => body_byte b = true /\ tone_vowel b = false) cons ->
  tone_vowel k = true ->
  PinyinTones (d :: cons ++ [k]) = Panic.
Proof.
  intros Hd Hcons Hk.
  destruct (Atoi_toneNums d Hd) as ((n & Hatoi & Hn) & Hda & Hdv & Hdc & Hds).
  destruct (tone_vowel_facts k Hk) as (Hka & Hkn & Hkc & Hks).
  assert (Hfacts : Forall (fun b => (b2z b < RuneSelf)%Z /\ b <> ":"%char
                                    /\ b <> " "%char) cons).
  { eapply Forall_impl; [exact Hcons|]. intros b [Hb _].
    by destruct (body_byte_spec b Hb) as (? & _ & _ & ? & ?). }
  assert (Hascii : Forall (fun b => (b2z b < RuneSelf)%Z) (cons ++ [k])).
  { apply Forall_app. split; [|by repeat constructor].
    eapply Forall_impl; [exact Hfacts|]. by intros b (? & _). }
  assert (Hno : forall c, c <> d -> c <> k ->
                  (forall b, In b cons -> b <> c) -> ~ In c (d :: cons ++ [k])).
  { intros c H1 H2 H3 [?|Hin]; [congruence|].
    apply in_app_or in Hin as [Hin|[?|[]]]; [by apply (H3 c) | congruence]. }
  rewrite List.Forall_forall in Hfacts.
  unfold PinyinTones. change (str "u:") with ["u"%char; ":"%char].
  rewrite ReplaceAll_absent.
  2:{ apply Hno; [congruence | congruence |].
      intros b Hb. by destruct (Hfacts b Hb) as (_ & ? & _). }
  rewrite Split_no_sep.
  2:{ apply Hno; [congruence | congruence |].
      intros b Hb. by destruct (Hfacts b Hb) as (_ & _ & ?). }
  cbn [tones_words].
  assert (Hword : tones_word (d :: cons ++ [k]) = Panic); [|by rewrite Hword].
  unfold tones_word.
  change (guessToneIndex (d :: cons ++ [k])) with (guessToneIndex ((d :: cons) ++ [k])).
  rewrite (guessToneIndex_last (d :: cons) k); [|constructor| done].
  2:{ done. }
  2:{ eapply Forall_impl; [exact Hcons|]. intros b [Hb ?].
      by destruct (body_byte_spec b Hb) as (? & _). }
  destruct (Z.ltb_spec (Z.of_nat (length (d :: cons))) 0) as [?|_]; [lia|].
  assert (Hnum : IndexAny (d :: cons ++ [k]) toneNums = 0%Z).
  { cbn [IndexAny]. by rewrite (proj2 (existsb_byte_eqb d toneNums) Hd). }
  rewrite Hnum. cbn [Z.ltb Z.compare].
  change (index (d :: cons ++ [k]) 0) with (Ok d). cbn [mbind result_bind].
  rewrite Hatoi.
  replace ((n - 1 <? 0)%Z || (Z.of_nat (size mapNumToTone) <=? n - 1)%Z) with false.
  2:{ symmetry. apply orb_false_iff. change (size mapNumToTone) with 10%nat.
      split; [apply Z.ltb_ge | apply Z.leb_gt]; lia. }
  assert (S1 : slice (d :: cons ++ [k]) 0 0 = Ok []).
  { rewrite slice_ok by (cbn [length]; lia). reflexivity. }
  assert (S2 : slice_from (d :: cons ++ [k]) (0 + 1) = Ok (cons ++ [k])).
  { unfold slice_from. rewrite slice_ok by (cbn [length]; lia).
    change (Z.to_nat (0 + 1)) with 1%nat. cbn [drop].
    rewrite take_ge; [done|]. rewrite drop_0. cbn [length]. lia. }
  rewrite S1. cbn [mbind result_bind]. rewrite S2. cbn [mbind result_bind app].
  rewrite runes_ascii by done.
  assert (Hidx : index (map b2z (cons ++ [k])) (Z.of_nat (length (d :: cons))) = Panic).
  { unfold index. destruct (Z.leb_spec 0 (Z.of_nat (length (d :: cons)))); [|lia].
    rewrite Nat2Z.id, lookup_ge_None_2; [done|].
    rewrite length_map, length_app. cbn [length]. lia. }
  by rewrite Hidx.
Qed.

Lemma PinyinTones_digit_first_panics_witness : PinyinTones (str "3ma") = Panic.
Proof.
  apply (PinyinTones_digit_first_panics "3"%char (str "m") "a"%char).
  - cbn. tauto.
  - by repeat constructor.
  - reflexivity.
Defined.

(** ** Sentences of numbered syllables *)

Lemma Split_Join ws sep :
  ws <> [] -> Forall (fun w => ~ In sep w) ws -> Split (Join ws [sep]) sep = ws.
Proof.
  intros Hne Hws. induction Hws as [|w ws Hw Hws IH]; [done|].
  destruct ws as [|w' ws'].
  - cbn [Join]. by apply Split_no_sep.
  - rewrite Join_cons_cons. cbn [app]. rewrite Split_app by done.
    f_equal. by apply IH.
Qed.

Lemma Join_concat ws sep :
  ws <> [] -> concat (map (fun w => w ++ sep) ws) = Join ws sep ++ sep.
Proof.
  intros Hne. induction ws as [|w ws IH]; [done|].
  destruct ws as [|w' ws'].
  - cbn. by rewrite app_nil_r.
  - rewrite Join_cons_cons. cbn [map concat] in *. rewrite IH by done.
    by rewrite <- !app_assoc.
Qed.

(** [TrimSpace] leaves a text alone that neither begins nor ends with
    white space. *)
Lemma TrimSpace_edges rs a l l' z :
  Forall (fun r => utf8.ValidRune r = true) rs ->
  rs = a :: l -> IsSpace a = false -> rs = l' ++ [z] -> IsSpace z = false ->
  TrimSpace (string_of_runes rs) = string_of_runes rs.
Proof.
  intros Hv Hhd Ha Hlast Hz. unfold TrimSpace.
  rewrite <- (app_nil_r (string_of_runes rs)) at 1.
  rewrite decode_string_of_runes. change (utf8.decode []) with (@nil (rune * gostring)).
  rewrite app_nil_r.
  set (sp := fun c : rune * gostring => IsSpace (fst c)).
  set (ch := fun r => (scalar r, utf8.EncodeRune r)).
  assert (Hsc : forall r, In r rs -> scalar r = r).
  { intros r Hr. apply scalar_valid. rewrite List.Forall_forall in Hv. by apply Hv. }
  assert (E1 : drop_while sp (map ch rs) = map ch rs).
  { rewrite Hhd. cbn [map drop_while]. unfold sp at 1, ch at 1. cbn [fst].
    rewrite Hsc by (rewrite Hhd; by left). by rewrite Ha. }
  rewrite E1.
  assert (E2 : drop_while sp (rev (map ch rs)) = rev (map ch rs)).
  { rewrite Hlast, map_app, rev_app_distr. cbn [map rev app drop_while].
    unfold sp at 1, ch at 1. cbn [fst].
    rewrite Hsc by (rewrite Hlast; apply in_or_app; right; by left). by rewrite Hz. }
  rewrite E2, rev_involutive, map_map. done.
Qed.

(** The runes of a line of words. *)
Lemma Join_words rss :
  rss <> [] ->
  Forall (fun rs => rs <> []
                    /\ Forall (fun r => utf8.ValidRune r = true /\ IsSpace r = false) rs)
         rss ->
  exists RS a l l' z,
    Join (map string_of_runes rss) (str " ") = string_of_runes RS
    /\ Forall (fun r => utf8.ValidRune r = true) RS
    /\ RS = a :: l /\ IsSpace a = false /\ RS = l' ++ [z] /\ IsSpace z = false.
Proof.
  intros Hne Hrss. induction Hrss as [|rs rss [Hrs Hall] Hrss IH]; [done|].
  assert (Hv : Forall (fun r => utf8.ValidRune r = true) rs).
  { eapply Forall_impl; [exact Hall|]. by intros r [? _]. }
  destruct rs as [|a l]; [done|].
  assert (Ha : IsSpace a = false) by (apply Forall_cons in Hall as [[_ ?] _]; done).
  destruct rss as [|rs' rss'].
  - destruct (exists_last Hrs) as (l' & z & Hl).
    exists (a :: l), a, l, l', z. cbn [map Join].
    repeat split; try done.
    rewrite Hl in Hall. apply Forall_app in Hall as [_ Hz].
    by apply Forall_cons in Hz as [[_ ?] _].
  - destruct (IH ltac:(done)) as (RS & a' & l0 & l' & z & HJ & HRS & Hhd & Ha' & Hlast & Hz).
    exists ((a :: l) ++ [32%Z] ++ RS), a, (l ++ [32%Z] ++ RS),
           ((a :: l) ++ [32%Z] ++ l'), z.
    cbn [map] in *. rewrite Join_cons_cons, HJ.
    repeat split; try done.
    + by rewrite !string_of_runes_app.
    + apply Forall_app. split; [done|]. apply Forall_app. split; [|done].
      by repeat constructor.
    + rewrite Hlast at 1. by rewrite <- !app_assoc.
Qed.

(** One syllable, both ways. *)
Lemma syllable_codec w :
  syllable w ->
  exists rs,
    tones_word w = Ok (string_of_runes rs ++ str " ")
    /\ rs <> []
    /\ Forall (fun r => utf8.ValidRune r = true /\ IsSpace r = false) rs
    /\ ~ In " "%char (string_of_runes rs)
    /\ forall res, toneNums_word res (string_of_runes rs) = res ++ w ++ str " ".
Proof.
  intros (body & d & -> & Hbody & Hvowel & Hd).
  destruct (tones_word_syllable body d Hbody Hvowel Hd)
    as (pre & k & post & t & Hsplit & Hback & Hvalid & Hsp & Hnosp & Hword).
  destruct (Atoi_tone d Hd) as (_ & _ & _ & Htrim & Hda & Hds & _ & _ & Hdc).
  assert (Hfacts : Forall (fun b => (b2z b < RuneSelf)%Z /\ IsSpace (b2z b) = false
                                    /\ b <> " "%char) body).
  { eapply Forall_impl; [exact Hbody|]. intros b Hb.
    destruct (body_byte_spec b Hb) as (? & ? & _ & _ & ?). done. }
  assert (Hrunes : forall s, Forall (fun b => (b2z b < RuneSelf)%Z
                                              /\ IsSpace (b2z b) = false
                                              /\ b <> " "%char) s ->
            Forall (fun r => utf8.ValidRune r = true /\ IsSpace r = false) (map b2z s)).
  { intros s Hs. apply Forall_map. eapply Forall_impl; [exact Hs|].
    intros b (Hb & Hsb & _). split; [|done].
    unfold utf8.ValidRune, RuneSelf in *. pose proof (b2z_range b).
    apply orb_true_iff. left. apply andb_true_iff. lia. }
  pose proof Hfacts as Hparts. rewrite Hsplit in Hparts.
  apply Forall_app in Hparts as [Fpre Fpost]. apply Forall_cons in Fpost as [Fk Fpost].
  assert (Hpre : Forall (fun b => (b2z b < RuneSelf)%Z) pre).
  { eapply Forall_impl; [exact Fpre|]. by intros b (? & _). }
  assert (Hpost : Forall (fun b => (b2z b < RuneSelf)%Z) post).
  { eapply Forall_impl; [exact Fpost|]. by intros b (? & _). }
  set (rs := map b2z pre ++ [t] ++ map b2z post).
  assert (Hrs : string_of_runes rs = pre ++ utf8.EncodeRune t ++ post).
  { unfold rs. rewrite !string_of_runes_app, !string_of_runes_ascii by done.
    unfold string_of_runes. cbn [map concat]. by rewrite app_nil_r. }
  assert (Hall : Forall (fun r => utf8.ValidRune r = true /\ IsSpace r = false) rs).
  { unfold rs. apply Forall_app. split; [by apply Hrunes|].
    apply Forall_app. split; [by repeat constructor | by apply Hrunes]. }
  exists rs. split; [|split; [|split; [|split]]].
  - rewrite Hword, Hrs. by rewrite <- !app_assoc.
  - unfold rs. by destruct (map b2z pre).
  - exact Hall.
  - rewrite Hrs. intros Hin.
    assert (Hno : forall s, Forall (fun b => (b2z b < RuneSelf)%Z
                                             /\ IsSpace (b2z b) = false
                                             /\ b <> " "%char) s -> ~ In " "%char s).
    { intros s Hs Hi. rewrite List.Forall_forall in Hs.
      by destruct (Hs _ Hi) as (_ & _ & ?). }
    apply in_app_or in Hin as [Hin|Hin]; [by apply (Hno pre)|].
    apply in_app_or in Hin as [Hin|Hin]; [done | by apply (Hno post)].
  - intros res. unfold toneNums_word.
    rewrite runes_string_of_runes.
    2:{ eapply Forall_impl; [exact Hall|]. by intros r [? _]. }
    unfold rs. rewrite !fold_left_app, toneNums_ascii by done. cbn [fold_left app].
    unfold toneNums_rune at 2. rewrite Hback. cbn [default from_option id length].
    change (take (2 - 1) [k; d]) with [k]. change (drop (2 - 1) [k; d]) with [d].
    rewrite Htrim, toneNums_ascii by done.
    rewrite Hsplit. by rewrite <- !app_assoc.
Qed.

Lemma tones_words_syllables ws : forall acc,
  Forall syllable ws ->
  exists rss,
    tones_words acc ws
    = Ok (acc ++ concat (map (fun t => t ++ str " ") (map string_of_runes rss)))
    /\ length rss = length ws
    /\ Forall (fun rs => rs <> []
                 /\ Forall (fun r => utf8.ValidRune r = true /\ IsSpace r = false) rs)
              rss
    /\ Forall (fun t => ~ In " "%char t) (map string_of_runes rss)
    /\ forall res, fold_left toneNums_word (map string_of_runes rss) res
                   = res ++ concat (map (fun w => w ++ str " ") ws).
Proof.
  induction ws as [|w ws IH]; intros acc Hws.
  - exists []. cbn. rewrite app_nil_r. repeat split; try done.
    intros res. by rewrite app_nil_r.
  - apply Forall_cons in Hws as [Hw Hws].
    destruct (syllable_codec w Hw) as (rs & Hword & Hne & Hall & Hnosp & Hback).
    destruct (IH (acc ++ string_of_runes rs ++ str " ") Hws)
      as (rss & Hrest & Hlen & Hrss & Hsps & Hfold).
    exists (rs :: rss). cbn [tones_words map concat fold_left length].
    rewrite Hword. cbn [mbind result_bind]. rewrite Hrest.
    split; [by rewrite <- !app_assoc|].
    split; [by rewrite Hlen|].
    split; [by constructor|].
    split; [by constructor|].
    intros res. rewrite Hback, Hfold. by rewrite <- !app_assoc.
Qed.

(** X14: a sentence of numbered syllables separated by single spaces,
    such as Zhong1 wen2, is rendered by [PinyinTones] without panic,
    and [PinyinToneNums] gives the sentence back. *)
Theorem PinyinToneNums_PinyinTones_sentence (ws : list gostring) :
  ws <> [] -> Forall syllable ws ->
  exists toned,
    PinyinTones (Join ws (str " ")) = Ok toned
    /\ PinyinToneNums toned = Join ws (str " ").
Proof.
  intros Hne Hws.
  assert (Hbytes : Forall (fun w => ~ In " "%char w /\ ~ In ":"%char w
                                    /\ Forall (fun b => (b2z b < RuneSelf)%Z
                                                        /\ IsSpace (b2z b) = false) w
                                    /\ w <> []) ws).
  { eapply Forall_impl; [exact Hws|]. intros w (body & d & -> & Hbody & _ & Hd).
    destruct (Atoi_tone d Hd) as (_ & _ & _ & _ & Hda & Hds & _ & _ & Hdc).
    assert (Hdsp : d <> " "%char) by (intros ->; by vm_compute in Hds).
    rewrite List.Forall_forall in Hbody.
    repeat split.
    - intros Hin. apply in_app_or in Hin as [Hin|[?|[]]]; [|done].
      by destruct (body_byte_spec _ (Hbody _ Hin)) as (_ & _ & _ & _ & ?).
    - intros Hin. apply in_app_or in Hin as [Hin|[?|[]]]; [|done].
      by destruct (body_byte_spec _ (Hbody _ Hin)) as (_ & _ & _ & ? & _).
    - apply Forall_app. split; [|by repeat constructor].
      apply List.Forall_forall. intros b Hb.
      by destruct (body_byte_spec _ (Hbody _ Hb)) as (? & ? & _).
    - by destruct body. }
  destruct (tones_words_syllables ws [] Hws) as (rss & Htones & Hlen & Hrss & Hsps & Hfold).
  assert (Hne' : rss <> []) by (destruct rss, ws; done).
  destruct (Join_words rss Hne' Hrss)
    as (RS & a & l & l' & z & HJ & HRS & Hhd & Ha & Hlast & Hz).
  exists (string_of_runes RS). split.
  - unfold PinyinTones. change (str "u:") with ["u"%char; ":"%char].
    rewrite ReplaceAll_absent.
    2:{ clear -Hbytes Hne. induction Hbytes as [|w ws (_ & Hc & _) _ IH]; [done|].
        destruct ws as [|w' ws']; [done|]. rewrite Join_cons_cons.
        apply not_in_app; [done|]. apply not_in_app; [by intros [?|[]]|].
        by apply IH. }
    change (str " ") with [" "%char]. rewrite Split_Join; [|done|].
    2:{ eapply Forall_impl; [exact Hbytes|]. by intros w (? & _). }
    rewrite Htones. cbn [mbind result_bind app].
    change [" "%char] with (str " ").
    rewrite Join_concat by (destruct rss; done). rewrite HJ.
    rewrite TrimSpace_snoc_space by (by rewrite runes_string_of_runes).
    by rewrite (TrimSpace_edges RS a l l' z).
  - unfold PinyinToneNums. rewrite <- HJ.
    change (str " ") with [" "%char]. rewrite Split_Join; [|by destruct rss|done].
    rewrite Hfold. cbn [app]. change [" "%char] with (str " ").
    rewrite Join_concat by done.
    assert (HA : Forall (fun b => (b2z b < RuneSelf)%Z) (Join ws (str " "))).
    { clear -Hbytes Hne. induction Hbytes as [|w ws (_ & _ & Hw & _) _ IH]; [done|].
      assert (Hw' : Forall (fun b => (b2z b < RuneSelf)%Z) w).
      { eapply Forall_impl; [exact Hw|]. by intros b [? _]. }
      destruct ws as [|w' ws']; [done|]. rewrite Join_cons_cons.
      apply Forall_app. split; [done|]. apply Forall_app. split; [by repeat constructor|].
      by apply IH. }
    rewrite <- (string_of_runes_ascii (Join ws (str " "))) by done.
    rewrite TrimSpace_snoc_space.
    2:{ rewrite runes_string_of_runes; [done|]. rewrite <- runes_ascii by done.
        apply runes_valid. }
    destruct ws as [|w0 ws0]; [done|].
    apply Forall_cons in Hbytes as Hb0. destruct Hb0 as [(_ & _ & Hw0 & Hw0ne) _].
    destruct w0 as [|b0 w0']; [done|].
    assert (Hlastw : exists s' bz, Join ((b0 :: w0') :: ws0) (str " ") = s' ++ [bz]
                                   /\ IsSpace (b2z bz) = false).
    { clear -Hbytes. revert Hbytes. generalize (b0 :: w0'). induction ws0 as [|w1 ws1 IH];
        intros w Hb.
      - apply Forall_cons in Hb as [(_ & _ & Hw & Hwne) _]. cbn [Join].
        destruct (exists_last Hwne) as (s' & bz & ->). exists s', bz. split; [done|].
        apply Forall_app in Hw as [_ Hw]. by apply Forall_cons in Hw as [[_ ?] _].
      - apply Forall_cons in Hb as [_ Hb]. destruct (IH w1 Hb) as (s' & bz & Hs & Hz).
        exists (w ++ str " " ++ s'), bz. rewrite Join_cons_cons, Hs.
        by rewrite <- !app_assoc. }
    destruct Hlastw as (s' & bz & Hs & Hbz).
    apply (TrimSpace_edges _ (b2z b0)
             (map b2z (tl (Join ((b0 :: w0') :: ws0) (str " "))))
             (map b2z s') (b2z bz)).
    + rewrite <- runes_ascii by done. apply runes_valid.
    + destruct ws0; cbn; done.
    + by apply Forall_cons in Hw0 as [[_ ?] _].
    + rewrite Hs, map_app. done.
    + done.
Qed.

Lemma PinyinToneNums_PinyinTones_sentence_witness :
  exists toned,
    PinyinTones (Join [str "Zhong1"; str "wen2"] (str " ")) = Ok toned
    /\ PinyinToneNums toned = Join [str "Zhong1"; str "wen2"] (str " ").
Proof.
  apply PinyinToneNums_PinyinTones_sentence; [done|].
  constructor; [|constructor; [|constructor]].
  - exists (str "Zhong"), "1"%char. split; [reflexivity|]. split; [by_decide|].
    split; [|cbn; tauto].
    do 2 apply Exists_cons_tl. apply Exists_cons_hd. reflexivity.
  - exists (str "wen"), "2"%char. split; [reflexivity|]. split; [by_decide|].
    split; [|cbn; tauto].
    apply Exists_cons_tl. apply Exists_cons_hd. reflexivity.
Defined.

(** ** Symbols and transliteration *)

Lemma EncodeRune_nonempty r : utf8.EncodeRune r <> [].
Proof.
  unfold utf8.EncodeRune.
  repeat match goal with |- context [if ?c then _ else _] => destruct c end; done.
Qed.

Lemma symbols_nonempty r sym : symbols !! r = Some sym -> sym <> [].
Proof.
  intros E. apply elem_of_map_to_list in E.
  assert (H : forallb (fun p : rune * gostring => negb (bool_decide (snd p = [])))
                      (map_to_list symbols) = true) by (by vm_compute).
  rewrite forallb_forall in H. apply list_elem_of_In in E.
  specialize (H _ E). cbn in H. apply negb_true_iff, bool_decide_eq_false in H. done.
Qed.

(** The loop of [ConvertSymbols], one piece for every code point. *)
Lemma ConvertSymbols_pieces rs : forall acc,
  fold_left (fun result r =>
               match symbols !! r with
               | Some sym => result ++ sym
               | None => result ++ string_of_runes [r]
               end) rs acc
  = acc ++ concat (map (fun r => default (string_of_runes [r]) (symbols !! r)) rs).
Proof.
  induction rs as [|r rs IH]; intros acc.
  - cbn. by rewrite app_nil_r.
  - cbn [fold_left map concat]. rewrite IH.
    destruct (symbols !! r); cbn [default from_option id]; by rewrite <- app_assoc.
Qed.

Lemma ConvertSymbols_nonempty s : s <> [] -> ConvertSymbols s <> [].
Proof.
  unfold ConvertSymbols. rewrite ConvertSymbols_pieces. cbn [app].
  intros Hne. destruct (runes s) as [|r rs] eqn:E.
  - by apply runes_nil_inv in E.
  - cbn [map concat]. intros H. apply app_eq_nil in H as [H _].
    destruct (symbols !! r) as [sym|] eqn:Er; cbn in H.
    + by apply (symbols_nonempty r sym).
    + unfold string_of_runes in H. cbn in H. rewrite app_nil_r in H.
      by apply (EncodeRune_nonempty r).
Qed.

(** X15: [ConvertSymbols] touches the code points of its table only: a
    valid UTF-8 text without any of them comes back as it is, and no
    text is turned into the empty string. *)
Theorem ConvertSymbols_without_symbols (s : gostring) :
  (string_of_runes (runes s) = s ->
   Forall (fun r => symbols !! r = None) (runes s) -> ConvertSymbols s = s)
  /\ (s <> [] -> ConvertSymbols s <> []).
Proof.
  split; [|apply ConvertSymbols_nonempty].
  unfold ConvertSymbols. rewrite ConvertSymbols_pieces. cbn [app].
  intros Hs Hr. rewrite <- Hs at 2. unfold string_of_runes at 2.
  f_equal. apply map_ext_in. intros r Hin.
  rewrite List.Forall_forall in Hr. rewrite (Hr r Hin). cbn.
  unfold string_of_runes. cbn. apply app_nil_r.
Qed.

Section Transliteration.
Context `{L : Lib}.





End Transliteration.

(** ** Spaces around symbols *)

Lemma HasPrefix_length s p : HasPrefix s p = true -> (length p <= length s)%nat.
Proof.
  revert s. induction p as [|c p IH]; intros s; [cbn; lia|].
  destruct s as [|x s]; [done|]. cbn [HasPrefix length].
  intros H. apply andb_true_iff in H as [_ H]. apply IH in H. lia.
Qed.

Lemma ReplaceAll_from_length old new s : forall skip,
  (length new <= length old)%nat ->
  (length (ReplaceAll_from skip s old new) + Nat.min skip (length s) <= length s)%nat.
Proof.
  induction s as [|c t IH]; intros skip Hnew; [cbn; lia|].
  cbn [ReplaceAll_from]. destruct skip as [|k].
  - destruct (HasPrefix (c :: t) old) eqn:E.
    + apply HasPrefix_length in E. cbn [length] in *.
      specialize (IH (length old - 1)%nat Hnew). rewrite length_app. lia.
    + specialize (IH 0%nat Hnew). cbn [length]. lia.
  - specialize (IH k Hnew). cbn [length]. lia.
Qed.

Lemma ReplaceAll_length s old new :
  (length new <= length old)%nat -> (length (ReplaceAll s old new) <= length s)%nat.
Proof.
  intros H. pose proof (ReplaceAll_from_length old new s 0 H). unfold ReplaceAll. lia.
Qed.

Lemma ReplaceAll_absent_first s a b new : ~ In a s -> ReplaceAll s [a; b] new = s.
Proof.
  unfold ReplaceAll. induction s as [|c s IH]; intros Hin; [done|].
  cbn [ReplaceAll_from]. rewrite HasPrefix_cons_ne by (intros ->; apply Hin; by left).
  f_equal. apply IH. intros ?. apply Hin. by right.
Qed.

(** X17: [FixSymbolSpaces] only removes spaces: its result is never
    longer than the text, and a text without a space comes back as it
    is. *)
Theorem FixSymbolSpaces_only_removes (s : gostring) :
  (length (FixSymbolSpaces s) <= length s)%nat
  /\ (~ In " "%char s -> FixSymbolSpaces s = s).
Proof.
  split.
  - unfold FixSymbolSpaces.
    repeat (etransitivity; [apply ReplaceAll_length; cbn; lia|]). done.
  - intros H. unfold FixSymbolSpaces.
    change (str " ?") with [" "%char; "?"%char]. rewrite ReplaceAll_absent_first by done.
    change (str " .") with [" "%char; "."%char]. rewrite ReplaceAll_absent_first by done.
    change (str " !") with [" "%char; "!"%char]. rewrite ReplaceAll_absent_first by done.
    change (str " :") with [" "%char; ":"%char]. rewrite ReplaceAll_absent_first by done.
    change (str " ;") with [" "%char; ";"%char]. rewrite ReplaceAll_absent_first by done.
    change (str " ,") with [" "%char; ","%char]. rewrite ReplaceAll_absent_first by done.
    change (str "[ ") with ["["%char; " "%char]. rewrite ReplaceAll_absent by done.
    change (str " ]") with [" "%char; "]"%char]. rewrite ReplaceAll_absent_first by done.
    change (str "( ") with ["("%char; " "%char]. rewrite ReplaceAll_absent by done.
    change (str " )") with [" "%char; ")"%char]. by rewrite ReplaceAll_absent_first.
Qed.

(** ** Numbered pinyin is a fixed point *)

Lemma toneNums_words_ascii ws : forall acc,
  Forall (Forall (fun b => (b2z b < RuneSelf)%Z)) ws ->
  fold_left toneNums_word ws acc = acc ++ concat (map (fun w => w ++ str " ") ws).
Proof.
  induction ws as [|w ws IH]; intros acc Hws.
  - cbn. by rewrite app_nil_r.
  - apply Forall_cons in Hws as [Hw Hws]. cbn [fold_left map concat].
    rewrite IH by done. unfold toneNums_word.
    rewrite runes_ascii, toneNums_ascii by done. cbn [app].
    by rewrite <- !app_assoc.
Qed.

(** X18: on ASCII text, which holds no tone mark, [PinyinToneNums] has
    nothing to convert: it returns the text with the white space at
    both ends removed.  A text in numbered notation stays as it is. *)
Theorem PinyinToneNums_ascii (s : gostring) :
  Forall (fun b => (b2z b < RuneSelf)%Z) s -> PinyinToneNums s = TrimSpace s.
Proof.
  intros Hs. unfold PinyinToneNums.
  rewrite toneNums_words_ascii by (by apply Split_Forall).
  cbn [app]. change (str " ") with [" "%char]. rewrite Split_concat.
  change [" "%char] with (str " "). apply TrimSpace_snoc_space.
  by rewrite runes_ascii, string_of_runes_ascii.
Qed.

Lemma PinyinToneNums_ascii_witness :
  PinyinToneNums (str " Zhong1 wen2") = TrimSpace (str " Zhong1 wen2").
Proof. apply PinyinToneNums_ascii. by_decide. Defined.

(** ** Telling hanzi from other text *)

(** An ASCII byte of a string is one of its code points. *)
Lemma ascii_byte_rune s : forall b,
  In b s -> (b2z b < RuneSelf)%Z -> In (b2z b) (runes s).
Proof.
  unfold runes. induction s as [|r bs rest Hd Hc IH] using decode_ind; [done|].
  intros b Hin Hb. rewrite Hd. cbn [map fst]. apply in_app_or in Hin as [Hin|Hin].
  - left. destruct Hc as (_ & _ & Hlow & Hhigh).
    destruct (Z.lt_ge_cases r 0x80) as [Hr|Hr].
    + destruct (Hlow Hr) as (b' & -> & ->). by destruct Hin as [->|[]].
    + specialize (Hhigh Hr). rewrite List.Forall_forall in Hhigh.
      specialize (Hhigh b Hin). unfold RuneSelf in Hb. lia.
  - right. by apply IH.
Qed.

Lemma symbols_ascii r : (r < RuneSelf)%Z -> symbols !! r = None.
Proof.
  intros Hr. destruct (symbols !! r) as [m|] eqn:E; [exfalso|done].
  apply elem_of_map_to_list in E.
  assert (H : forallb (fun p : rune * gostring => (RuneSelf <=? fst p)%Z)
                      (map_to_list symbols) = true) by (by vm_compute).
  rewrite forallb_forall in H. apply list_elem_of_In in E.
  specialize (H _ E). cbn in H. lia.
Qed.

(** X19: when the Han table holds no ASCII code point, a text with an
    ASCII byte in it (a letter, a digit, a space between two hanzi) is
    not hanzi for [IsHanzi]; the empty text is. *)
Theorem IsHanzi_rejects_ascii `{L : Lib} (s : gostring) (b : byte) :
  (forall r, (0 <= r < RuneSelf)%Z -> unicode_Han r = false) ->
  In b s -> (b2z b < RuneSelf)%Z ->
  IsHanzi s = false /\ IsHanzi [] = true.
Proof.
  intros HHan Hin Hb. split; [|reflexivity].
  destruct (IsHanzi s) eqn:E; [exfalso|done].
  unfold IsHanzi in E. rewrite forallb_forall in E.
  specialize (E (b2z b) (ascii_byte_rune s b Hin Hb)).
  rewrite HHan in E by (pose proof (b2z_range b); lia).
  rewrite symbols_ascii in E by done. by cbn in E.
Qed.

Lemma golib_Han_not_ascii r :
  (0 <= r < RuneSelf)%Z -> golib.in_ranges golib.Han r = false.
Proof.
  intros Hr. apply not_true_is_false. intros H.
  unfold golib.in_ranges in H. apply existsb_exists in H as ([lo hi] & Hin & H).
  apply andb_true_iff in H as [H1 H2]. unfold RuneSelf in Hr.
  unfold golib.Han in Hin. cbn [In] in Hin.
  repeat (destruct Hin as [[= <- <-]|Hin]; [lia|]). destruct Hin.
Qed.

Lemma IsHanzi_rejects_ascii_witness :
  IsHanzi (str "我 的") = false /\ IsHanzi [] = true.
Proof.
  apply (IsHanzi_rejects_ascii (str "我 的") " "%char).
  - exact golib_Han_not_ascii.
  - cbn. tauto.
  - by vm_compute.
Defined.

(** ** Search by meaning finds what is there *)

Section ExactMeaning.
Context `{L : Lib}.





End ExactMeaning.


(** ** The first line that fails *)

(** X21: [Parse] stops at the first entry line [Unmarshal] refuses and
    returns that error, wrapped with the text of the line; the lines
    after it are not looked at. *)
Theorem Parse_stops_at_first_bad_entry `{L : Lib} (text : gostring)
    (good : list gostring) (bad : gostring) (rest : list gostring)
    (st : parsing) (err : error) :
  bufio.ScanLines text = good ++ bad :: rest ->
  parse_lines p_init good = Ok st ->
  is_comment bad = false -> Unmarshal bad = Err err ->
  Parse text = Err (errors_Wrap err "unmarshal: " bad).
Proof.
  intros Hlines Hgood Hc Hu. unfold Parse.
  rewrite Hlines, parse_lines_app, Hgood. cbn [mbind result_bind parse_lines].
  unfold parse_line. unfold is_comment in Hc. rewrite Hc, Hu. reflexivity.
Qed.

Lemma Parse_stops_at_first_bad_entry_witness :
  Parse (Join [str "# CC-CEDICT"; str "中 中 Zhong1 /China/"; str "#! version"]
              ["010"%char])
  = Err (errors_Wrap (errors_New "expected '[pinyin]' format") "unmarshal: "
           (str "中 中 Zhong1 /China/")).
Proof.
  apply (Parse_stops_at_first_bad_entry _ [str "# CC-CEDICT"] _ [str "#! version"]
           {| p_header := [str "# CC-CEDICT"]; p_md := md_zero; p_e := [] |});
    reflexivity.
Defined.

